(** * Verification of the iCalendar decoder of package ics (src/decode.go)

    Shallow embedding of [decode.go]: the buffered reader is the remaining
    input (a [string] of bytes), Go's multiple results become tuples, and
    the three loops of the decoder ([decodeLine], [decodeEvent], [decode])
    are structural recursions on a fuel bound that always exceeds the
    number of iterations the Go loops can take (each iteration that does not
    return consumes at least one byte). *)

From Stdlib Require Import String Ascii ZArith List Bool Lia.
From Stdlib Require Import Sorting.Sorted Sorting.Permutation.
Import ListNotations.

Module ICS.

Open Scope string_scope.

(** ** Go errors that can reach the decoder *)

Inductive error :=
| EOF            (** io.EOF *)
| ErrBadLine     (** errors.New("bad line, couldn't find key:value") *)
| ErrNoCalendar  (** errors.New("didn't find BEGIN:VCALENDAR") *)
| ErrDateParse   (** the *time.ParseError of time.Parse *)
| ErrFuel.       (** exhaustion of the model's loop bound; never reached *)

Definition error_eqb (a b : error) : bool :=
  match a, b with
  | EOF, EOF | ErrBadLine, ErrBadLine | ErrNoCalendar, ErrNoCalendar
  | ErrDateParse, ErrDateParse | ErrFuel, ErrFuel => true
  | _, _ => false
  end.

(** Go's [(T, error)] results where exactly one side is meaningful. *)
Inductive result (A : Type) :=
| Ok : A -> result A
| Err : error -> result A.
Arguments Ok {A} _.
Arguments Err {A} _.

(** ** Bytes and characters *)

Definition LF : ascii := "010"%char.
Definition CR : ascii := "013"%char.
Definition SP : ascii := " "%char.

(** ** bufio.Reader over an in-memory stream

    The reader state is the unread input. Reading from memory never fails
    with anything but io.EOF. *)

(** [r.ReadBytes('\n')]: the bytes up to and including the first newline;
    when there is none, all remaining bytes together with io.EOF. *)
Fixpoint ReadBytes (r : string) : string * option error * string :=
  match r with
  | EmptyString => (EmptyString, Some EOF, EmptyString)
  | String c r' =>
      if Ascii.eqb c LF then (String c EmptyString, None, r')
      else let '(b, err, rest) := ReadBytes r' in (String c b, err, rest)
  end.

(** [r.Peek(1)]: the next byte, or an error (io.EOF) at the end. *)
Definition Peek1 (r : string) : option ascii :=
  match r with
  | EmptyString => None
  | String c _ => Some c
  end.

(** ** strings package *)

(** [strings.SplitN(s, ":", 2)]: [None] stands for the one-element result
    (no colon), [Some (p0, p1)] for the two-element one. *)
Fixpoint SplitN_colon (s : string) : option (string * string) :=
  match s with
  | EmptyString => None
  | String c s' =>
      if Ascii.eqb c ":"%char then Some (EmptyString, s')
      else match SplitN_colon s' with
           | Some (k, v) => Some (String c k, v)
           | None => None
           end
  end.

Fixpoint inCutset (cutset : string) (c : ascii) : bool :=
  match cutset with
  | EmptyString => false
  | String d cs => Ascii.eqb c d || inCutset cs c
  end.

Fixpoint TrimLeft (s cutset : string) : string :=
  match s with
  | EmptyString => EmptyString
  | String c s' => if inCutset cutset c then TrimLeft s' cutset else s
  end.

Fixpoint TrimRight (s cutset : string) : string :=
  match s with
  | EmptyString => EmptyString
  | String c s' =>
      match TrimRight s' cutset with
      | EmptyString => if inCutset cutset c then EmptyString else String c EmptyString
      | t => String c t
      end
  end.

(** [strings.Trim(s, cutset)] *)
Definition Trim (s cutset : string) : string := TrimRight (TrimLeft s cutset) cutset.

(** [strings.Replace(s, old, new, -1)] for a non-empty [old] (the only kind
    the package uses): non-overlapping occurrences, left to right. [skip]
    counts the bytes of a replaced occurrence still to be passed over. *)
Fixpoint replaceFrom (old new : string) (skip : nat) (s : string) : string :=
  match s with
  | EmptyString => EmptyString
  | String c s' =>
      match skip with
      | S k => replaceFrom old new k s'
      | O =>
          if String.prefix old s
          then new ++ replaceFrom old new (pred (String.length old)) s'
          else String c (replaceFrom old new 0 s')
      end
  end.

Definition Replace (s old new : string) : string := replaceFrom old new 0 s.

(** ** UnescapeText (decode.go lines 199-207)

    Rocq string literals have no escapes: ["\;"] is backslash-semicolon,
    ["\n"] is backslash-n and ["\\"] two backslashes. *)
Definition NL : string := String LF EmptyString.

Definition UnescapeText (s : string) : string :=
  let s := Replace s "\;" ";" in
  let s := Replace s "\," "," in
  let s := Replace s "\n" NL in
  let s := Replace s "\\" "\" in
  let s := Replace s NL " " in
  let s := Replace s "&nbsp" " " in
  s.

(** ** decodeLine (decode.go lines 141-182) *)

(** The [for !done] loop assembling one logical line into [buf]. *)
Fixpoint lineLoop (fuel : nat) (buf r : string) : string * string :=
  match fuel with
  | O => (buf, r)
  | S fuel' =>
      let '(b, err, r1) := ReadBytes r in
      let done := match err with Some _ => true | None => false end in
      match b with
      | EmptyString =>
          (* len(b) == 0: continue *)
          if done then (buf, r1) else lineLoop fuel' buf r1
      | String c b' =>
          let b2 := if Ascii.eqb c SP then b' else b in
          let buf' := buf ++ b2 in
          match Peek1 r1 with
          | Some c' =>
              if Ascii.eqb c' SP
              then (if done then (buf', r1) else lineLoop fuel' buf' r1)
              else (buf', r1)
          | None => (buf', r1)
          end
      end
  end.

Definition cutSP : string := " ".
Definition cutSPCRLF : string := String SP (String CR (String LF EmptyString)).

(** [decodeLine(r, removeCRLF)]: key, value, error, and the reader after. *)
Definition decodeLine (removeCRLF : bool) (r : string)
  : string * string * option error * string :=
  let '(buf, r') := lineLoop (S (String.length r)) EmptyString r in
  match SplitN_colon buf with
  | None => ("", "", Some ErrBadLine, r')
  | Some (p0, p1) =>
      if negb removeCRLF then (Trim p0 cutSP, Trim p1 cutSP, None, r')
      else (Trim p0 cutSPCRLF, Trim p1 cutSPCRLF, None, r')
  end.

(** ** time.Time, restricted to the values the decoder builds

    The decoder only stores [time.Time{}] or the result of
    [time.Parse("20060102", _)], which is midnight UTC of a date; such a
    value is determined by its year, month and day. *)
Record Time := mkTime { year : Z; month : Z; day : Z }.

(** [time.Time{}]: January 1 of year 1, 00:00:00 UTC. *)
Definition zeroTime : Time := mkTime 1 1 1.

Definition IsZero (t : Time) : bool :=
  Z.eqb (year t) 1 && Z.eqb (month t) 1 && Z.eqb (day t) 1.

Definition Before (t u : Time) : bool :=
  Z.ltb (year t) (year u)
  || (Z.eqb (year t) (year u)
      && (Z.ltb (month t) (month u)
          || (Z.eqb (month t) (month u) && Z.ltb (day t) (day u)))).

Definition isLeap (y : Z) : bool :=
  Z.eqb (y mod 4) 0 && (negb (Z.eqb (y mod 100) 0) || Z.eqb (y mod 400) 0).

Definition daysIn (m y : Z) : Z :=
  if Z.eqb m 2 then (if isLeap y then 29 else 28)
  else if Z.eqb m 4 || Z.eqb m 6 || Z.eqb m 9 || Z.eqb m 11 then 30
  else 31.

Definition digitVal (c : ascii) : option Z :=
  let n := nat_of_ascii c in
  if (48 <=? n)%nat && (n <=? 57)%nat then Some (Z.of_nat n - 48)%Z else None.

Fixpoint atoiDigits (cs : list ascii) (acc : Z) : option Z :=
  match cs with
  | [] => Some acc
  | c :: cs' =>
      match digitVal c with
      | Some d => atoiDigits cs' (acc * 10 + d)%Z
      | None => None
      end
  end.

(** [time.Parse("20060102", v)] for an eight-byte [v]: four-digit year,
    two-digit month in 1..12, two-digit day in 1..daysIn(month, year). On
    failure Go returns [time.Time{}] and a *ParseError. *)
Definition ParseDate (v : string) : Time * option error :=
  match list_ascii_of_string v with
  | [y1; y2; y3; y4; m1; m2; d1; d2] =>
      match atoiDigits [y1; y2; y3; y4] 0, atoiDigits [m1; m2] 0,
            atoiDigits [d1; d2] 0 with
      | Some y, Some m, Some d =>
          if Z.ltb m 1 || Z.ltb 12 m then (zeroTime, Some ErrDateParse)
          else if Z.ltb d 1 || Z.ltb (daysIn m y) d then (zeroTime, Some ErrDateParse)
          else (mkTime y m d, None)
      | _, _, _ => (zeroTime, Some ErrDateParse)
      end
  | _ => (zeroTime, Some ErrDateParse)
  end.

(** [decodeDate] (decode.go lines 133-139). *)
Definition decodeDate (value : string) : Time * option error :=
  if (String.length value <? 8)%nat then (zeroTime, None)
  else ParseDate (substring 0 8 value).

(** ** Event and Calendar *)

Record Event := mkEvent {
  UID : string;
  Start : Time;
  End : Time;
  Summary : string;
  Location : string;
  Description : string }.

(** [new(Event)] *)
Definition newEvent : Event := mkEvent "" zeroTime zeroTime "" "" "".

Definition setUID (e : Event) (v : string) : Event :=
  mkEvent v (Start e) (End e) (Summary e) (Location e) (Description e).
Definition setStart (e : Event) (t : Time) : Event :=
  mkEvent (UID e) t (End e) (Summary e) (Location e) (Description e).
Definition setEnd (e : Event) (t : Time) : Event :=
  mkEvent (UID e) (Start e) t (Summary e) (Location e) (Description e).
Definition setSummary (e : Event) (v : string) : Event :=
  mkEvent (UID e) (Start e) (End e) v (Location e) (Description e).
Definition setLocation (e : Event) (v : string) : Event :=
  mkEvent (UID e) (Start e) (End e) (Summary e) v (Description e).
Definition setDescription (e : Event) (v : string) : Event :=
  mkEvent (UID e) (Start e) (End e) (Summary e) (Location e) v.

(** [Calendar.Event]; the field cannot share the name of the type [Event]. *)
Record Calendar := mkCalendar { Events : list Event }.

(** ** decodeEvent (decode.go lines 78-126) *)

(** The "Fix dates" normalisation of the key (lines 90-96). *)
Definition fixDateKey (key : string) : string :=
  let key :=
    if (7 <=? String.length key)%nat && String.eqb (substring 0 7 key) "DTSTART"
    then "DTSTART" else key in
  if (5 <=? String.length key)%nat && String.eqb (substring 0 5 key) "DTEND"
  then "DTEND" else key.

(** What one pass of the loop body leaves behind: a [return e, nil], or
    the event and the [err] that the next pass inspects first. *)
Inductive eventAction :=
| EvReturn (e : Event)
| EvNext (e : Event) (err : option error).

(** The loop body after [decodeLine] (lines 90-124), given the key, the
    value and the error [decodeLine] returned. *)
Definition eventStep (e : Event) (key value : string) (err : option error)
  : eventAction :=
  let key := fixDateKey key in
  let value := UnescapeText value in
  if String.eqb key "END" then
    (if negb (String.eqb value "VEVENT") then EvNext e err  (* continue *)
     else EvReturn e)
  else if String.eqb key "UID" then EvNext (setUID e value) err
  else if String.eqb key "DTSTART" then
    let '(t, err') := decodeDate value in EvNext (setStart e t) err'
  else if String.eqb key "DTSTART;VALUE=DATE" then
    let '(t, err') := decodeDate value in EvNext (setStart e t) err'
  else if String.eqb key "DTEND" then
    let '(t, err') := decodeDate value in EvNext (setEnd e t) err'
  else if String.eqb key "DTEND;VALUE=DATE" then
    let '(t, err') := decodeDate value in EvNext (setEnd e t) err'
  else if String.eqb key "SUMMARY" then EvNext (setSummary e value) err
  else if String.eqb key "LOCATION" then EvNext (setLocation e value) err
  else if String.eqb key "DESCRIPTION" then EvNext (setDescription e value) err
  else EvNext e err.

(** The [for] loop of decodeEvent. The check [if err != nil] at the top of
    the loop is done here right after the body that set [err]; on the first
    pass [err] is nil. *)
Fixpoint decodeEventLoop (fuel : nat) (removeCRLF : bool) (e : Event) (r : string)
  : result Event * string :=
  match fuel with
  | O => (Err ErrFuel, r)
  | S fuel' =>
      let '(key, value, err, r1) := decodeLine removeCRLF r in
      match eventStep e key value err with
      | EvReturn e' => (Ok e', r1)
      | EvNext e' None => decodeEventLoop fuel' removeCRLF e' r1
      | EvNext e' (Some err') =>
          if error_eqb err' EOF then (Ok e', r1) else (Err err', r1)
      end
  end.

Definition decodeEvent (removeCRLF : bool) (r : string) : result Event * string :=
  decodeEventLoop (S (String.length r)) removeCRLF newEvent r.

(** ** Sorting (decode.go lines 184-196) *)

(** [eventList.Less] on the two events at positions [i] and [j]. *)
Definition Less (ei ej : Event) : bool :=
  if IsZero (Start ei) then true
  else if IsZero (Start ej) then false
  else Before (Start ei) (Start ej).

(** Go's sort package (Go 1.19 and later, zsortinterface.go): [sort.Sort]
    is pattern-defeating quicksort over [data.Less] and [data.Swap]. The
    slice is a list; [data.Swap] out of range, which Go never does here,
    leaves the list unchanged. *)
Module GoSort.
Local Open Scope nat_scope.

Section Sort.
Variable A : Type.
Variable less : A -> A -> bool.

(** [data.Less(i, j)] on the slice [l]. *)
Definition lessAt (l : list A) (i j : nat) : bool :=
  match nth_error l i, nth_error l j with
  | Some x, Some y => less x y
  | _, _ => false
  end.

Fixpoint setNth (l : list A) (i : nat) (v : A) : list A :=
  match l, i with
  | [], _ => []
  | _ :: t, O => v :: t
  | h :: t, S i' => h :: setNth t i' v
  end.

(** [data.Swap(i, j)]: [l[i], l[j] = l[j], l[i]]. *)
Definition swapAt (l : list A) (i j : nat) : list A :=
  match nth_error l i, nth_error l j with
  | Some x, Some y => setNth (setNth l i y) j x
  | _, _ => l
  end.

(** [for ; p(i); i++ {}] and [for ; p(j); j-- {}], run at most [fuel] times. *)
Fixpoint countUp (fuel : nat) (p : nat -> bool) (i : nat) : nat :=
  match fuel with
  | O => i
  | S f => if p i then countUp f p (S i) else i
  end.

Fixpoint countDown (fuel : nat) (p : nat -> bool) (j : nat) : nat :=
  match fuel with
  | O => j
  | S f => if p j then countDown f p (j - 1) else j
  end.

(** insertionSort(data, a, b) *)
Fixpoint insertionSortInner (j a : nat) (l : list A) : list A :=
  match j with
  | O => l
  | S j' => if (a <? j) && lessAt l j j' then insertionSortInner j' a (swapAt l j j') else l
  end.

Fixpoint insertionSortOuter (n i a : nat) (l : list A) : list A :=
  match n with
  | O => l
  | S n' => insertionSortOuter n' (S i) a (insertionSortInner i a l)
  end.

Definition insertionSort (l : list A) (a b : nat) : list A :=
  insertionSortOuter (b - S a) (S a) a l.

(** siftDown(data, lo, hi, first), with [root] starting at [lo]. *)
Fixpoint siftDown (fuel : nat) (l : list A) (root hi first : nat) : list A :=
  match fuel with
  | O => l
  | S fuel' =>
      let child := 2 * root + 1 in
      if hi <=? child then l
      else
        let child :=
          if (child + 1 <? hi) && lessAt l (first + child) (first + child + 1)
          then child + 1 else child in
        if negb (lessAt l (first + root) (first + child)) then l
        else siftDown fuel' (swapAt l (first + root) (first + child)) child hi first
  end.

(** heapSort(data, a, b) *)
Fixpoint heapify (i : nat) (l : list A) (hi first : nat) : list A :=
  let l := siftDown hi l i hi first in
  match i with
  | O => l
  | S i' => heapify i' l hi first
  end.

Fixpoint popMax (i : nat) (l : list A) (first : nat) : list A :=
  let l := siftDown i (swapAt l first (first + i)) 0 i first in
  match i with
  | O => l
  | S i' => popMax i' l first
  end.

Definition heapSort (l : list A) (a b : nat) : list A :=
  let hi := b - a in
  let l := heapify ((hi - 1) / 2) l hi a in
  match hi with
  | O => l
  | S h => popMax h l a
  end.

(** xorshift.Next on a uint64 *)
Definition mask64 : Z := Z.ones 64.

Definition xorshiftNext (r : Z) : Z :=
  let r := Z.lxor r (Z.land (Z.shiftl r 13) mask64) in
  let r := Z.lxor r (Z.shiftr r 7) in
  Z.lxor r (Z.land (Z.shiftl r 17) mask64).

(** bits.Len(uint(x)) *)
Definition bitsLen (x : nat) : nat :=
  match x with
  | O => O
  | _ => S (Nat.log2 x)
  end.

Definition nextPowerOfTwo (length : nat) : nat := 2 ^ bitsLen length.

(** breakPatterns(data, a, b) *)
Definition breakPatterns (l : list A) (a b : nat) : list A :=
  let length := b - a in
  if 8 <=? length then
    let modulus := nextPowerOfTwo length in
    let idx := a + (length / 4) * 2 - 1 in
    let step (st : list A * Z) (i : nat) :=
      let '(l, random) := st in
      let random := xorshiftNext random in
      let other := Z.to_nat (Z.land random (Z.of_nat modulus - 1)) in
      let other := if length <=? other then other - length else other in
      (swapAt l (idx - 1 + i) (a + other), random) in
    fst (fold_left step [0; 1; 2] (l, Z.of_nat length))
  else l.

Inductive sortedHint := unknownHint | increasingHint | decreasingHint.

(** order2(data, a, b, &swaps) *)
Definition order2 (l : list A) (a b swaps : nat) : nat * nat * nat :=
  if lessAt l b a then (b, a, S swaps) else (a, b, swaps).

(** median(data, a, b, c, &swaps) *)
Definition median (l : list A) (a b c swaps : nat) : nat * nat :=
  let '(a, b, swaps) := order2 l a b swaps in
  let '(b, c, swaps) := order2 l b c swaps in
  let '(a, b, swaps) := order2 l a b swaps in
  (b, swaps).

(** medianAdjacent(data, a, &swaps) *)
Definition medianAdjacent (l : list A) (a swaps : nat) : nat * nat :=
  median l (a - 1) a (a + 1) swaps.

(** choosePivot(data, a, b) *)
Definition choosePivot (l : list A) (a b : nat) : nat * sortedHint :=
  let len := b - a in
  let i := a + len / 4 * 1 in
  let j := a + len / 4 * 2 in
  let k := a + len / 4 * 3 in
  let '(j, swaps) :=
    if 8 <=? len then
      let '(i, j, k, swaps) :=
        if 50 <=? len then
          let '(i, swaps) := medianAdjacent l i 0 in
          let '(j, swaps) := medianAdjacent l j swaps in
          let '(k, swaps) := medianAdjacent l k swaps in
          (i, j, k, swaps)
        else (i, j, k, 0) in
      median l i j k swaps
    else (j, 0) in
  match swaps with
  | 0 => (j, increasingHint)
  | 12 => (j, decreasingHint)
  | _ => (j, unknownHint)
  end.

(** reverseRange(data, a, b) *)
Fixpoint reverseLoop (fuel i j : nat) (l : list A) : list A :=
  match fuel with
  | O => l
  | S f => if i <? j then reverseLoop f (S i) (j - 1) (swapAt l i j) else l
  end.

Definition reverseRange (l : list A) (a b : nat) : list A :=
  reverseLoop (b - a) a (b - 1) l.

(** partialInsertionSort(data, a, b) *)
Fixpoint shiftLeft (j : nat) (l : list A) : list A :=
  match j with
  | O => l
  | S j' => if negb (lessAt l j j') then l else shiftLeft j' (swapAt l j j')
  end.

Fixpoint shiftRight (fuel j b : nat) (l : list A) : list A :=
  match fuel with
  | O => l
  | S f =>
      if j <? b then
        if negb (lessAt l j (j - 1)) then l else shiftRight f (S j) b (swapAt l j (j - 1))
      else l
  end.

Fixpoint partialInsertionSteps (steps : nat) (l : list A) (a b i : nat) : list A * bool :=
  match steps with
  | O => (l, false)
  | S steps' =>
      let i := countUp (b - i) (fun i => (i <? b) && negb (lessAt l i (i - 1))) i in
      if i =? b then (l, true)
      else if b - a <? 50 then (l, false)
      else
        let l := swapAt l i (i - 1) in
        let l := if 2 <=? i - a then shiftLeft (i - 1) l else l in
        let l := if 2 <=? b - i then shiftRight (b - i) (S i) b l else l in
        partialInsertionSteps steps' l a b i
  end.

Definition partialInsertionSort (l : list A) (a b : nat) : list A * bool :=
  partialInsertionSteps 5 l a b (S a).

(** partition(data, a, b, pivot) *)
Fixpoint partitionLoop (fuel : nat) (l : list A) (i j a : nat) : list A * nat :=
  match fuel with
  | O => (l, j)
  | S f =>
      let i := countUp (S j - i) (fun i => (i <=? j) && lessAt l i a) i in
      let j := countDown (S j - i) (fun j => (i <=? j) && negb (lessAt l j a)) j in
      if j <? i then (l, j)
      else partitionLoop f (swapAt l i j) (S i) (j - 1) a
  end.

Definition partition (l : list A) (a b pivot : nat) : list A * nat * bool :=
  let l := swapAt l a pivot in
  let j := b - 1 in
  let i := countUp (S j - S a) (fun i => (i <=? j) && lessAt l i a) (S a) in
  let j := countDown (S j - i) (fun j => (i <=? j) && negb (lessAt l j a)) j in
  if j <? i then (swapAt l j a, j, true)
  else
    let '(l, j) := partitionLoop (b - a) (swapAt l i j) (S i) (j - 1) a in
    (swapAt l j a, j, false).

(** partitionEqual(data, a, b, pivot) *)
Fixpoint partitionEqualLoop (fuel : nat) (l : list A) (i j a : nat) : list A * nat :=
  match fuel with
  | O => (l, i)
  | S f =>
      let i := countUp (S j - i) (fun i => (i <=? j) && negb (lessAt l a i)) i in
      let j := countDown (S j - i) (fun j => (i <=? j) && lessAt l a j) j in
      if j <? i then (l, i)
      else partitionEqualLoop f (swapAt l i j) (S i) (j - 1) a
  end.

Definition partitionEqual (l : list A) (a b pivot : nat) : list A * nat :=
  partitionEqualLoop (b - a) (swapAt l a pivot) (S a) (b - 1) a.

Definition isIncreasing (h : sortedHint) : bool :=
  match h with increasingHint => true | _ => false end.

(** pdqsort(data, a, b, limit) with the loop variables [wasBalanced] and
    [wasPartitioned]; [fuel] bounds the recursion and the loop together. *)
Fixpoint pdqsort (fuel : nat) (l : list A) (a b limit : nat)
  (wasBalanced wasPartitioned : bool) : list A :=
  match fuel with
  | O => l
  | S f =>
      let length := b - a in
      if length <=? 12 then insertionSort l a b
      else if limit =? 0 then heapSort l a b
      else
        let '(l, limit) :=
          if negb wasBalanced then (breakPatterns l a b, limit - 1) else (l, limit) in
        let '(pivot, hint) := choosePivot l a b in
        let '(l, pivot, hint) :=
          match hint with
          | decreasingHint => (reverseRange l a b, (b - 1) - (pivot - a), increasingHint)
          | _ => (l, pivot, hint)
          end in
        let '(l, sorted) :=
          if wasBalanced && wasPartitioned && isIncreasing hint
          then partialInsertionSort l a b else (l, false) in
        if sorted then l
        else if (0 <? a) && negb (lessAt l (a - 1) pivot) then
          let '(l, mid) := partitionEqual l a b pivot in
          pdqsort f l mid b limit wasBalanced wasPartitioned
        else
          let '(l, mid, alreadyPartitioned) := partition l a b pivot in
          let leftLen := mid - a in
          let rightLen := b - mid in
          let balanceThreshold := length / 8 in
          if leftLen <? rightLen then
            let l := pdqsort f l a mid limit true true in
            pdqsort f l (S mid) b limit (balanceThreshold <=? leftLen) alreadyPartitioned
          else
            let l := pdqsort f l (S mid) b limit true true in
            pdqsort f l a mid limit (balanceThreshold <=? rightLen) alreadyPartitioned
  end.

(** sort.Sort(data) *)
Definition Sort (l : list A) : list A :=
  let n := length l in
  if n <=? 1 then l else pdqsort (S n) l 0 n (bitsLen n) true true.

End Sort.
End GoSort.

(** [insertionSort(data, 0, n)] written as a fold: element [i] is swapped
    leftwards while [Less(j, j-1)]. The sorted prefix is kept reversed, its
    rightmost element first. It is equal to [GoSort.insertionSort] on the
    whole slice (see the facts on the sort below). *)
Fixpoint insertRev (x : Event) (prefix : list Event) : list Event :=
  match prefix with
  | [] => [x]
  | y :: ys => if Less x y then y :: insertRev x ys else x :: y :: ys
  end.

Definition insertionSort (l : list Event) : list Event :=
  rev (fold_left (fun acc x => insertRev x acc) l []).

(** [sort.Sort(eventList(l))]. *)
Definition sortSort (l : list Event) : list Event := GoSort.Sort Event Less l.

(** ** decode (decode.go lines 48-76) *)

(** Outcome of a decode call: [(c, nil)], [(nil, err)], or a run-time panic. *)
Inductive decodeOutcome :=
| Decoded (c : Calendar)
| Failed (err : error)
| Panicked.

(** [sort.Sort(eventList(c.Event)); return c, nil] after the loop; with
    [c == nil] the field access [c.Event] is a nil pointer dereference. *)
Definition finish (c : option Calendar) : decodeOutcome :=
  match c with
  | None => Panicked
  | Some c => Decoded (mkCalendar (sortSort (Events c)))
  end.

(** The [key == "BEGIN"] branch: the calendar and reader after it. *)
Definition beginStep (removeCRLF : bool) (c : option Calendar) (value r : string)
  : result (Calendar * string) :=
  let c1 :=
    match c with
    | None => if negb (String.eqb value "VCALENDAR") then Err ErrNoCalendar
              else Ok (mkCalendar [])
    | Some c0 => Ok c0
    end in
  match c1 with
  | Err err => Err err
  | Ok c1 =>
      if String.eqb value "VEVENT" then
        match decodeEvent removeCRLF r with
        | (Err err, _) => Err err
        | (Ok e, r2) => Ok (mkCalendar (Events c1 ++ [e]), r2)
        end
      else Ok (c1, r)
  end.

Fixpoint decodeLoop (fuel : nat) (removeCRLF : bool) (c : option Calendar) (r : string)
  : decodeOutcome :=
  match fuel with
  | O => Failed ErrFuel
  | S fuel' =>
      let '(key, value, err, r1) := decodeLine removeCRLF r in
      match err with
      | Some err => Failed err
      | None =>
          let st :=
            if String.eqb key "BEGIN" then
              match beginStep removeCRLF c value r1 with
              | Err err => Err err
              | Ok (c2, r2) => Ok (Some c2, r2)
              end
            else Ok (c, r1) in
          match st with
          | Err err => Failed err
          | Ok (c2, r2) =>
              if String.eqb key "END" && String.eqb value "VCALENDAR"
              then finish c2
              else decodeLoop fuel' removeCRLF c2 r2
          end
      end
  end.

Definition decode (removeCRLF : bool) (input : string) : decodeOutcome :=
  decodeLoop (S (String.length input)) removeCRLF None input.

Definition Decode (input : string) : decodeOutcome := decode true input.
Definition DecodePreserveCRLF (input : string) : decodeOutcome := decode false input.

(** ** Input texts *)

(** Lines, each terminated by [\n]. *)
Fixpoint linesLF (ls : list string) : string :=
  match ls with
  | [] => EmptyString
  | l :: ls' => l ++ NL ++ linesLF ls'
  end.

(** Lines, each terminated by [\r\n]. *)
Fixpoint linesCRLF (ls : list string) : string :=
  match ls with
  | [] => EmptyString
  | l :: ls' => l ++ String CR NL ++ linesCRLF ls'
  end.

(** A line end: [\r\n] when [crlf] holds, [\n] otherwise. *)
Definition eol (crlf : bool) : string := if crlf then String CR NL else NL.

(** Blank lines, one per element of [ends], each ended by [eol]. *)
Definition blankLines (ends : list bool) : string :=
  fold_right (fun crlf r => eol crlf ++ r) EmptyString ends.


Definition minimalLines : list string :=
  ["BEGIN:VCALENDAR"; "BEGIN:VEVENT"; "UID:1@test"; "DTSTART:20230101";
   "DTEND:20230102"; "SUMMARY:Test"; "END:VEVENT"; "END:VCALENDAR"].

(** Two events without DTSTART. *)
Definition twoUnsetLines : list string :=
  ["BEGIN:VCALENDAR"; "BEGIN:VEVENT"; "UID:a"; "END:VEVENT";
   "BEGIN:VEVENT"; "UID:b"; "END:VEVENT"; "END:VCALENDAR"].

(** Fourteen events in scrambled Start order, the fourth without DTSTART. *)
Definition scrambledLines : list string :=
  "BEGIN:VCALENDAR"
  :: concat (map (fun p => ["BEGIN:VEVENT"; p; "END:VEVENT"])
       ["DTSTART:20230509"; "DTSTART:20211231"; "DTSTART:20230101"; "UID:unset";
        "DTSTART:20240229"; "DTSTART:20230102"; "DTSTART:20190704";
        "DTSTART:20230615"; "DTSTART:20220101"; "DTSTART:20230101";
        "DTSTART:20301130"; "DTSTART:20200505"; "DTSTART:20230510";
        "DTSTART:20181001"])
  ++ ["END:VCALENDAR"].

(** "May come before" in the order the sort aims at: unset Start first,
    then set Starts ascending. *)
Definition startOrder (a b : Event) : Prop :=
  IsZero (Start a) = true
  \/ (IsZero (Start b) = false /\ Before (Start b) (Start a) = false).

(** ** Event.String (decode.go lines 29-38) *)

(** The ASCII digit of [k] in 0..9. *)
Definition digitChar (k : Z) : ascii := ascii_of_nat (48 + Z.to_nat k).

(** Decimal digits of [u >= 0], most significant first; [fuel] bounds the
    number of digits. *)
Fixpoint decimalDigits (fuel : nat) (u : Z) : string :=
  match fuel with
  | O => EmptyString
  | S f =>
      if Z.ltb u 10 then String (digitChar u) EmptyString
      else decimalDigits f (u / 10) ++ String (digitChar (u mod 10)) EmptyString
  end.

Fixpoint zeros (n : nat) : string :=
  match n with
  | O => EmptyString
  | S n' => String "0"%char (zeros n')
  end.

(** time's [appendInt(b, x, width)]: a minus sign for negative [x], then
    the decimal digits of [|x|] left-padded with zeros to [width]. *)
Definition appendInt (x : Z) (width : nat) : string :=
  let sign := if Z.ltb x 0 then "-" else "" in
  let ds := decimalDigits (S (Z.to_nat (Z.abs x))) (Z.abs x) in
  sign ++ zeros (width - String.length ds) ++ ds.

(** [t.String()], i.e. [t.Format("2006-01-02 15:04:05.999999999 -0700 MST")],
    for the values of [Time] (midnight UTC, no monotonic reading): the
    fractional seconds are all zero and left out, the zone is +0000 UTC. *)
Definition TimeString (t : Time) : string :=
  appendInt (year t) 4 ++ "-" ++ appendInt (month t) 2 ++ "-" ++ appendInt (day t) 2
  ++ " " ++ appendInt 0 2 ++ ":" ++ appendInt 0 2 ++ ":" ++ appendInt 0 2
  ++ " +0000 UTC".

(** [strings.Join(s, "\n")] *)
Fixpoint JoinLF (ls : list string) : string :=
  match ls with
  | [] => EmptyString
  | [l] => l
  | l :: ls' => l ++ NL ++ JoinLF ls'
  end.

(** The String method of [*Event] *)
Definition EventString (e : Event) : string :=
  JoinLF ["UID:" ++ UID e; "Start: " ++ TimeString (Start e); "End: " ++ TimeString (End e);
          "Summary: " ++ Summary e; "Location: " ++ Location e;
          "Description: " ++ Description e].

(** ** The earlier variant of the package (src/unnamed/part_000)

    It shares the types, [UnescapeText], [eventList.Less] and [Event.String]
    with decode.go (the same code), and has its own [decodeLine] (built on
    [bufio.ReadLine]), [decodeEvent], [decodeDate] and [Decode]. *)
Module V0.

Inductive error :=
| ErrUnexpectedEOF  (** io.ErrUnexpectedEOF *)
| ErrLongLine       (** errors.New("unexpected long line") *)
| ErrBadLine        (** errors.New("bad line, couldn't find key:value") *)
| ErrNoCalendar     (** errors.New("didn't find BEGIN:VCALENDAR") *)
| ErrDateParse      (** the *time.ParseError of time.Parse *)
| ErrFuel.          (** exhaustion of the model's loop bound *)

(** The default size of a bufio.Reader buffer. *)
Definition bufSize : nat := 4096.

Fixpoint dropN (n : nat) (s : string) : string :=
  match n, s with
  | O, _ => s
  | S _, EmptyString => EmptyString
  | S n', String _ s' => dropN n' s'
  end.

Fixpoint lastChar (s : string) : option ascii :=
  match s with
  | EmptyString => None
  | String c EmptyString => Some c
  | String _ s' => lastChar s'
  end.

(** [s] without its last byte. *)
Fixpoint chopLast (s : string) : string :=
  match s with
  | EmptyString => EmptyString
  | String _ EmptyString => EmptyString
  | String c s' => String c (chopLast s')
  end.

(** [r.ReadLine()] over a strings.Reader: the line without its "\n" or
    "\r\n", whether it is only a prefix (a line of [bufSize] bytes or more
    fills the buffer; a '\r' ending the buffer is put back), the error (only
    io.EOF, when no byte is left), and the reader after. *)
Definition ReadLine (r : string) : string * bool * option ICS.error * string :=
  let '(b, err, rest) := ReadBytes r in
  let content := match err with None => chopLast b | Some _ => b end in
  if (bufSize <=? String.length content)%nat then
    let full := substring 0 bufSize r in
    match lastChar full with
    | Some c =>
        if Ascii.eqb c CR then (chopLast full, true, None, dropN (bufSize - 1) r)
        else (full, true, None, dropN bufSize r)
    | None => (full, true, None, dropN bufSize r)
    end
  else
    match err with
    | Some e =>
        match b with
        | EmptyString => (EmptyString, false, Some e, rest)
        | _ => (b, false, None, rest)
        end
    | None =>
        match lastChar content with
        | Some c => if Ascii.eqb c CR then (chopLast content, false, None, rest)
                    else (content, false, None, rest)
        | None => (content, false, None, rest)
        end
    end.

(** The [for] loop of decodeLine (part_000 lines 130-155): error, buffer,
    reader after. *)
Fixpoint lineLoop (fuel : nat) (buf r : string) : option error * string * string :=
  match fuel with
  | O => (Some ErrFuel, buf, r)
  | S fuel' =>
      let '(b, isPrefix, err, r1) := ReadLine r in
      match err with
      | Some _ => (Some ErrUnexpectedEOF, buf, r1)
      | None =>
          if isPrefix then (Some ErrLongLine, buf, r1)
          else match b with
               | EmptyString => lineLoop fuel' buf r1   (* continue *)
               | String c b' =>
                   let b2 := if Ascii.eqb c SP then b' else b in
                   let buf' := buf ++ b2 in
                   match Peek1 r1 with
                   | Some c' => if Ascii.eqb c' SP then lineLoop fuel' buf' r1
                                else (None, buf', r1)
                   | None => (None, buf', r1)
                   end
               end
      end
  end.

(** [decodeLine(r)] (part_000 lines 128-162): key and value untrimmed. *)
Definition decodeLine (r : string) : string * string * option error * string :=
  match lineLoop (S (String.length r)) EmptyString r with
  | (Some err, _, r') => ("", "", Some err, r')
  | (None, buf, r') =>
      match SplitN_colon buf with
      | None => ("", "", Some ErrBadLine, r')
      | Some (p0, p1) => (p0, p1, None, r')
      end
  end.

(** A Go call that returns, or panics. *)
Inductive outcome (A : Type) :=
| Ret : A -> outcome A
| Panic : outcome A.
Arguments Ret {A} _.
Arguments Panic {A}.

(** [decodeDate] (part_000 lines 123-126): [value[0:8]] panics on a value
    shorter than 8 bytes. *)
Definition decodeDate (value : string) : outcome (Time * option error) :=
  if (String.length value <? 8)%nat then Panic
  else match ParseDate (substring 0 8 value) with
       | (t, None) => Ret (t, None)
       | (t, Some _) => Ret (t, Some ErrDateParse)
       end.

Inductive eventAction :=
| EvReturn (e : Event)
| EvNext (e : Event) (err : option error)
| EvPanic.

Definition dateStep (e : Event) (set : Event -> Time -> Event) (value : string)
  : eventAction :=
  match decodeDate value with
  | Panic => EvPanic
  | Ret (t, err') => EvNext (set e t) err'
  end.

(** The loop body of decodeEvent after decodeLine (part_000 lines 79-113). *)
Definition eventStep (e : Event) (key value : string) (err : option error)
  : eventAction :=
  let key := fixDateKey key in
  let value := UnescapeText value in
  if String.eqb key "END" then
    (if negb (String.eqb value "VEVENT") then EvNext e err else EvReturn e)
  else if String.eqb key "UID" then EvNext (setUID e value) err
  else if String.eqb key "DTSTART" then dateStep e setStart value
  else if String.eqb key "DTSTART;VALUE=DATE" then dateStep e setStart value
  else if String.eqb key "DTEND" then dateStep e setEnd value
  else if String.eqb key "DTEND;VALUE=DATE" then dateStep e setEnd value
  else if String.eqb key "SUMMARY" then EvNext (setSummary e value) err
  else if String.eqb key "LOCATION" then EvNext (setLocation e value) err
  else if String.eqb key "DESCRIPTION" then EvNext (setDescription e value) err
  else EvNext e err.

(** decodeEvent (part_000 lines 70-116): the event, or any error. *)
Fixpoint decodeEventLoop (fuel : nat) (e : Event) (r : string)
  : outcome (Event + error) * string :=
  match fuel with
  | O => (Ret (inr ErrFuel), r)
  | S fuel' =>
      let '(key, value, err, r1) := decodeLine r in
      match eventStep e key value err with
      | EvReturn e' => (Ret (inl e'), r1)
      | EvPanic => (Panic, r1)
      | EvNext e' None => decodeEventLoop fuel' e' r1
      | EvNext _ (Some err') => (Ret (inr err'), r1)
      end
  end.

Definition decodeEvent (r : string) : outcome (Event + error) * string :=
  decodeEventLoop (S (String.length r)) newEvent r.

Inductive decodeOutcome :=
| Decoded (c : Calendar)
| Failed (err : error)
| Panicked.

Definition finish (c : option Calendar) : decodeOutcome :=
  match c with
  | None => Panicked
  | Some c => Decoded (mkCalendar (sortSort (Events c)))
  end.

(** The [key == "BEGIN"] branch of Decode. *)
Definition beginStep (c : option Calendar) (value r : string)
  : outcome (error + (Calendar * string)) :=
  let c1 :=
    match c with
    | None => if negb (String.eqb value "VCALENDAR") then inl ErrNoCalendar
              else inr (mkCalendar [])
    | Some c0 => inr c0
    end in
  match c1 with
  | inl err => Ret (inl err)
  | inr c1 =>
      if String.eqb value "VEVENT" then
        match decodeEvent r with
        | (Panic, _) => Panic
        | (Ret (inr err), _) => Ret (inl err)
        | (Ret (inl e), r2) => Ret (inr (mkCalendar (Events c1 ++ [e]), r2))
        end
      else Ret (inr (c1, r))
  end.

(** The loop of [Decode(rd)] (part_000 lines 40-68). *)
Fixpoint decodeLoop (fuel : nat) (c : option Calendar) (r : string) : decodeOutcome :=
  match fuel with
  | O => Failed ErrFuel
  | S fuel' =>
      let '(key, value, err, r1) := decodeLine r in
      match err with
      | Some err => Failed err
      | None =>
          let st :=
            if String.eqb key "BEGIN" then
              match beginStep c value r1 with
              | Panic => Panic
              | Ret (inl err) => Ret (inl err)
              | Ret (inr (c2, r2)) => Ret (inr (Some c2, r2))
              end
            else Ret (inr (c, r1)) in
          match st with
          | Panic => Panicked
          | Ret (inl err) => Failed err
          | Ret (inr (c2, r2)) =>
              if String.eqb key "END" && String.eqb value "VCALENDAR"
              then finish c2
              else decodeLoop fuel' c2 r2
          end
      end
  end.

Definition Decode (input : string) : decodeOutcome :=
  decodeLoop (S (String.length input)) None input.

End V0.

(** ** Helpers for stating properties *)

(** [strings.Split(s, "\n")] *)
Fixpoint SplitLF (s : string) : list string :=
  match s with
  | EmptyString => [EmptyString]
  | String c s' =>
      if Ascii.eqb c LF then EmptyString :: SplitLF s'
      else match SplitLF s' with
           | [] => [String c EmptyString]
           | h :: t => String c h :: t
           end
  end.

Fixpoint hasChar (c : ascii) (s : string) : bool :=
  match s with
  | EmptyString => false
  | String d s' => Ascii.eqb c d || hasChar c s'
  end.

(** The text fields of an event hold no newline. *)
Definition noLFEvent (e : Event) : Prop :=
  hasChar LF (UID e) = false /\ hasChar LF (Summary e) = false
  /\ hasChar LF (Location e) = false /\ hasChar LF (Description e) = false.

(** [t.Format("20060102")] for a year in 0..9999 and a month and day of
    two digits: the eight-byte text that [decodeDate] reads. *)
Definition fmtDate (y m d : Z) : string :=
  appendInt y 4 ++ appendInt m 2 ++ appendInt d 2.

(** [s] is non-empty and neither starts nor ends with a byte of [cut]. *)
Definition edgeFree (cut s : string) : Prop :=
  match s, V0.lastChar s with
  | String c _, Some d => inCutset cut c = false /\ inCutset cut d = false
  | _, _ => False
  end.

(** Whether an event's Start is unset. *)
Definition unsetStart (e : Event) : bool := IsZero (Start e).

(** The [k] low decimal digits of [u], most significant first. *)
Fixpoint padDigits (k : nat) (u : Z) : string :=
  match k with
  | O => EmptyString
  | S O => String (digitChar u) EmptyString
  | S k' => padDigits k' (u / 10) ++ String (digitChar (u mod 10)) EmptyString
  end.

(** ** Properties of the string functions *)

Lemma string_length_app (s t : string) :
  String.length (s ++ t) = (String.length s + String.length t)%nat.
Proof. induction s as [|c s IH]; simpl; [reflexivity | rewrite IH; reflexivity]. Qed.

Lemma string_append_assoc (s t u : string) : (s ++ t) ++ u = s ++ (t ++ u).
Proof. induction s as [|c s IH]; simpl; [reflexivity | rewrite IH; reflexivity]. Qed.

Lemma prefix_app (p s : string) :
  String.prefix p s = true -> exists rest, s = p ++ rest.
Proof.
  revert s; induction p as [|a p IH]; intros s H.
  - exists s; reflexivity.
  - destruct s as [|b s]; [discriminate|].
    simpl in H; destruct (ascii_dec a b) as [->|]; [|discriminate].
    destruct (IH s H) as [rest ->]; exists rest; reflexivity.
Qed.

Lemma prefix_length (p s : string) :
  String.prefix p s = true -> (String.length p <= String.length s)%nat.
Proof.
  intros H; destruct (prefix_app p s H) as [rest ->].
  rewrite string_length_app; lia.
Qed.

Lemma replaceFrom_length (old new : string) :
  old <> EmptyString ->
  (String.length new <= String.length old)%nat ->
  forall s k,
    (String.length (replaceFrom old new k s) + Nat.min k (String.length s)
     <= String.length s)%nat.
Proof.
  intros Hold Hlen s; induction s as [|c s IH]; intros k.
  - simpl; lia.
  - destruct k as [|k].
    + cbn [replaceFrom].
      destruct (String.prefix old (String c s)) eqn:Hp.
      * apply prefix_length in Hp; simpl in Hp.
        rewrite string_length_app.
        specialize (IH (pred (String.length old))).
        destruct old as [|o old]; [congruence|]; simpl in *; lia.
      * simpl; specialize (IH 0); lia.
    + cbn [replaceFrom]; simpl String.length; specialize (IH k); lia.
Qed.

Lemma Replace_length (s old new : string) :
  old <> EmptyString ->
  (String.length new <= String.length old)%nat ->
  (String.length (Replace s old new) <= String.length s)%nat.
Proof.
  intros H1 H2; unfold Replace.
  pose proof (replaceFrom_length old new H1 H2 s 0); lia.
Qed.

Lemma UnescapeText_length (s : string) :
  (String.length (UnescapeText s) <= String.length s)%nat.
Proof.
  unfold UnescapeText.
  repeat (etransitivity; [apply Replace_length; [discriminate | simpl; lia]|]).
  reflexivity.
Qed.

Lemma decodeDate_short (v : string) :
  (String.length v < 8)%nat -> decodeDate v = (zeroTime, None).
Proof.
  intros H; unfold decodeDate.
  apply Nat.ltb_lt in H; rewrite H; reflexivity.
Qed.

Lemma fixDateKey_DTSTART (rest : string) : fixDateKey ("DTSTART" ++ rest) = "DTSTART".
Proof. destruct rest; reflexivity. Qed.

Lemma fixDateKey_DTEND (rest : string) : fixDateKey ("DTEND" ++ rest) = "DTEND".
Proof.
  destruct rest as [|c1 [|c2 rest]]; reflexivity.
Qed.

(** ** decodeLine never reports io.EOF *)

Lemma decodeLine_err (removeCRLF : bool) (r : string) :
  match decodeLine removeCRLF r with
  | (_, _, err, _) => err = None \/ err = Some ErrBadLine
  end.
Proof.
  unfold decodeLine.
  destruct (lineLoop _ _ _) as [buf r'].
  destruct (SplitN_colon buf) as [[p0 p1]|]; [|right; reflexivity].
  destruct removeCRLF; left; reflexivity.
Qed.

(** ** The order of eventList.Less *)

Lemma Before_true (t u : Time) :
  Before t u = true <->
  (year t < year u
   \/ (year t = year u
       /\ (month t < month u \/ (month t = month u /\ day t < day u))))%Z.
Proof.
  unfold Before.
  rewrite !orb_true_iff, !andb_true_iff, !orb_true_iff, !andb_true_iff,
    !Z.ltb_lt, !Z.eqb_eq.
  tauto.
Qed.

Lemma Before_asym (t u : Time) : Before t u = true -> Before u t = false.
Proof.
  intros H; apply not_true_iff_false; intros H'.
  apply Before_true in H; apply Before_true in H'; lia.
Qed.

Lemma Before_false_trans (a b c : Time) :
  Before b a = false -> Before c b = false -> Before c a = false.
Proof.
  intros H1 H2; apply not_true_iff_false; intros H.
  apply not_true_iff_false in H1; apply not_true_iff_false in H2.
  rewrite Before_true in H, H1, H2; lia.
Qed.

Lemma startOrder_trans (a b c : Event) :
  startOrder a b -> startOrder b c -> startOrder a c.
Proof.
  unfold startOrder; intros [Ha|[Hb Hba]] Hbc; [left; exact Ha|].
  destruct Hbc as [Hb'|[Hc Hcb]]; [congruence|].
  right; split; [exact Hc|]; eapply Before_false_trans; eassumption.
Qed.

Lemma Less_true (x y : Event) : Less x y = true -> startOrder x y.
Proof.
  unfold Less, startOrder; intros H.
  destruct (IsZero (Start x)) eqn:Hx; [left; reflexivity|].
  destruct (IsZero (Start y)) eqn:Hy; [discriminate|].
  right; split; [reflexivity|]; apply Before_asym; exact H.
Qed.

Lemma Less_false (x y : Event) : Less x y = false -> startOrder y x.
Proof.
  unfold Less, startOrder; intros H.
  destruct (IsZero (Start x)) eqn:Hx; [discriminate|].
  destruct (IsZero (Start y)) eqn:Hy; [left; reflexivity|].
  right; split; [reflexivity | exact H].
Qed.

(** ** Facts on Go's sort

    [frame a b l l'] says that [l'] is [l] after swaps inside [[a, b)]. The
    sort is shown to return a permutation of its input, to commute with
    [map] along an order-preserving function, and, for a total preorder
    [le] that [less] decides strictly, to return a list sorted by [le]. *)
Module GoSortFacts.
Import GoSort.
Local Open Scope nat_scope.

Section Basic.
Variable A : Type.
Variable less : A -> A -> bool.

Lemma setNth_length (l : list A) (i : nat) (v : A) : length (setNth A l i v) = length l.
Proof. revert i; induction l as [|h t IH]; intros [|i]; simpl; auto. Qed.

Lemma nth_error_setNth (l : list A) (i : nat) (v : A) (k : nat) :
  i < length l ->
  nth_error (setNth A l i v) k = if k =? i then Some v else nth_error l k.
Proof.
  revert i k; induction l as [|h t IH]; intros [|i] [|k] Hi; simpl in *; try lia; auto.
  apply IH; lia.
Qed.

Lemma swapAt_length (l : list A) (i j : nat) : length (swapAt A l i j) = length l.
Proof.
  unfold swapAt; destruct (nth_error l i), (nth_error l j); auto.
  rewrite !setNth_length; reflexivity.
Qed.

Lemma nth_error_swapAt (l : list A) (i j k : nat) :
  i < length l -> j < length l ->
  nth_error (swapAt A l i j) k
  = if k =? j then nth_error l i else if k =? i then nth_error l j else nth_error l k.
Proof.
  intros Hi Hj; unfold swapAt.
  destruct (nth_error l i) as [x|] eqn:Ex; [|apply nth_error_None in Ex; lia].
  destruct (nth_error l j) as [y|] eqn:Ey; [|apply nth_error_None in Ey; lia].
  rewrite nth_error_setNth by (rewrite setNth_length; exact Hj).
  rewrite nth_error_setNth by exact Hi.
  destruct (k =? j), (k =? i); reflexivity.
Qed.

Lemma swapAt_out (l : list A) (i j : nat) :
  length l <= i \/ length l <= j -> swapAt A l i j = l.
Proof.
  unfold swapAt; intros [H|H].
  - apply nth_error_None in H; rewrite H; reflexivity.
  - apply nth_error_None in H; rewrite H; destruct (nth_error l i); reflexivity.
Qed.

Lemma swapAt_perm (l : list A) (i j : nat) : Permutation (swapAt A l i j) l.
Proof.
  destruct (Nat.lt_ge_cases i (length l)) as [Hi|Hi];
    [|rewrite swapAt_out by lia; reflexivity].
  destruct (Nat.lt_ge_cases j (length l)) as [Hj|Hj];
    [|rewrite swapAt_out by lia; reflexivity].
  symmetry; apply Permutation_nth_error; split; [rewrite swapAt_length; reflexivity|].
  exists (fun k => if k =? j then i else if k =? i then j else k); split.
  - intros x y; destruct (Nat.eqb_spec x j), (Nat.eqb_spec x i),
      (Nat.eqb_spec y j), (Nat.eqb_spec y i); lia.
  - intros k; rewrite nth_error_swapAt by assumption.
    destruct (k =? j), (k =? i); reflexivity.
Qed.

Lemma swapAt_same (l : list A) (i j : nat) :
  nth_error l i = nth_error l j -> swapAt A l i j = l.
Proof.
  intros E.
  destruct (Nat.lt_ge_cases i (length l)) as [Hi|Hi];
    [|rewrite swapAt_out by lia; reflexivity].
  destruct (Nat.lt_ge_cases j (length l)) as [Hj|Hj];
    [|rewrite swapAt_out by lia; reflexivity].
  apply nth_error_ext; intros k; rewrite nth_error_swapAt by assumption.
  destruct (Nat.eqb_spec k j), (Nat.eqb_spec k i); subst; congruence.
Qed.

End Basic.

Section Perm.
Variable A : Type.
Variable less : A -> A -> bool.

Local Ltac perm_swap := etransitivity; [eassumption || idtac | apply swapAt_perm].

Lemma insertionSortInner_perm (j a : nat) (l : list A) :
  Permutation (insertionSortInner A less j a l) l.
Proof.
  revert l; induction j as [|j IH]; intros l; simpl; [reflexivity|].
  destruct ((a <? S j) && lessAt A less l (S j) j); [|reflexivity].
  etransitivity; [apply IH | apply swapAt_perm].
Qed.

Lemma insertionSortOuter_perm (n i a : nat) (l : list A) :
  Permutation (insertionSortOuter A less n i a l) l.
Proof.
  revert i l; induction n as [|n IH]; intros i l; simpl; [reflexivity|].
  etransitivity; [apply IH | apply insertionSortInner_perm].
Qed.

Lemma insertionSort_perm (l : list A) (a b : nat) :
  Permutation (insertionSort A less l a b) l.
Proof. apply insertionSortOuter_perm. Qed.

Lemma siftDown_perm (fuel : nat) (l : list A) (root hi first : nat) :
  Permutation (siftDown A less fuel l root hi first) l.
Proof.
  revert l root; induction fuel as [|fuel IH]; intros l root; simpl; [reflexivity|].
  repeat match goal with |- context [if ?c then _ else _] => destruct c end;
    try reflexivity; (etransitivity; [apply IH | apply swapAt_perm]).
Qed.

Lemma heapify_perm (i : nat) (l : list A) (hi first : nat) :
  Permutation (heapify A less i l hi first) l.
Proof.
  revert l; induction i as [|i IH]; intros l; simpl; [apply siftDown_perm|].
  etransitivity; [apply IH | apply siftDown_perm].
Qed.

Lemma popMax_perm (i : nat) (l : list A) (first : nat) :
  Permutation (popMax A less i l first) l.
Proof.
  revert l; induction i as [|i IH]; intros l; cbn [popMax].
  - etransitivity; [apply siftDown_perm | apply swapAt_perm].
  - etransitivity; [apply IH|].
    etransitivity; [apply siftDown_perm | apply swapAt_perm].
Qed.

Lemma heapSort_perm (l : list A) (a b : nat) : Permutation (heapSort A less l a b) l.
Proof.
  unfold heapSort; destruct (b - a) as [|h].
  - apply heapify_perm.
  - etransitivity; [apply popMax_perm | apply heapify_perm].
Qed.

Lemma fold_perm {S : Type} (f : list A * S -> nat -> list A * S) (is : list nat) (st : list A * S) :
  (forall st i, Permutation (fst (f st i)) (fst st)) ->
  Permutation (fst (fold_left f is st)) (fst st).
Proof.
  intros Hf; revert st; induction is as [|i is IH]; intros st; simpl; [reflexivity|].
  etransitivity; [apply IH | apply Hf].
Qed.

Lemma breakPatterns_perm (l : list A) (a b : nat) :
  Permutation (breakPatterns A l a b) l.
Proof.
  unfold breakPatterns; destruct (8 <=? b - a); [|reflexivity].
  apply (fold_perm _ _ (l, _)); intros [l' r] i; apply swapAt_perm.
Qed.

Lemma reverseLoop_perm (fuel i j : nat) (l : list A) :
  Permutation (reverseLoop A fuel i j l) l.
Proof.
  revert i j l; induction fuel as [|fuel IH]; intros i j l; simpl; [reflexivity|].
  destruct (i <? j); [|reflexivity].
  etransitivity; [apply IH | apply swapAt_perm].
Qed.

Lemma reverseRange_perm (l : list A) (a b : nat) : Permutation (reverseRange A l a b) l.
Proof. apply reverseLoop_perm. Qed.

Lemma shiftLeft_perm (j : nat) (l : list A) : Permutation (shiftLeft A less j l) l.
Proof.
  revert l; induction j as [|j IH]; intros l; simpl; [reflexivity|].
  destruct (negb (lessAt A less l (S j) j)); [reflexivity|].
  etransitivity; [apply IH | apply swapAt_perm].
Qed.

Lemma shiftRight_perm (fuel j b : nat) (l : list A) : Permutation (shiftRight A less fuel j b l) l.
Proof.
  revert j l; induction fuel as [|fuel IH]; intros j l; simpl; [reflexivity|].
  destruct (j <? b); [|reflexivity].
  destruct (negb (lessAt A less l j (j - 1))); [reflexivity|].
  etransitivity; [apply IH | apply swapAt_perm].
Qed.

Lemma partialInsertionSteps_perm (steps : nat) (l : list A) (a b i : nat) :
  Permutation (fst (partialInsertionSteps A less steps l a b i)) l.
Proof.
  revert l i; induction steps as [|steps IH]; intros l i; cbn [partialInsertionSteps fst];
    [reflexivity|].
  match goal with |- context [countUp ?f ?p i] => set (i2 := countUp f p i) end.
  destruct (i2 =? b); [reflexivity|].
  destruct (b - a <? 50); [reflexivity|].
  etransitivity; [apply IH|].
  destruct (2 <=? b - i2); [etransitivity; [apply shiftRight_perm|]|];
    (destruct (2 <=? i2 - a); [etransitivity; [apply shiftLeft_perm|]|]);
    apply swapAt_perm.
Qed.

Lemma partialInsertionSort_perm (l : list A) (a b : nat) :
  Permutation (fst (partialInsertionSort A less l a b)) l.
Proof. apply partialInsertionSteps_perm. Qed.

Lemma partitionLoop_perm (fuel : nat) (l : list A) (i j a : nat) :
  Permutation (fst (partitionLoop A less fuel l i j a)) l.
Proof.
  revert l i j; induction fuel as [|fuel IH]; intros l i j; simpl; [reflexivity|].
  match goal with |- context [if ?c then _ else _] => destruct c end; [reflexivity|].
  etransitivity; [apply IH | apply swapAt_perm].
Qed.

Lemma partition_perm (l : list A) (a b pivot : nat) :
  Permutation (fst (fst (partition A less l a b pivot))) l.
Proof.
  unfold partition; cbv zeta.
  match goal with |- context [if ?c then _ else _] => destruct c end; simpl.
  - etransitivity; apply swapAt_perm.
  - match goal with |- context [partitionLoop A less ?f ?l0 ?i ?j a] =>
      pose proof (partitionLoop_perm f l0 i j a) as HP;
      destruct (partitionLoop A less f l0 i j a) as [l1 j1] end; simpl in *.
    etransitivity; [apply swapAt_perm|].
    etransitivity; [exact HP|].
    etransitivity; apply swapAt_perm.
Qed.

Lemma partitionEqualLoop_perm (fuel : nat) (l : list A) (i j a : nat) :
  Permutation (fst (partitionEqualLoop A less fuel l i j a)) l.
Proof.
  revert l i j; induction fuel as [|fuel IH]; intros l i j; simpl; [reflexivity|].
  match goal with |- context [if ?c then _ else _] => destruct c end; [reflexivity|].
  etransitivity; [apply IH | apply swapAt_perm].
Qed.

Lemma partitionEqual_perm (l : list A) (a b pivot : nat) :
  Permutation (fst (partitionEqual A less l a b pivot)) l.
Proof.
  unfold partitionEqual; etransitivity; [apply partitionEqualLoop_perm | apply swapAt_perm].
Qed.

Lemma pdqsort_perm (fuel : nat) (l : list A) (a b limit : nat) (wb wp : bool) :
  Permutation (pdqsort A less fuel l a b limit wb wp) l.
Proof.
  revert l a b limit wb wp; induction fuel as [|fuel IH]; intros l a b limit wb wp;
    simpl; [reflexivity|].
  destruct (b - a <=? 12); [apply insertionSort_perm|].
  destruct (limit =? 0); [apply heapSort_perm|].
  set (st1 := if negb wb then (breakPatterns A l a b, limit - 1) else (l, limit)).
  assert (H1 : Permutation (fst st1) l)
    by (unfold st1; destruct (negb wb); [apply breakPatterns_perm | reflexivity]).
  clearbody st1; destruct st1 as [l1 limit1]; simpl in H1.
  destruct (choosePivot A less l1 a b) as [pivot hint].
  set (st2 := match hint with
              | decreasingHint => (reverseRange A l1 a b, b - 1 - (pivot - a), increasingHint)
              | _ => (l1, pivot, hint) end).
  assert (H2 : Permutation (fst (fst st2)) l1)
    by (unfold st2; destruct hint; [reflexivity | reflexivity | apply reverseRange_perm]).
  clearbody st2; destruct st2 as [[l2 pivot2] hint2]; simpl in H2.
  set (st3 := if wb && wp && isIncreasing hint2 then partialInsertionSort A less l2 a b
              else (l2, false)).
  assert (H3 : Permutation (fst st3) l2)
    by (unfold st3; destruct (wb && wp && isIncreasing hint2);
        [apply partialInsertionSort_perm | reflexivity]).
  clearbody st3; destruct st3 as [l3 sorted]; simpl in H3.
  assert (H : Permutation l3 l) by (rewrite H3, H2, H1; reflexivity).
  destruct sorted; [exact H|].
  destruct ((0 <? a) && negb (lessAt A less l3 (a - 1) pivot2)).
  - pose proof (partitionEqual_perm l3 a b pivot2) as HE.
    destruct (partitionEqual A less l3 a b pivot2) as [l4 mid]; simpl in HE.
    rewrite IH, HE; exact H.
  - pose proof (partition_perm l3 a b pivot2) as HE.
    destruct (partition A less l3 a b pivot2) as [[l4 mid] ap]; simpl in HE.
    destruct (mid - a <? b - mid); rewrite !IH, HE; exact H.
Qed.

Lemma Sort_perm (l : list A) : Permutation (Sort A less l) l.
Proof.
  unfold Sort; destruct (length l <=? 1); [reflexivity | apply pdqsort_perm].
Qed.

End Perm.

Lemma countUp_ext (fuel : nat) (p q : nat -> bool) (i : nat) :
  (forall k, p k = q k) -> countUp fuel p i = countUp fuel q i.
Proof.
  intros H; revert i; induction fuel as [|fuel IH]; intros i; simpl; [reflexivity|].
  rewrite H; destruct (q i); [apply IH | reflexivity].
Qed.

Lemma countDown_ext (fuel : nat) (p q : nat -> bool) (j : nat) :
  (forall k, p k = q k) -> countDown fuel p j = countDown fuel q j.
Proof.
  intros H; revert j; induction fuel as [|fuel IH]; intros j; simpl; [reflexivity|].
  rewrite H; destruct (q j); [apply IH | reflexivity].
Qed.

Section Map.
Variables A B : Type.
Variable lessA : A -> A -> bool.
Variable lessB : B -> B -> bool.
Variable f : A -> B.
Hypothesis Hf : forall x y, lessB (f x) (f y) = lessA x y.

Lemma lessAt_map (l : list A) (i j : nat) :
  lessAt B lessB (map f l) i j = lessAt A lessA l i j.
Proof.
  unfold lessAt; rewrite !nth_error_map.
  destruct (nth_error l i), (nth_error l j); simpl; auto.
Qed.

Lemma setNth_map (l : list A) (i : nat) (v : A) :
  setNth B (map f l) i (f v) = map f (setNth A l i v).
Proof.
  revert i; induction l as [|h t IH]; intros [|i]; simpl; auto; rewrite IH; reflexivity.
Qed.

Lemma swapAt_map (l : list A) (i j : nat) :
  swapAt B (map f l) i j = map f (swapAt A l i j).
Proof.
  unfold swapAt; rewrite !nth_error_map.
  destruct (nth_error l i), (nth_error l j); simpl; auto.
  rewrite !setNth_map; reflexivity.
Qed.

Lemma insertionSortInner_map (j a : nat) (l : list A) :
  insertionSortInner B lessB j a (map f l) = map f (insertionSortInner A lessA j a l).
Proof.
  revert l; induction j as [|j IH]; intros l; simpl; [reflexivity|].
  rewrite lessAt_map; destruct ((a <? S j) && lessAt A lessA l (S j) j); [|reflexivity].
  rewrite swapAt_map; apply IH.
Qed.

Lemma insertionSortOuter_map (n i a : nat) (l : list A) :
  insertionSortOuter B lessB n i a (map f l) = map f (insertionSortOuter A lessA n i a l).
Proof.
  revert i l; induction n as [|n IH]; intros i l; simpl; [reflexivity|].
  rewrite insertionSortInner_map; apply IH.
Qed.

Lemma insertionSort_map (l : list A) (a b : nat) :
  insertionSort B lessB (map f l) a b = map f (insertionSort A lessA l a b).
Proof. apply insertionSortOuter_map. Qed.

Lemma siftDown_map (fuel : nat) (l : list A) (root hi first : nat) :
  siftDown B lessB fuel (map f l) root hi first = map f (siftDown A lessA fuel l root hi first).
Proof.
  revert l root; induction fuel as [|fuel IH]; intros l root; cbn [siftDown]; [reflexivity|].
  rewrite !lessAt_map.
  repeat match goal with |- context [if ?c then _ else _] =>
    match c with context [map] => fail 1 | _ => destruct c end end;
    try reflexivity; rewrite swapAt_map; apply IH.
Qed.

Lemma heapify_map (i : nat) (l : list A) (hi first : nat) :
  heapify B lessB i (map f l) hi first = map f (heapify A lessA i l hi first).
Proof.
  revert l; induction i as [|i IH]; intros l; cbn [heapify]; rewrite siftDown_map;
    [reflexivity | apply IH].
Qed.

Lemma popMax_map (i : nat) (l : list A) (first : nat) :
  popMax B lessB i (map f l) first = map f (popMax A lessA i l first).
Proof.
  revert l; induction i as [|i IH]; intros l; cbn [popMax]; rewrite swapAt_map, siftDown_map;
    [reflexivity | apply IH].
Qed.

Lemma heapSort_map (l : list A) (a b : nat) :
  heapSort B lessB (map f l) a b = map f (heapSort A lessA l a b).
Proof.
  unfold heapSort; rewrite heapify_map; destruct (b - a); [reflexivity | apply popMax_map].
Qed.

Lemma breakPatterns_map (l : list A) (a b : nat) :
  breakPatterns B (map f l) a b = map f (breakPatterns A l a b).
Proof.
  unfold breakPatterns; destruct (8 <=? b - a); [|reflexivity].
  generalize (Z.of_nat (b - a)) as r0; intros r0.
  generalize ([0; 1; 2]) as is; intros is.
  revert l r0; induction is as [|i is IH]; intros l r0; simpl; [reflexivity|].
  rewrite swapAt_map; apply IH.
Qed.

Lemma order2_map (l : list A) (a b s : nat) :
  order2 B lessB (map f l) a b s = order2 A lessA l a b s.
Proof. unfold order2; rewrite lessAt_map; reflexivity. Qed.

Lemma median_map (l : list A) (a b c s : nat) :
  median B lessB (map f l) a b c s = median A lessA l a b c s.
Proof.
  unfold median; rewrite order2_map.
  destruct (order2 A lessA l a b s) as [[a1 b1] s1]; rewrite order2_map.
  destruct (order2 A lessA l b1 c s1) as [[b2 c2] s2]; rewrite order2_map; reflexivity.
Qed.

Lemma medianAdjacent_map (l : list A) (a s : nat) :
  medianAdjacent B lessB (map f l) a s = medianAdjacent A lessA l a s.
Proof. apply median_map. Qed.

Lemma choosePivot_map (l : list A) (a b : nat) :
  choosePivot B lessB (map f l) a b = choosePivot A lessA l a b.
Proof.
  unfold choosePivot.
  destruct (8 <=? b - a); [|reflexivity].
  destruct (50 <=? b - a); [|rewrite median_map; reflexivity].
  rewrite !medianAdjacent_map.
  destruct (medianAdjacent A lessA l (a + (b - a) / 4 * 1) 0) as [i1 s1].
  rewrite !medianAdjacent_map.
  destruct (medianAdjacent A lessA l (a + (b - a) / 4 * 2) s1) as [j1 s2].
  rewrite !medianAdjacent_map.
  destruct (medianAdjacent A lessA l (a + (b - a) / 4 * 3) s2) as [k1 s3].
  rewrite !median_map; reflexivity.
Qed.

Lemma reverseLoop_map (fuel i j : nat) (l : list A) :
  reverseLoop B fuel i j (map f l) = map f (reverseLoop A fuel i j l).
Proof.
  revert i j l; induction fuel as [|fuel IH]; intros i j l; simpl; [reflexivity|].
  destruct (i <? j); [rewrite swapAt_map; apply IH | reflexivity].
Qed.

Lemma reverseRange_map (l : list A) (a b : nat) :
  reverseRange B (map f l) a b = map f (reverseRange A l a b).
Proof. apply reverseLoop_map. Qed.

Lemma shiftLeft_map (j : nat) (l : list A) :
  shiftLeft B lessB j (map f l) = map f (shiftLeft A lessA j l).
Proof.
  revert l; induction j as [|j IH]; intros l; simpl; [reflexivity|].
  rewrite lessAt_map; destruct (negb (lessAt A lessA l (S j) j)); [reflexivity|].
  rewrite swapAt_map; apply IH.
Qed.

Lemma shiftRight_map (fuel j b : nat) (l : list A) :
  shiftRight B lessB fuel j b (map f l) = map f (shiftRight A lessA fuel j b l).
Proof.
  revert j l; induction fuel as [|fuel IH]; intros j l; simpl; [reflexivity|].
  rewrite lessAt_map; destruct (j <? b); [|reflexivity].
  destruct (negb (lessAt A lessA l j (j - 1))); [reflexivity|].
  rewrite swapAt_map; apply IH.
Qed.

Lemma partialInsertionSteps_map (steps : nat) (l : list A) (a b i : nat) :
  partialInsertionSteps B lessB steps (map f l) a b i
  = (map f (fst (partialInsertionSteps A lessA steps l a b i)),
     snd (partialInsertionSteps A lessA steps l a b i)).
Proof.
  revert l i; induction steps as [|steps IH]; intros l i;
    cbn [partialInsertionSteps fst snd]; [reflexivity|].
  rewrite (countUp_ext _ _ (fun i => (i <? b) && negb (lessAt A lessA l i (i - 1))))
    by (intros k; rewrite lessAt_map; reflexivity).
  set (i2 := countUp (b - i) (fun i => (i <? b) && negb (lessAt A lessA l i (i - 1))) i).
  destruct (i2 =? b); [reflexivity|].
  destruct (b - a <? 50); [reflexivity|].
  rewrite swapAt_map.
  destruct (2 <=? i2 - a); [rewrite shiftLeft_map|];
    (destruct (2 <=? b - i2); [rewrite shiftRight_map|]); apply IH.
Qed.

Lemma partialInsertionSort_map (l : list A) (a b : nat) :
  partialInsertionSort B lessB (map f l) a b
  = (map f (fst (partialInsertionSort A lessA l a b)),
     snd (partialInsertionSort A lessA l a b)).
Proof. apply partialInsertionSteps_map. Qed.

Lemma partitionLoop_map (fuel : nat) (l : list A) (i j a : nat) :
  partitionLoop B lessB fuel (map f l) i j a
  = (map f (fst (partitionLoop A lessA fuel l i j a)), snd (partitionLoop A lessA fuel l i j a)).
Proof.
  revert l i j; induction fuel as [|fuel IH]; intros l i j; cbn [partitionLoop fst snd];
    [reflexivity|].
  rewrite (countUp_ext _ _ (fun i => (i <=? j) && lessAt A lessA l i a))
    by (intros k; rewrite lessAt_map; reflexivity).
  set (i2 := countUp (S j - i) (fun i => (i <=? j) && lessAt A lessA l i a) i).
  rewrite (countDown_ext _ _ (fun j => (i2 <=? j) && negb (lessAt A lessA l j a)))
    by (intros k; rewrite lessAt_map; reflexivity).
  set (j2 := countDown (S j - i2) (fun j => (i2 <=? j) && negb (lessAt A lessA l j a)) j).
  destruct (j2 <? i2); [reflexivity|].
  rewrite swapAt_map; apply IH.
Qed.

Lemma partition_map (l : list A) (a b pivot : nat) :
  partition B lessB (map f l) a b pivot
  = (map f (fst (fst (partition A lessA l a b pivot))),
     snd (fst (partition A lessA l a b pivot)), snd (partition A lessA l a b pivot)).
Proof.
  unfold partition; cbv zeta; rewrite swapAt_map.
  set (l0 := swapAt A l a pivot).
  rewrite (countUp_ext _ _ (fun i => (i <=? b - 1) && lessAt A lessA l0 i a))
    by (intros k; rewrite lessAt_map; reflexivity).
  set (i1 := countUp (S (b - 1) - S a) (fun i => (i <=? b - 1) && lessAt A lessA l0 i a) (S a)).
  rewrite (countDown_ext _ _ (fun j => (i1 <=? j) && negb (lessAt A lessA l0 j a)))
    by (intros k; rewrite lessAt_map; reflexivity).
  set (j1 := countDown (S (b - 1) - i1) (fun j => (i1 <=? j) && negb (lessAt A lessA l0 j a)) (b - 1)).
  destruct (j1 <? i1); [rewrite swapAt_map; reflexivity|].
  rewrite swapAt_map, partitionLoop_map.
  destruct (partitionLoop A lessA (b - a) (swapAt A l0 i1 j1) (S i1) (j1 - 1) a) as [l2 j2].
  simpl; rewrite swapAt_map; reflexivity.
Qed.

Lemma partitionEqualLoop_map (fuel : nat) (l : list A) (i j a : nat) :
  partitionEqualLoop B lessB fuel (map f l) i j a
  = (map f (fst (partitionEqualLoop A lessA fuel l i j a)),
     snd (partitionEqualLoop A lessA fuel l i j a)).
Proof.
  revert l i j; induction fuel as [|fuel IH]; intros l i j; cbn [partitionEqualLoop fst snd];
    [reflexivity|].
  rewrite (countUp_ext _ _ (fun i => (i <=? j) && negb (lessAt A lessA l a i)))
    by (intros k; rewrite lessAt_map; reflexivity).
  set (i2 := countUp (S j - i) (fun i => (i <=? j) && negb (lessAt A lessA l a i)) i).
  rewrite (countDown_ext _ _ (fun j => (i2 <=? j) && lessAt A lessA l a j))
    by (intros k; rewrite lessAt_map; reflexivity).
  set (j2 := countDown (S j - i2) (fun j => (i2 <=? j) && lessAt A lessA l a j) j).
  destruct (j2 <? i2); [reflexivity|].
  rewrite swapAt_map; apply IH.
Qed.

Lemma partitionEqual_map (l : list A) (a b pivot : nat) :
  partitionEqual B lessB (map f l) a b pivot
  = (map f (fst (partitionEqual A lessA l a b pivot)), snd (partitionEqual A lessA l a b pivot)).
Proof. unfold partitionEqual; rewrite swapAt_map; apply partitionEqualLoop_map. Qed.

Lemma pdqsort_map (fuel : nat) (l : list A) (a b limit : nat) (wb wp : bool) :
  pdqsort B lessB fuel (map f l) a b limit wb wp = map f (pdqsort A lessA fuel l a b limit wb wp).
Proof.
  revert l a b limit wb wp; induction fuel as [|fuel IH]; intros l a b limit wb wp;
    cbn [pdqsort]; [reflexivity|].
  destruct (b - a <=? 12); [apply insertionSort_map|].
  destruct (limit =? 0); [apply heapSort_map|].
  rewrite breakPatterns_map.
  destruct (negb wb); cbv iota beta;
    [set (l1 := breakPatterns A l a b) | set (l1 := l)];
    rewrite choosePivot_map; destruct (choosePivot A lessA l1 a b) as [pivot hint];
    destruct hint; cbv iota beta; rewrite ?reverseRange_map;
    match goal with |- context [if ?c then partialInsertionSort _ _ _ _ _ else _] =>
      destruct c end; cbv iota beta; rewrite ?partialInsertionSort_map;
    match goal with
    | |- context [partialInsertionSort A lessA ?l2 a b] =>
        destruct (partialInsertionSort A lessA l2 a b) as [l3 s]; simpl fst; simpl snd;
        destruct s; [reflexivity|]
    | _ => idtac end;
    rewrite lessAt_map;
    match goal with |- context [if (0 <? a) && negb (lessAt A lessA ?l3 (a - 1) ?pv) then _ else _] =>
      destruct ((0 <? a) && negb (lessAt A lessA l3 (a - 1) pv));
      [rewrite partitionEqual_map; destruct (partitionEqual A lessA l3 a b pv) as [l4 mid];
       apply IH
      |rewrite partition_map; destruct (partition A lessA l3 a b pv) as [[l4 mid] ap];
       simpl fst; simpl snd; destruct (mid - a <? b - mid); rewrite !IH; reflexivity]
    end.
Qed.

Lemma Sort_map (l : list A) : Sort B lessB (map f l) = map f (Sort A lessA l).
Proof.
  unfold Sort; rewrite length_map; destruct (length l <=? 1); [reflexivity|].
  apply pdqsort_map.
Qed.

End Map.

Lemma countUp_spec (fuel : nat) (p : nat -> bool) (i : nat) :
  p (i + fuel) = false ->
  i <= countUp fuel p i <= i + fuel /\ p (countUp fuel p i) = false
  /\ (forall k, i <= k < countUp fuel p i -> p k = true).
Proof.
  revert i; induction fuel as [|fuel IH]; intros i H; simpl.
  - rewrite Nat.add_0_r in H; split; [lia|]; split; [exact H|]; intros; lia.
  - destruct (p i) eqn:Hp.
    + destruct (IH (S i)) as [H1 [H2 H3]]; [rewrite <- H; f_equal; lia|].
      split; [lia|]; split; [exact H2|].
      intros k Hk; destruct (Nat.eq_dec k i); [subst; exact Hp | apply H3; lia].
    + split; [lia|]; split; [exact Hp|]; intros; lia.
Qed.

Lemma countDown_spec (fuel : nat) (p : nat -> bool) (j : nat) :
  fuel <= j -> p (j - fuel) = false ->
  j - fuel <= countDown fuel p j <= j /\ p (countDown fuel p j) = false
  /\ (forall k, countDown fuel p j < k <= j -> p k = true).
Proof.
  revert j; induction fuel as [|fuel IH]; intros j Hf H; simpl.
  - rewrite Nat.sub_0_r in H; split; [lia|]; split; [exact H|]; intros; lia.
  - destruct (p j) eqn:Hp.
    + destruct (IH (j - 1)) as [H1 [H2 H3]]; [lia|rewrite <- H; f_equal; lia|].
      split; [lia|]; split; [exact H2|].
      intros k Hk; destruct (Nat.eq_dec k j); [subst; exact Hp | apply H3; lia].
    + split; [lia|]; split; [exact Hp|]; intros; lia.
Qed.

Section Correct.
Variable A : Type.
Variable less : A -> A -> bool.
Variable le : A -> A -> Prop.
Variable d : A.
Hypothesis less_le : forall x y, less x y = true -> le x y.
Hypothesis nless_le : forall x y, less x y = false -> le y x.
Hypothesis le_trans : forall x y z, le x y -> le y z -> le x z.
Hypothesis le_antisym : forall x y, le x y -> le y x -> x = y.

Lemma le_refl (x : A) : le x x.
Proof. destruct (less x x) eqn:H; [apply less_le | apply nless_le]; exact H. Qed.

Lemma nth_swapAt (l : list A) (i j k : nat) :
  i < length l -> j < length l ->
  nth k (swapAt A l i j) d
  = if k =? j then nth i l d else if k =? i then nth j l d else nth k l d.
Proof.
  intros Hi Hj; rewrite <- !nth_default_eq; unfold nth_default.
  rewrite nth_error_swapAt by assumption.
  destruct (k =? j), (k =? i); reflexivity.
Qed.

Lemma lessAt_nth (l : list A) (i j : nat) :
  i < length l -> j < length l -> lessAt A less l i j = less (nth i l d) (nth j l d).
Proof.
  intros Hi Hj; unfold lessAt.
  rewrite (nth_error_nth' l d Hi), (nth_error_nth' l d Hj); reflexivity.
Qed.

(** [frame a b l l']: [l'] is obtained from [l] by swaps inside [a, b). *)
Inductive frame (a b : nat) (l : list A) : list A -> Prop :=
| frame_refl : frame a b l l
| frame_swap (l' : list A) (i j : nat) :
    a <= i < b -> a <= j < b -> frame a b l l' -> frame a b l (swapAt A l' i j).

Lemma frame_trans (a b : nat) (l1 l2 l3 : list A) :
  frame a b l1 l2 -> frame a b l2 l3 -> frame a b l1 l3.
Proof. intros H1 H2; induction H2; [exact H1 | apply frame_swap; auto]. Qed.

Lemma frame_swap1 (a b : nat) (l : list A) (i j : nat) :
  a <= i < b -> a <= j < b -> frame a b l (swapAt A l i j).
Proof. intros; apply frame_swap; auto; apply frame_refl. Qed.

Lemma frame_widen (a b a' b' : nat) (l l' : list A) :
  a' <= a -> b <= b' -> frame a b l l' -> frame a' b' l l'.
Proof.
  intros Ha Hb H; induction H; [apply frame_refl | apply frame_swap; auto; lia].
Qed.

Lemma frame_length (a b : nat) (l l' : list A) : frame a b l l' -> length l' = length l.
Proof. intros H; induction H; [reflexivity | rewrite swapAt_length; exact IHframe]. Qed.

Lemma frame_perm (a b : nat) (l l' : list A) : frame a b l l' -> Permutation l' l.
Proof.
  intros H; induction H; [reflexivity|].
  etransitivity; [apply swapAt_perm | exact IHframe].
Qed.

Lemma nth_swapAt_any (l : list A) (i j k : nat) :
  k <> i -> k <> j -> nth k (swapAt A l i j) d = nth k l d.
Proof.
  intros Hi Hj.
  destruct (Nat.lt_ge_cases i (length l)); [|rewrite swapAt_out by lia; reflexivity].
  destruct (Nat.lt_ge_cases j (length l)); [|rewrite swapAt_out by lia; reflexivity].
  rewrite nth_swapAt by assumption.
  destruct (Nat.eqb_spec k j), (Nat.eqb_spec k i); try lia; reflexivity.
Qed.

Lemma frame_out (a b : nat) (l l' : list A) :
  frame a b l l' -> forall k, k < a \/ b <= k -> nth k l' d = nth k l d.
Proof.
  intros H; induction H; intros k Hk; [reflexivity|].
  rewrite nth_swapAt_any by lia; apply IHframe; exact Hk.
Qed.

Lemma frame_in (a b : nat) (l l' : list A) :
  frame a b l l' -> forall q, a <= q < b -> exists q', a <= q' < b /\ nth q l' d = nth q' l d.
Proof.
  intros H; induction H; intros q Hq; [exists q; split; [exact Hq | reflexivity]|].
  destruct (Nat.lt_ge_cases i (length l')); [|rewrite swapAt_out by lia; apply IHframe; exact Hq].
  destruct (Nat.lt_ge_cases j (length l')); [|rewrite swapAt_out by lia; apply IHframe; exact Hq].
  rewrite nth_swapAt by assumption.
  destruct (Nat.eqb_spec q j); [apply IHframe; lia|].
  destruct (Nat.eqb_spec q i); apply IHframe; lia.
Qed.

Definition segAll (Q : A -> Prop) (l : list A) (a b : nat) : Prop :=
  forall k, a <= k < b -> Q (nth k l d).

Lemma frame_segAll (Q : A -> Prop) (a b : nat) (l l' : list A) :
  frame a b l l' -> segAll Q l a b -> segAll Q l' a b.
Proof.
  intros H HQ k Hk; destruct (frame_in _ _ _ _ H k Hk) as [k' [Hk' ->]]; apply HQ; exact Hk'.
Qed.

Definition sortedRange (l : list A) (a b : nat) : Prop :=
  forall p q, a <= p -> p < q -> q < b -> le (nth p l d) (nth q l d).

Definition Pre (l : list A) (a b : nat) : Prop :=
  forall p q, p < a -> a <= q < b -> le (nth p l d) (nth q l d).

Lemma frame_Pre (a b a' b' : nat) (l l' : list A) :
  a <= a' -> b' <= b -> frame a' b' l l' -> Pre l a b -> Pre l' a b.
Proof.
  intros Ha Hb H HP p q Hp Hq.
  rewrite (frame_out _ _ _ _ H p) by lia.
  destruct (Nat.lt_ge_cases q a'); [rewrite (frame_out _ _ _ _ H q) by lia; apply HP; lia|].
  destruct (Nat.lt_ge_cases q b'); [|rewrite (frame_out _ _ _ _ H q) by lia; apply HP; lia].
  destruct (frame_in _ _ _ _ H q) as [q' [Hq' ->]]; [lia|]; apply HP; lia.
Qed.

Lemma sortedRange_ext (l l' : list A) (a b : nat) :
  (forall k, a <= k < b -> nth k l' d = nth k l d) -> sortedRange l a b -> sortedRange l' a b.
Proof. intros E H p q Hp Hpq Hq; rewrite !E by lia; apply H; lia. Qed.

Lemma sortedRange_frame_out (a b a' b' : nat) (l l' : list A) :
  frame a' b' l l' -> (b <= a' \/ b' <= a) -> sortedRange l a b -> sortedRange l' a b.
Proof.
  intros H Hd; apply sortedRange_ext; intros k Hk; apply (frame_out _ _ _ _ H); lia.
Qed.

Lemma sorted_of_adj (l : list A) (a b : nat) :
  (forall k, a < k < b -> le (nth (k - 1) l d) (nth k l d)) -> sortedRange l a b.
Proof.
  intros H p q Hp Hpq Hq; induction Hpq as [|q Hle IH].
  - specialize (H (S p)); rewrite Nat.sub_succ, Nat.sub_0_r in H; apply H; lia.
  - eapply le_trans; [apply IH; lia|].
    specialize (H (S q)); rewrite Nat.sub_succ, Nat.sub_0_r in H; apply H; lia.
Qed.

Lemma sortedRange_small (l : list A) (a : nat) : sortedRange l a (S a).
Proof. intros p q Hp Hpq Hq; lia. Qed.

Lemma sorted_join (l : list A) (a j J : nat) :
  sortedRange l a j -> sortedRange l (S j) (S J) ->
  (forall p q, a <= p < j -> j < q <= J -> le (nth p l d) (nth q l d)) ->
  (forall q, j < q <= J -> le (nth j l d) (nth q l d)) ->
  (forall p, a <= p < j -> le (nth p l d) (nth j l d)) ->
  sortedRange l a (S J).
Proof.
  intros H1 H2 H3 H4 H5 p q Hp Hpq Hq.
  destruct (Nat.lt_ge_cases p j).
  - destruct (Nat.lt_ge_cases q j); [apply H1; lia|].
    destruct (Nat.eq_dec q j); [subst; apply H5; lia | apply H3; lia].
  - destruct (Nat.eq_dec p j); [subst; apply H4; lia | apply H2; lia].
Qed.

Ltac swap_cases :=
  rewrite ?nth_swapAt by (rewrite ?swapAt_length; lia);
  repeat match goal with |- context [?x =? ?y] =>
    destruct (Nat.eqb_spec x y); try lia end.

Lemma insertionSortInner_gen (a : nat) :
  forall j J l, a <= j <= J -> J < length l ->
  sortedRange l a j -> sortedRange l (S j) (S J) ->
  (forall p q, a <= p < j -> j < q <= J -> le (nth p l d) (nth q l d)) ->
  (forall q, j < q <= J -> le (nth j l d) (nth q l d)) ->
  sortedRange (insertionSortInner A less j a l) a (S J)
  /\ frame a (S j) l (insertionSortInner A less j a l).
Proof.
  induction j as [|j IH]; intros J l Hj HJ H1 H2 H3 H4; simpl.
  - split; [|apply frame_refl].
    apply sorted_join with 0; auto; intros; lia.
  - destruct (Nat.ltb_spec a (S j)) as [Ha|Ha]; simpl.
    2:{ split; [|apply frame_refl]. apply sorted_join with (S j); auto; intros; lia. }
    rewrite lessAt_nth by lia.
    destruct (less (nth (S j) l d) (nth j l d)) eqn:Hl.
    2:{ split; [|apply frame_refl]. apply sorted_join with (S j); auto.
        intros p Hp; apply nless_le in Hl.
        destruct (Nat.eq_dec p j); [subst; exact Hl|].
        apply le_trans with (nth j l d); [apply H1; lia | exact Hl]. }
    set (l' := swapAt A l (S j) j).
    assert (Hlen : length l' = length l) by apply swapAt_length.
    destruct (IH J l') as [R1 R2]; [lia|lia| | | | |].
    + apply sortedRange_ext with l; [|intros p q ? ? ?; apply H1; lia].
      intros k Hk; unfold l'; swap_cases; reflexivity.
    + intros p q Hp Hpq Hq; unfold l'; swap_cases.
      * subst; apply H3; lia.
      * apply H2; lia.
    + intros p q Hp Hq; unfold l'; swap_cases.
      * subst; apply H1; lia.
      * apply H3; lia.
    + intros q Hq; unfold l'; swap_cases.
      * subst; apply less_le; exact Hl.
      * apply H4; lia.
    + split; [exact R1|].
      apply frame_trans with l'; [apply frame_swap1; lia|].
      apply (frame_widen a (S j)); [lia|lia|exact R2].
Qed.

Lemma insertionSortInner_spec (a j : nat) (l : list A) :
  a <= j -> j < length l -> sortedRange l a j ->
  sortedRange (insertionSortInner A less j a l) a (S j)
  /\ frame a (S j) l (insertionSortInner A less j a l).
Proof.
  intros Ha Hj H; apply insertionSortInner_gen; [lia|lia|exact H|intros p q ? ? ?; lia|intros; lia|intros; lia].
Qed.

Lemma insertionSortOuter_spec (a : nat) :
  forall n i l, a < i -> i + n <= length l -> sortedRange l a i ->
  sortedRange (insertionSortOuter A less n i a l) a (i + n)
  /\ frame a (i + n) l (insertionSortOuter A less n i a l).
Proof.
  induction n as [|n IH]; intros i l Hi Hn H; simpl.
  - rewrite Nat.add_0_r; split; [exact H | apply frame_refl].
  - destruct (insertionSortInner_spec a i l) as [S1 F1]; [lia|lia|exact H|].
    destruct (IH (S i) (insertionSortInner A less i a l)) as [S2 F2];
      [lia| rewrite (frame_length _ _ _ _ F1); lia | exact S1 |].
    rewrite <- Nat.add_succ_comm; split; [exact S2|].
    apply frame_trans with (insertionSortInner A less i a l); [|exact F2].
    apply (frame_widen a (S i)); [lia|lia|exact F1].
Qed.

Lemma insertionSort_spec (l : list A) (a b : nat) :
  a <= b -> b <= length l ->
  sortedRange (insertionSort A less l a b) a b /\ frame a b l (insertionSort A less l a b).
Proof.
  intros Hab Hb; unfold insertionSort.
  destruct (Nat.eq_dec a b) as [<-|Hne].
  - replace (a - S a) with 0 by lia; simpl.
    split; [intros p q ? ? ?; lia | apply frame_refl].
  - pose proof (insertionSortOuter_spec a (b - S a) (S a) l) as H.
    replace (S a + (b - S a)) with b in H by lia.
    apply H; [lia|lia|apply sortedRange_small].
Qed.


Definition heap (l : list A) (first lo hi : nat) : Prop :=
  forall p c, (c = 2 * p + 1 \/ c = 2 * p + 2) -> lo <= p -> c < hi ->
  le (nth (first + c) l d) (nth (first + p) l d).

Definition heapEx (l : list A) (first lo hi r : nat) : Prop :=
  forall p c, (c = 2 * p + 1 \/ c = 2 * p + 2) -> lo <= p -> p <> r -> c < hi ->
  le (nth (first + c) l d) (nth (first + p) l d).

Definition heapGP (l : list A) (first lo hi r : nat) : Prop :=
  forall p c, (r = 2 * p + 1 \/ r = 2 * p + 2) -> lo <= p -> (c = 2 * r + 1 \/ c = 2 * r + 2) ->
  c < hi -> le (nth (first + c) l d) (nth (first + p) l d).

Lemma siftDown_spec (first lo hi : nat) :
  forall fuel l r, lo <= r -> hi <= fuel + r -> first + hi <= length l ->
  heapEx l first lo hi r -> heapGP l first lo hi r ->
  heap (siftDown A less fuel l r hi first) first lo hi
  /\ frame first (first + hi) l (siftDown A less fuel l r hi first).
Proof.
  induction fuel as [|fuel IH]; intros l r Hr Hf Hlen HE HG; cbn [siftDown].
  - split; [|apply frame_refl].
    intros p c Hc Hp Hch; destruct (Nat.eq_dec p r); [lia|]; apply HE; auto.
  - destruct (Nat.leb_spec hi (2 * r + 1)).
    { split; [|apply frame_refl].
      intros p c Hc Hp Hch; destruct (Nat.eq_dec p r); [lia|]; apply HE; auto. }
    set (c := if (2 * r + 1 + 1 <? hi) && lessAt A less l (first + (2 * r + 1)) (first + (2 * r + 1) + 1)
              then 2 * r + 1 + 1 else 2 * r + 1).
    assert (Hc : (c = 2 * r + 1 \/ c = 2 * r + 2) /\ c < hi
                 /\ forall c', (c' = 2 * r + 1 \/ c' = 2 * r + 2) -> c' < hi ->
                      le (nth (first + c') l d) (nth (first + c) l d)).
    { unfold c; destruct (Nat.ltb_spec (2 * r + 1 + 1) hi); cbn [andb].
      - rewrite lessAt_nth by lia.
        destruct (less (nth (first + (2 * r + 1)) l d) (nth (first + (2 * r + 1) + 1) l d)) eqn:E.
        + split; [lia|]; split; [lia|].
          replace (first + (2 * r + 1 + 1)) with (first + (2 * r + 1) + 1) by lia.
          intros c' [-> | ->] _; [apply less_le; exact E|].
          replace (first + (2 * r + 2)) with (first + (2 * r + 1) + 1) by lia; apply le_refl.
        + split; [lia|]; split; [lia|].
          intros c' [-> | ->] _; [apply le_refl|].
          replace (first + (2 * r + 2)) with (first + (2 * r + 1) + 1) by lia.
          apply nless_le; exact E.
      - split; [lia|]; split; [lia|].
        intros c' [-> | ->] ?; [apply le_refl | lia]. }
    clearbody c; destruct Hc as [Hc1 [Hc2 Hc3]].
    rewrite lessAt_nth by lia.
    destruct (less (nth (first + r) l d) (nth (first + c) l d)) eqn:Hl; simpl.
    2:{ split; [|apply frame_refl].
        intros p c' Hc' Hp Hch; destruct (Nat.eq_dec p r); [subst p|apply HE; auto].
        apply le_trans with (nth (first + c) l d); [apply Hc3; auto|].
        apply nless_le; exact Hl. }
    set (l' := swapAt A l (first + r) (first + c)).
    assert (Hlen' : length l' = length l) by apply swapAt_length.
    destruct (IH l' c) as [R1 R2]; [lia|lia|lia| | |].
    + intros p c2 Hc2' Hp Hpc Hc2h; unfold l'; swap_cases.
      * apply less_le; exact Hl.
      * apply HG; auto; lia.
      * apply Hc3; lia.
      * apply HE; auto; lia.
    + intros p c2 Hcp Hp Hcc2 Hc2h; unfold l'.
      assert (p = r) by lia; subst p.
      swap_cases.
      apply HE; auto; lia.
    + split; [exact R1|].
      apply frame_trans with l'; [apply frame_swap1; lia | exact R2].
Qed.

Lemma heapify_spec (first hi : nat) :
  forall i l, first + hi <= length l -> heap l first (S i) hi ->
  heap (heapify A less i l hi first) first 0 hi
  /\ frame first (first + hi) l (heapify A less i l hi first).
Proof.
  induction i as [|i IH]; intros l Hlen H; cbn [heapify].
  - apply siftDown_spec; [lia|lia|exact Hlen| |].
    + intros p c Hc Hp Hpr Hch; apply H; auto; lia.
    + intros p c Hr; lia.
  - destruct (siftDown_spec first (S i) hi hi l (S i)) as [H1 F1]; [lia|lia|exact Hlen| | |].
    + intros p c Hc Hp Hpr Hch; apply H; auto; lia.
    + intros p c Hr; lia.
    + destruct (IH (siftDown A less hi l (S i) hi first)) as [H2 F2];
        [rewrite (frame_length _ _ _ _ F1); exact Hlen | exact H1 |].
      split; [exact H2 | apply frame_trans with (siftDown A less hi l (S i) hi first); auto].
Qed.

Lemma heap_root_max (l : list A) (first n : nat) :
  heap l first 0 n -> forall k, k < n -> le (nth (first + k) l d) (nth first l d).
Proof.
  intros H k; induction k as [k IH] using lt_wf_ind; intros Hk.
  destruct k as [|k]; [rewrite Nat.add_0_r; apply le_refl|].
  pose proof (Nat.div_mod k 2) as Hdm; pose proof (Nat.mod_upper_bound k 2) as Hmu.
  set (p := k / 2) in *; set (m := k mod 2) in *.
  apply le_trans with (nth (first + p) l d).
  - apply H; lia.
  - apply IH; lia.
Qed.

Definition heapCross (l : list A) (first n hi : nat) : Prop :=
  forall p q, p < n -> first + n <= q < first + hi -> le (nth (first + p) l d) (nth q l d).

Lemma popStep_spec (first hi i : nat) (l : list A) :
  S i <= hi -> first + hi <= length l -> heap l first 0 (S i) ->
  sortedRange l (first + S i) (first + hi) -> heapCross l first (S i) hi ->
  let l2 := siftDown A less i (swapAt A l first (first + i)) 0 i first in
  heap l2 first 0 i /\ sortedRange l2 (first + i) (first + hi) /\ heapCross l2 first i hi
  /\ frame first (first + S i) l l2.
Proof.
  intros Hi Hlen H HS HC l2.
  set (l1 := swapAt A l first (first + i)) in l2.
  assert (Hlen1 : length l1 = length l) by apply swapAt_length.
  destruct (siftDown_spec first 0 i i l1 0) as [H2 F2]; [lia|lia|lia| | |].
  - intros p c Hc Hp Hp0 Hch; unfold l1; swap_cases; apply H; auto; lia.
  - intros p c Hr; lia.
  - fold l2 in H2, F2.
    assert (Eout : forall q, first + i <= q -> nth q l2 d = nth q l1 d)
      by (intros q Hq; apply (frame_out _ _ _ _ F2); lia).
    split; [exact H2|]; split; [|split].
    + apply sortedRange_ext with l1; [intros k Hk; apply Eout; lia|].
      intros p q Hp Hpq Hq; unfold l1; swap_cases.
      * subst; pose proof (HC 0 q) as X; rewrite Nat.add_0_r in X; apply X; lia.
      * apply HS; lia.
    + intros p q Hp Hq.
      destruct (frame_in _ _ _ _ F2 (first + p)) as [p' [Hp' ->]]; [lia|].
      rewrite Eout by lia.
      assert (Hroot : forall k, k < S i -> le (nth (first + k) l d) (nth first l d))
        by (apply heap_root_max; exact H).
      unfold l1; swap_cases.
      * apply Hroot; lia.
      * apply (HC i q); lia.
      * replace p' with (first + (p' - first)) by lia; apply Hroot; lia.
      * replace p' with (first + (p' - first)) by lia; apply (HC (p' - first) q); lia.
    + apply frame_trans with l1; [apply frame_swap1; lia|].
      apply (frame_widen first (first + i)); [lia|lia|exact F2].
Qed.

Lemma popMax_spec (first hi : nat) :
  forall i l, S i <= hi -> first + hi <= length l -> heap l first 0 (S i) ->
  sortedRange l (first + S i) (first + hi) -> heapCross l first (S i) hi ->
  sortedRange (popMax A less i l first) first (first + hi)
  /\ frame first (first + hi) l (popMax A less i l first).
Proof.
  induction i as [|i IH]; intros l Hi Hlen H HS HC; cbn [popMax];
    destruct (popStep_spec first hi _ l Hi Hlen H HS HC) as [H2 [S2 [C2 F2]]].
  - rewrite !Nat.add_0_r in *; split; [exact S2|].
    apply (frame_widen first (first + 1)); [lia|lia|exact F2].
  - set (l2 := siftDown A less (S i) (swapAt A l first (first + S i)) 0 (S i) first) in *.
    destruct (IH l2) as [R1 R2]; [lia|rewrite (frame_length _ _ _ _ F2); lia|exact H2|exact S2|exact C2|].
    split; [exact R1|]; apply frame_trans with l2; [|exact R2].
    apply (frame_widen first (first + S (S i))); [lia|lia|exact F2].
Qed.

Lemma heapSort_spec (l : list A) (a b : nat) :
  a <= b -> b <= length l ->
  sortedRange (heapSort A less l a b) a b /\ frame a b l (heapSort A less l a b).
Proof.
  intros Hab Hb; unfold heapSort; cbv zeta.
  assert (Eb : b = a + (b - a)) by lia.
  destruct (heapify_spec a (b - a) ((b - a - 1) / 2) l) as [H1 F1]; [lia| |].
  - intros p c Hc Hp Hch.
    pose proof (Nat.div_mod (b - a - 1) 2) as Hdm.
    pose proof (Nat.mod_upper_bound (b - a - 1) 2) as Hmu.
    set (q := (b - a - 1) / 2) in *; set (m := (b - a - 1) mod 2) in *; lia.
  - rewrite <- Eb in F1.
    set (l1 := heapify A less ((b - a - 1) / 2) l (b - a) a) in *; clearbody l1.
    destruct (b - a) as [|h] eqn:E.
    + split; [intros p q ? ? ?; lia | exact F1].
    + destruct (popMax_spec a (S h) h l1) as [R1 R2];
        [lia | rewrite (frame_length _ _ _ _ F1); lia | exact H1
        | intros p q ? ? ?; lia | intros p q ? ?; lia |].
      rewrite <- Eb in R1, R2; split; [exact R1|].
      apply frame_trans with l1; auto.
Qed.


Lemma fold_frame {S : Type} (a b : nat) (f : list A * S -> nat -> list A * S)
    (is : list nat) (st : list A * S) :
  (forall st i, In i is -> frame a b (fst st) (fst (f st i))) ->
  frame a b (fst st) (fst (fold_left f is st)).
Proof.
  revert st; induction is as [|i is IH]; intros st H; simpl; [apply frame_refl|].
  apply frame_trans with (fst (f st i)); [apply H; left; reflexivity|].
  apply IH; intros st' i' Hi'; apply H; right; exact Hi'.
Qed.

Lemma land_mask_lt (r : Z) (k : nat) :
  Z.to_nat (Z.land r (Z.of_nat (2 ^ k) - 1)) < 2 ^ k.
Proof.
  rewrite Nat2Z.inj_pow.
  replace (Z.of_nat 2 ^ Z.of_nat k - 1)%Z with (Z.ones (Z.of_nat k))
    by (rewrite Z.ones_equiv; simpl; lia).
  rewrite Z.land_ones by lia.
  assert (Hp : (0 < 2 ^ Z.of_nat k)%Z) by (apply Z.pow_pos_nonneg; lia).
  pose proof (Z.mod_pos_bound r (2 ^ Z.of_nat k) Hp) as Hb.
  apply Nat2Z.inj_lt; rewrite Z2Nat.id by lia; rewrite Nat2Z.inj_pow; simpl; lia.
Qed.

Lemma nextPowerOfTwo_le (n : nat) : 1 <= n -> nextPowerOfTwo n <= 2 * n.
Proof.
  intros Hn; unfold nextPowerOfTwo, bitsLen.
  destruct n as [|n]; [lia|].
  pose proof (Nat.log2_spec (S n)) as [H1 H2]; [lia|].
  rewrite Nat.pow_succ_r'; lia.
Qed.

Lemma breakPatterns_frame (l : list A) (a b : nat) :
  a <= b -> frame a b l (breakPatterns A l a b).
Proof.
  intros Hab; unfold breakPatterns.
  destruct (Nat.leb_spec 8 (b - a)) as [H8|H8]; [|apply frame_refl].
  apply (fold_frame a b _ _ (l, _)).
  intros [l' r] i Hi; cbn [fst].
  pose proof (Nat.div_mod (b - a) 4) as Hdm; pose proof (Nat.mod_upper_bound (b - a) 4) as Hmu.
  assert (Hi2 : i <= 2) by (simpl in Hi; lia).
  pose proof (land_mask_lt (xorshiftNext r) (bitsLen (b - a))) as Hm.
  pose proof (nextPowerOfTwo_le (b - a)) as Hp; unfold nextPowerOfTwo in Hp.
  unfold nextPowerOfTwo.
  set (o := Z.to_nat (Z.land (xorshiftNext r) (Z.of_nat (2 ^ bitsLen (b - a)) - 1))) in *.
  apply frame_swap1; [|destruct (Nat.leb_spec (b - a) o); cbv iota];
    set (q := (b - a) / 4) in *; set (m := (b - a) mod 4) in *; lia.
Qed.

Lemma median_in (l : list A) (x y z s : nat) :
  fst (median A less l x y z s) = x \/ fst (median A less l x y z s) = y
  \/ fst (median A less l x y z s) = z.
Proof.
  unfold median, order2.
  destruct (lessAt A less l y x); cbv beta iota;
    (destruct (lessAt A less l z _); cbv beta iota);
    (destruct (lessAt A less l _ _); cbv beta iota); simpl; tauto.
Qed.

Lemma choosePivot_range (l : list A) (a b : nat) :
  a + 12 < b -> a <= fst (choosePivot A less l a b) < b.
Proof.
  intros Hab; unfold choosePivot; cbv zeta.
  pose proof (Nat.div_mod (b - a) 4) as Hdm; pose proof (Nat.mod_upper_bound (b - a) 4) as Hmu.
  destruct (Nat.leb_spec 8 (b - a)) as [H8|H8]; [|lia].
  destruct (Nat.leb_spec 50 (b - a)) as [H50|H50].
  - unfold medianAdjacent.
    destruct (median A less l (a + (b - a) / 4 * 1 - 1) (a + (b - a) / 4 * 1)
                (a + (b - a) / 4 * 1 + 1) 0) as [i1 s1] eqn:E1.
    pose proof (median_in l (a + (b - a) / 4 * 1 - 1) (a + (b - a) / 4 * 1)
                (a + (b - a) / 4 * 1 + 1) 0) as M1; rewrite E1 in M1; cbn [fst] in M1.
    destruct (median A less l (a + (b - a) / 4 * 2 - 1) (a + (b - a) / 4 * 2)
                (a + (b - a) / 4 * 2 + 1) s1) as [j1 s2] eqn:E2.
    pose proof (median_in l (a + (b - a) / 4 * 2 - 1) (a + (b - a) / 4 * 2)
                (a + (b - a) / 4 * 2 + 1) s1) as M2; rewrite E2 in M2; cbn [fst] in M2.
    destruct (median A less l (a + (b - a) / 4 * 3 - 1) (a + (b - a) / 4 * 3)
                (a + (b - a) / 4 * 3 + 1) s2) as [k1 s3] eqn:E3.
    pose proof (median_in l (a + (b - a) / 4 * 3 - 1) (a + (b - a) / 4 * 3)
                (a + (b - a) / 4 * 3 + 1) s2) as M3; rewrite E3 in M3; cbn [fst] in M3.
    destruct (median A less l i1 j1 k1 s3) as [j s] eqn:E4.
    pose proof (median_in l i1 j1 k1 s3) as M4; rewrite E4 in M4; cbn [fst] in M4.
    destruct s as [|[|[|[|[|[|[|[|[|[|[|[|[|s]]]]]]]]]]]]]; cbn [fst];
      set (q := (b - a) / 4) in *; set (m := (b - a) mod 4) in *; lia.
  - destruct (median A less l (a + (b - a) / 4 * 1) (a + (b - a) / 4 * 2)
                (a + (b - a) / 4 * 3) 0) as [j s] eqn:E4.
    pose proof (median_in l (a + (b - a) / 4 * 1) (a + (b - a) / 4 * 2)
                (a + (b - a) / 4 * 3) 0) as M4; rewrite E4 in M4; cbn [fst] in M4.
    destruct s as [|[|[|[|[|[|[|[|[|[|[|[|[|s]]]]]]]]]]]]]; cbn [fst];
      set (q := (b - a) / 4) in *; set (m := (b - a) mod 4) in *; lia.
Qed.

Lemma reverseLoop_frame (a b : nat) :
  forall fuel i j l, a <= i -> j < b -> frame a b l (reverseLoop A fuel i j l).
Proof.
  induction fuel as [|fuel IH]; intros i j l Hi Hj; simpl; [apply frame_refl|].
  destruct (Nat.ltb_spec i j); [|apply frame_refl].
  apply frame_trans with (swapAt A l i j); [apply frame_swap1; lia | apply IH; lia].
Qed.

Lemma reverseRange_frame (l : list A) (a b : nat) :
  a < b -> frame a b l (reverseRange A l a b).
Proof. intros H; apply reverseLoop_frame; lia. Qed.

Lemma shiftRight_frame (lo b : nat) :
  forall fuel j l, lo < j -> frame lo b l (shiftRight A less fuel j b l).
Proof.
  induction fuel as [|fuel IH]; intros j l Hj; simpl; [apply frame_refl|].
  destruct (Nat.ltb_spec j b); [|apply frame_refl].
  destruct (negb (lessAt A less l j (j - 1))); [apply frame_refl|].
  apply frame_trans with (swapAt A l j (j - 1)); [apply frame_swap1; lia | apply IH; lia].
Qed.

Lemma lessAt_out (l : list A) (i j : nat) : length l <= i -> lessAt A less l i j = false.
Proof. intros H; unfold lessAt; apply nth_error_None in H; rewrite H; reflexivity. Qed.

Lemma shiftLeft_id :
  forall j l, (forall p, p < j -> le (nth p l d) (nth j l d)) -> shiftLeft A less j l = l.
Proof.
  induction j as [|j IH]; intros l H; simpl; [reflexivity|].
  destruct (Nat.lt_ge_cases (S j) (length l)) as [Hj|Hj];
    [|rewrite lessAt_out by exact Hj; reflexivity].
  rewrite lessAt_nth by lia.
  destruct (less (nth (S j) l d) (nth j l d)) eqn:Hl; simpl; [|reflexivity].
  assert (Eq : nth (S j) l d = nth j l d)
    by (apply le_antisym; [apply less_le; exact Hl | apply H; lia]).
  rewrite swapAt_same by (rewrite !(nth_error_nth' l d) by lia; rewrite Eq; reflexivity).
  apply IH; intros p Hp; rewrite <- Eq; apply H; lia.
Qed.

Lemma shiftLeft_inner (a b : nat) :
  forall j l, a <= j -> j < b -> b <= length l -> Pre l a b ->
  shiftLeft A less j l = insertionSortInner A less j a l.
Proof.
  induction j as [|j IH]; intros l Ha Hj Hb HP; simpl; [reflexivity|].
  destruct (Nat.ltb_spec a (S j)); simpl.
  - destruct (lessAt A less l (S j) j); simpl; [|reflexivity].
    apply IH; [lia|lia|rewrite swapAt_length; lia|].
    apply (frame_Pre a b a b l); [lia|lia|apply frame_swap1; lia|exact HP].
  - assert (a = S j) by lia; subst a.
    transitivity (shiftLeft A less (S j) l); [reflexivity|].
    apply shiftLeft_id; intros p Hp; apply HP; lia.
Qed.

Lemma pis_spec (a b : nat) :
  forall steps l i, b <= length l -> a < i <= b -> Pre l a b -> sortedRange l a i ->
  frame a b l (fst (partialInsertionSteps A less steps l a b i))
  /\ (snd (partialInsertionSteps A less steps l a b i) = true ->
      sortedRange (fst (partialInsertionSteps A less steps l a b i)) a b).
Proof.
  induction steps as [|steps IH]; intros l i Hb Hi HP HS; cbn [partialInsertionSteps].
  { split; [apply frame_refl | discriminate]. }
  set (i2 := countUp (b - i) (fun i => (i <? b) && negb (lessAt A less l i (i - 1))) i).
  destruct (countUp_spec (b - i) (fun i => (i <? b) && negb (lessAt A less l i (i - 1))) i)
    as [C1 [C2 C3]];
    [replace (i + (b - i)) with b by lia; rewrite Nat.ltb_irrefl; reflexivity|].
  fold i2 in C1, C2, C3.
  assert (HS2 : sortedRange l a i2).
  { apply sorted_of_adj; intros k Hk.
    destruct (Nat.lt_ge_cases k i).
    - apply HS; lia.
    - specialize (C3 k ltac:(lia)); apply andb_prop in C3 as [_ C3].
      rewrite lessAt_nth in C3 by lia; apply negb_true_iff in C3.
      apply nless_le; exact C3. }
  destruct (Nat.eqb_spec i2 b) as [E|E]; cbn [fst snd].
  { rewrite E in HS2; split; [apply frame_refl | intros _; exact HS2]. }
  destruct (Nat.ltb_spec (b - a) 50); cbn [fst snd].
  { split; [apply frame_refl | discriminate]. }
  set (l1 := swapAt A l i2 (i2 - 1)).
  assert (F1 : frame a b l l1) by (apply frame_swap1; lia).
  assert (Hl1 : length l1 = length l) by apply swapAt_length.
  assert (X2 : exists l2, (if 2 <=? i2 - a then shiftLeft A less (i2 - 1) l1 else l1) = l2
                          /\ frame a i2 l1 l2 /\ sortedRange l2 a i2).
  { destruct (Nat.leb_spec 2 (i2 - a)).
    - rewrite (shiftLeft_inner a b) by
        (first [lia | apply (frame_Pre a b a b l); [lia|lia|exact F1|exact HP]]).
      destruct (insertionSortInner_spec a (i2 - 1) l1) as [S2 F2]; [lia|lia| |].
      + apply sortedRange_ext with l; [|intros p q ? ? ?; apply HS2; lia].
        intros k Hk; apply nth_swapAt_any; lia.
      + replace (S (i2 - 1)) with i2 in S2, F2 by lia.
        eexists; split; [reflexivity|]; split; assumption.
    - exists l1; split; [reflexivity|]; split; [apply frame_refl|].
      replace i2 with (S a) by lia; apply sortedRange_small. }
  destruct X2 as [l2 [E2 [F2 S2]]]; rewrite E2.
  assert (X3 : exists l3, (if 2 <=? b - i2 then shiftRight A less (b - i2) (S i2) b l2 else l2) = l3
                          /\ frame i2 b l2 l3).
  { destruct (Nat.leb_spec 2 (b - i2)).
    - eexists; split; [reflexivity | apply shiftRight_frame; lia].
    - eexists; split; [reflexivity | apply frame_refl]. }
  destruct X3 as [l3 [E3 F3]]; rewrite E3.
  assert (F13 : frame a b l l3).
  { apply frame_trans with l1; [exact F1|].
    apply frame_trans with l2; [apply (frame_widen a i2); [lia|lia|exact F2]|].
    apply (frame_widen i2 b); [lia|lia|exact F3]. }
  destruct (IH l3 i2) as [R1 R2].
  - rewrite (frame_length _ _ _ _ F13); exact Hb.
  - lia.
  - apply (frame_Pre a b a b l); [lia|lia|exact F13|exact HP].
  - apply (sortedRange_frame_out a i2 i2 b l2); [exact F3|lia|exact S2].
  - split; [apply frame_trans with l3; assumption | exact R2].
Qed.

Lemma partialInsertionSort_spec (l : list A) (a b : nat) :
  a < b -> b <= length l -> Pre l a b ->
  frame a b l (fst (partialInsertionSort A less l a b))
  /\ (snd (partialInsertionSort A less l a b) = true ->
      sortedRange (fst (partialInsertionSort A less l a b)) a b).
Proof.
  intros Hab Hb HP; apply pis_spec; [exact Hb|lia|exact HP|apply sortedRange_small].
Qed.

Definition scanInv (T : A -> bool) (a b : nat) (l0 l : list A) (i j : nat) : Prop :=
  frame (S a) b l0 l /\ S a <= i /\ i <= S j /\ j < b
  /\ (forall k, S a <= k < i -> T (nth k l d) = true)
  /\ (forall k, j < k < b -> T (nth k l d) = false).

Lemma scan_step (T : A -> bool) (a b : nat) (l0 l : list A) (i j : nat) (U V : nat -> bool) :
  b <= length l0 -> scanInv T a b l0 l i j ->
  (forall k, S a <= k <= j -> U k = T (nth k l d)) ->
  (forall k, S a <= k <= j -> V k = negb (T (nth k l d))) ->
  forall i' j', i' = countUp (S j - i) (fun k => (k <=? j) && U k) i ->
  j' = countDown (S j - i') (fun k => (i' <=? k) && V k) j ->
  (j' < i' /\ i' = S j' /\ scanInv T a b l0 l i' j')
  \/ (i' < j' /\ S (S (S (j' - 1) - S i')) <= S j - i
      /\ scanInv T a b l0 (swapAt A l i' j') (S i') (j' - 1)).
Proof.
  intros Hb [F [H1 [H2 [H3 [H4 H5]]]]] HU HV i' j' Ei Ej.
  assert (Hlen : length l = length l0) by exact (frame_length _ _ _ _ F).
  destruct (countUp_spec (S j - i) (fun k => (k <=? j) && U k) i) as [C1 [C2 C3]].
  { replace (i + (S j - i)) with (S j) by lia.
    rewrite (proj2 (Nat.leb_nle (S j) j)) by lia; reflexivity. }
  rewrite <- Ei in C1, C2, C3.
  destruct (countDown_spec (S j - i') (fun k => (i' <=? k) && V k) j) as [D1 [D2 D3]]; [lia| |].
  { replace (j - (S j - i')) with (i' - 1) by lia.
    rewrite (proj2 (Nat.leb_nle i' (i' - 1))) by lia; reflexivity. }
  rewrite <- Ej in D1, D2, D3.
  assert (TL : forall k, S a <= k < i' -> T (nth k l d) = true).
  { intros k Hk; destruct (Nat.lt_ge_cases k i); [apply H4; lia|].
    specialize (C3 k ltac:(lia)); apply andb_prop in C3 as [C3a C3b].
    apply Nat.leb_le in C3a; rewrite <- HU by lia; exact C3b. }
  assert (TR : forall k, j' < k < b -> T (nth k l d) = false).
  { intros k Hk; destruct (Nat.lt_ge_cases j k); [apply H5; lia|].
    specialize (D3 k ltac:(lia)); apply andb_prop in D3 as [D3a D3b].
    apply Nat.leb_le in D3a; rewrite HV in D3b by lia.
    apply negb_true_iff in D3b; exact D3b. }
  destruct (Nat.lt_ge_cases j' i') as [Hlt|Hge].
  - left; split; [exact Hlt|]; split; [lia|].
    unfold scanInv; split; [exact F|]; split; [lia|]; split; [lia|]; split; [lia|].
    split; assumption.
  - right.
    assert (Ti : T (nth i' l d) = false).
    { apply andb_false_iff in C2 as [C2|C2]; [apply Nat.leb_nle in C2; lia|].
      rewrite <- HU by lia; exact C2. }
    assert (Tj : T (nth j' l d) = true).
    { apply andb_false_iff in D2 as [D2|D2]; [apply Nat.leb_nle in D2; lia|].
      rewrite HV in D2 by lia; apply negb_false_iff in D2; exact D2. }
    assert (Hne : i' < j') by (destruct (Nat.eq_dec i' j') as [e|e]; [rewrite e in Ti; congruence | lia]).
    split; [exact Hne|]; split; [lia|].
    unfold scanInv.
    split; [apply frame_trans with l; [exact F | apply frame_swap1; lia]|].
    split; [lia|]; split; [lia|]; split; [lia|]; split.
    + intros k Hk; rewrite nth_swapAt by lia.
      destruct (Nat.eqb_spec k j'); [lia|].
      destruct (Nat.eqb_spec k i'); [exact Tj | apply TL; lia].
    + intros k Hk; rewrite nth_swapAt by lia.
      destruct (Nat.eqb_spec k j'); [exact Ti|].
      destruct (Nat.eqb_spec k i'); [lia | apply TR; lia].
Qed.

Lemma partitionLoop_spec (a b : nat) (l0 : list A) :
  b <= length l0 ->
  forall fuel l i j, scanInv (fun x => less x (nth a l0 d)) a b l0 l i j -> S j - i < fuel ->
  scanInv (fun x => less x (nth a l0 d)) a b l0 (fst (partitionLoop A less fuel l i j a))
    (S (snd (partitionLoop A less fuel l i j a))) (snd (partitionLoop A less fuel l i j a)).
Proof.
  intros Hb; induction fuel as [|fuel IH]; intros l i j HI Hf; [lia|]; cbn [partitionLoop].
  assert (Ea : nth a l d = nth a l0 d) by (apply (frame_out _ _ _ _ (proj1 HI)); lia).
  assert (Hlen : length l = length l0) by exact (frame_length _ _ _ _ (proj1 HI)).
  set (i' := countUp (S j - i) (fun i => (i <=? j) && lessAt A less l i a) i).
  set (j' := countDown (S j - i') (fun j => (i' <=? j) && negb (lessAt A less l j a)) j).
  destruct (scan_step (fun x => less x (nth a l0 d)) a b l0 l i j
              (fun k => lessAt A less l k a) (fun k => negb (lessAt A less l k a)) Hb HI)
    with (i' := i') (j' := j') as [[Hlt [Hi' HI']] | [Hlt [Hm HI']]];
    [intros k Hk; rewrite lessAt_nth, Ea by (destruct HI as [_ [_ [_ [? _]]]]; lia); reflexivity
    |intros k Hk; rewrite lessAt_nth, Ea by (destruct HI as [_ [_ [_ [? _]]]]; lia); reflexivity
    |reflexivity|reflexivity| |].
  - destruct (Nat.ltb_spec j' i'); [|lia]; cbn [fst snd].
    rewrite Hi' in HI'; exact HI'.
  - destruct (Nat.ltb_spec j' i'); [lia|].
    apply IH; [exact HI'|lia].
Qed.

Lemma partition_finish (a b : nat) (l0 l : list A) (j : nat) (T : A -> bool) :
  b <= length l0 -> scanInv T a b l0 l (S j) j ->
  (forall x, T x = true -> le x (nth a l0 d)) -> (forall x, T x = false -> le (nth a l0 d) x) ->
  frame a b l0 (swapAt A l j a) /\ a <= j < b
  /\ nth j (swapAt A l j a) d = nth a l0 d
  /\ (forall k, a <= k < j -> le (nth k (swapAt A l j a) d) (nth a l0 d))
  /\ (forall k, j < k < b -> le (nth a l0 d) (nth k (swapAt A l j a) d)).
Proof.
  intros Hb [F [H1 [H2 [H3 [H4 H5]]]]] HT HF.
  assert (Ea : nth a l d = nth a l0 d) by (apply (frame_out _ _ _ _ F); lia).
  assert (Hlen : length l = length l0) by exact (frame_length _ _ _ _ F).
  split; [apply frame_trans with l; [apply (frame_widen (S a) b); [lia|lia|exact F]
                                    | apply frame_swap1; lia]|].
  split; [lia|]; split; [|split].
  - rewrite nth_swapAt by lia; rewrite Nat.eqb_refl.
    destruct (Nat.eqb_spec j a); [subst; exact Ea | exact Ea].
  - intros k Hk; rewrite nth_swapAt by lia.
    destruct (Nat.eqb_spec k a); [|destruct (Nat.eqb_spec k j); [lia|]].
    + apply HT, H4; lia.
    + apply HT, H4; lia.
  - intros k Hk; rewrite nth_swapAt by lia.
    destruct (Nat.eqb_spec k a); [lia|]; destruct (Nat.eqb_spec k j); [lia|].
    apply HF, H5; lia.
Qed.

Lemma partition_spec (l : list A) (a b pivot : nat) :
  a < b -> b <= length l -> a <= pivot < b ->
  frame a b l (fst (fst (partition A less l a b pivot)))
  /\ a <= snd (fst (partition A less l a b pivot)) < b
  /\ nth (snd (fst (partition A less l a b pivot))) (fst (fst (partition A less l a b pivot))) d
     = nth pivot l d
  /\ (forall k, a <= k < snd (fst (partition A less l a b pivot)) ->
        le (nth k (fst (fst (partition A less l a b pivot))) d) (nth pivot l d))
  /\ (forall k, snd (fst (partition A less l a b pivot)) < k < b ->
        le (nth pivot l d) (nth k (fst (fst (partition A less l a b pivot))) d)).
Proof.
  intros Hab Hb Hp; unfold partition; cbv zeta.
  set (l0 := swapAt A l a pivot).
  assert (F0 : frame a b l l0) by (apply frame_swap1; lia).
  assert (Hl0 : length l0 = length l) by apply swapAt_length.
  assert (Ep : nth a l0 d = nth pivot l d).
  { unfold l0; rewrite nth_swapAt by lia.
    destruct (Nat.eqb_spec a pivot); [subst; reflexivity|]; rewrite Nat.eqb_refl; reflexivity. }
  rewrite <- Ep.
  set (T := fun x => less x (nth a l0 d)).
  assert (HT : forall x, T x = true -> le x (nth a l0 d)) by (intros x; apply less_le).
  assert (HF : forall x, T x = false -> le (nth a l0 d) x) by (intros x; apply nless_le).
  assert (HI : scanInv T a b l0 l0 (S a) (b - 1)).
  { unfold scanInv; split; [apply frame_refl|]; split; [lia|]; split; [lia|]; split; [lia|].
    split; intros; lia. }
  set (i1 := countUp (S (b - 1) - S a) (fun i => (i <=? b - 1) && lessAt A less l0 i a) (S a)).
  set (j1 := countDown (S (b - 1) - i1) (fun j => (i1 <=? j) && negb (lessAt A less l0 j a)) (b - 1)).
  destruct (scan_step T a b l0 l0 (S a) (b - 1)
              (fun k => lessAt A less l0 k a) (fun k => negb (lessAt A less l0 k a))
              ltac:(lia) HI)
    with (i' := i1) (j' := j1) as [[Hlt [Hi' HI']] | [Hlt [Hm HI']]];
    [intros k Hk; rewrite lessAt_nth by lia; reflexivity
    |intros k Hk; rewrite lessAt_nth by lia; reflexivity
    |reflexivity|reflexivity| |].
  - destruct (Nat.ltb_spec j1 i1); [|lia]; cbn [fst snd].
    rewrite Hi' in HI'.
    destruct (partition_finish a b l0 l0 j1 T ltac:(lia) HI' HT HF) as [R1 [R2 [R3 [R4 R5]]]].
    split; [apply frame_trans with l0; assumption|].
    split; [exact R2|]; split; [exact R3|]; split; assumption.
  - destruct (Nat.ltb_spec j1 i1); [lia|].
    pose proof (partitionLoop_spec a b l0 ltac:(lia) (b - a) (swapAt A l0 i1 j1) (S i1) (j1 - 1)
                  HI' ltac:(lia)) as HL.
    destruct (partitionLoop A less (b - a) (swapAt A l0 i1 j1) (S i1) (j1 - 1) a) as [l2 j2].
    cbn [fst snd] in HL |- *.
    destruct (partition_finish a b l0 l2 j2 T ltac:(lia) HL HT HF) as [R1 [R2 [R3 [R4 R5]]]].
    split; [apply frame_trans with l0; assumption|].
    split; [exact R2|]; split; [exact R3|]; split; assumption.
Qed.

Lemma partitionEqualLoop_spec (a b : nat) (l0 : list A) :
  b <= length l0 ->
  forall fuel l i j,
  scanInv (fun x => negb (less (nth a l0 d) x)) a b l0 l i j -> S j - i < fuel ->
  exists j', snd (partitionEqualLoop A less fuel l i j a) = S j'
    /\ scanInv (fun x => negb (less (nth a l0 d) x)) a b l0
         (fst (partitionEqualLoop A less fuel l i j a)) (S j') j'.
Proof.
  intros Hb; induction fuel as [|fuel IH]; intros l i j HI Hf; [lia|]; cbn [partitionEqualLoop].
  assert (Ea : nth a l d = nth a l0 d) by (apply (frame_out _ _ _ _ (proj1 HI)); lia).
  assert (Hlen : length l = length l0) by exact (frame_length _ _ _ _ (proj1 HI)).
  set (i' := countUp (S j - i) (fun i => (i <=? j) && negb (lessAt A less l a i)) i).
  set (j' := countDown (S j - i') (fun j => (i' <=? j) && lessAt A less l a j) j).
  destruct (scan_step (fun x => negb (less (nth a l0 d) x)) a b l0 l i j
              (fun k => negb (lessAt A less l a k)) (fun k => lessAt A less l a k) Hb HI)
    with (i' := i') (j' := j') as [[Hlt [Hi' HI']] | [Hlt [Hm HI']]];
    [intros k Hk; rewrite lessAt_nth, Ea by (destruct HI as [_ [_ [_ [? _]]]]; lia); reflexivity
    |intros k Hk; rewrite lessAt_nth, Ea by (destruct HI as [_ [_ [_ [? _]]]]; lia);
     rewrite negb_involutive; reflexivity
    |reflexivity|reflexivity| |].
  - destruct (Nat.ltb_spec j' i'); [|lia]; cbn [fst snd].
    exists j'; split; [exact Hi'|]; rewrite Hi' in HI'; exact HI'.
  - destruct (Nat.ltb_spec j' i'); [lia|].
    apply IH; [exact HI'|lia].
Qed.

Lemma partitionEqual_spec (l : list A) (a b pivot : nat) :
  a < b -> b <= length l -> a <= pivot < b ->
  frame a b l (fst (partitionEqual A less l a b pivot))
  /\ a < snd (partitionEqual A less l a b pivot) <= b
  /\ (forall k, a <= k < snd (partitionEqual A less l a b pivot) ->
        le (nth k (fst (partitionEqual A less l a b pivot)) d) (nth pivot l d))
  /\ (forall k, snd (partitionEqual A less l a b pivot) <= k < b ->
        le (nth pivot l d) (nth k (fst (partitionEqual A less l a b pivot)) d)).
Proof.
  intros Hab Hb Hp; unfold partitionEqual.
  set (l0 := swapAt A l a pivot).
  assert (F0 : frame a b l l0) by (apply frame_swap1; lia).
  assert (Hl0 : length l0 = length l) by apply swapAt_length.
  assert (Ep : nth a l0 d = nth pivot l d).
  { unfold l0; rewrite nth_swapAt by lia.
    destruct (Nat.eqb_spec a pivot); [subst; reflexivity|]; rewrite Nat.eqb_refl; reflexivity. }
  rewrite <- Ep.
  assert (HI : scanInv (fun x => negb (less (nth a l0 d) x)) a b l0 l0 (S a) (b - 1)).
  { unfold scanInv; split; [apply frame_refl|]; split; [lia|]; split; [lia|]; split; [lia|].
    split; intros; lia. }
  destruct (partitionEqualLoop_spec a b l0 ltac:(lia) (b - a) l0 (S a) (b - 1) HI ltac:(lia))
    as [j' [E [F [H1 [H2 [H3 [H4 H5]]]]]]].
  rewrite E.
  split; [apply frame_trans with l0; [exact F0 | apply (frame_widen (S a) b); [lia|lia|exact F]]|].
  split; [lia|]; split.
  - intros k Hk; destruct (Nat.eq_dec k a) as [->|Hka].
    + rewrite (frame_out _ _ _ _ F a) by lia; apply le_refl.
    + specialize (H4 k ltac:(lia)); apply negb_true_iff in H4; apply nless_le; exact H4.
  - intros k Hk; specialize (H5 k ltac:(lia)); apply negb_false_iff in H5.
    apply less_le; exact H5.
Qed.

Lemma Pre_restrict (l : list A) (a b b' : nat) : b' <= b -> Pre l a b -> Pre l a b'.
Proof. intros Hb HP p q Hp Hq; apply HP; lia. Qed.

Lemma frame_Pre_left (a b a' b' : nat) (l l' : list A) :
  b' <= a -> frame a' b' l l' -> Pre l a b -> Pre l' a b.
Proof.
  intros Hb' F HP p q Hp Hq.
  rewrite (frame_out _ _ _ _ F q) by lia.
  destruct (Nat.lt_ge_cases p a'); [rewrite (frame_out _ _ _ _ F p) by lia; apply HP; lia|].
  destruct (Nat.lt_ge_cases p b'); [|rewrite (frame_out _ _ _ _ F p) by lia; apply HP; lia].
  destruct (frame_in _ _ _ _ F p) as [p' [Hp' ->]]; [lia|]; apply HP; lia.
Qed.

Lemma frame_Pre_right (a b a' b' : nat) (l l' : list A) :
  b <= a' -> frame a' b' l l' -> Pre l a b -> Pre l' a b.
Proof.
  intros Ha' F HP p q Hp Hq.
  rewrite (frame_out _ _ _ _ F q), (frame_out _ _ _ _ F p) by lia; apply HP; lia.
Qed.

Lemma Pre_partition (l : list A) (a mid b : nat) :
  Pre l a b -> a <= mid ->
  (forall k, a <= k < mid -> le (nth k l d) (nth mid l d)) ->
  (forall k, mid < k < b -> le (nth mid l d) (nth k l d)) ->
  Pre l (S mid) b.
Proof.
  intros HP Hm HL HR p q Hp Hq.
  destruct (Nat.lt_ge_cases p a); [apply HP; lia|].
  destruct (Nat.eq_dec p mid) as [->|]; [apply HR; lia|].
  apply le_trans with (nth mid l d); [apply HL; lia | apply HR; lia].
Qed.

Lemma split_sorted (l4 l6 : list A) (a mid b : nat) :
  a <= mid < b ->
  (forall k, a <= k < mid -> le (nth k l4 d) (nth mid l4 d)) ->
  (forall k, mid < k < b -> le (nth mid l4 d) (nth k l4 d)) ->
  (forall k, a <= k < mid -> exists k', a <= k' < mid /\ nth k l6 d = nth k' l4 d) ->
  (forall k, mid < k < b -> exists k', mid < k' < b /\ nth k l6 d = nth k' l4 d) ->
  nth mid l6 d = nth mid l4 d ->
  sortedRange l6 a mid -> sortedRange l6 (S mid) b -> sortedRange l6 a b.
Proof.
  intros Hm HL HR IL IR Em SL SR p q Hp Hpq Hq.
  destruct (Nat.lt_ge_cases q mid); [apply SL; lia|].
  destruct (Nat.lt_ge_cases mid p); [apply SR; lia|].
  assert (Lp : le (nth p l6 d) (nth mid l6 d)).
  { destruct (Nat.eq_dec p mid) as [->|]; [apply le_refl|].
    destruct (IL p) as [p' [Hp' ->]]; [lia|]; rewrite Em; apply HL; lia. }
  destruct (Nat.eq_dec q mid) as [->|]; [exact Lp|].
  apply le_trans with (nth mid l6 d); [exact Lp|].
  destruct (IR q) as [q' [Hq' ->]]; [lia|]; rewrite Em; apply HR; lia.
Qed.

Lemma pdq_spec :
  forall fuel l a b limit wb wp, b - a < fuel -> a <= b -> b <= length l -> Pre l a b ->
  frame a b l (pdqsort A less fuel l a b limit wb wp)
  /\ sortedRange (pdqsort A less fuel l a b limit wb wp) a b.
Proof.
  induction fuel as [|fuel IH]; intros l a b limit wb wp Hf Hab Hb HP; [lia|].
  cbn [pdqsort].
  destruct (Nat.leb_spec (b - a) 12).
  { destruct (insertionSort_spec l a b Hab Hb); split; assumption. }
  destruct (Nat.eqb_spec limit 0).
  { destruct (heapSort_spec l a b Hab Hb); split; assumption. }
  destruct (if negb wb then (breakPatterns A l a b, limit - 1) else (l, limit)) as [l1 lim1] eqn:E1.
  assert (F1 : frame a b l l1).
  { destruct (negb wb); injection E1 as <- <-; [apply breakPatterns_frame; lia | apply frame_refl]. }
  cbv beta iota.
  destruct (choosePivot A less l1 a b) as [pivot hint] eqn:E2.
  pose proof (choosePivot_range l1 a b ltac:(lia)) as R2; rewrite E2 in R2; cbn [fst] in R2.
  cbv beta iota.
  destruct (match hint with
            | decreasingHint => (reverseRange A l1 a b, b - 1 - (pivot - a), increasingHint)
            | _ => (l1, pivot, hint) end) as [[l2 pv2] h2] eqn:E3.
  assert (F2 : frame a b l1 l2 /\ a <= pv2 < b).
  { destruct hint; injection E3 as <- <- <-;
      (split; [apply frame_refl || (apply reverseRange_frame; lia) | lia]). }
  destruct F2 as [F2 R3].
  cbv beta iota.
  destruct (if wb && wp && isIncreasing h2 then partialInsertionSort A less l2 a b else (l2, false))
    as [l3 srt] eqn:E4.
  assert (Hl2 : length l2 = length l)
    by (rewrite (frame_length _ _ _ _ F2), (frame_length _ _ _ _ F1); reflexivity).
  assert (F12 : frame a b l l2) by (apply frame_trans with l1; assumption).
  assert (P2 : Pre l2 a b) by (apply (frame_Pre a b a b l); [lia|lia|exact F12|exact HP]).
  assert (F3 : frame a b l2 l3 /\ (srt = true -> sortedRange l3 a b)).
  { destruct (wb && wp && isIncreasing h2).
    - pose proof (partialInsertionSort_spec l2 a b ltac:(lia) ltac:(lia) P2) as X.
      rewrite E4 in X; exact X.
    - injection E4 as <- <-; split; [apply frame_refl | discriminate]. }
  destruct F3 as [F3 S3].
  cbv beta iota.
  assert (F13 : frame a b l l3) by (apply frame_trans with l2; assumption).
  destruct srt.
  { split; [exact F13 | apply S3; reflexivity]. }
  assert (Hl3 : length l3 = length l) by (rewrite (frame_length _ _ _ _ F13); reflexivity).
  assert (P3 : Pre l3 a b) by (apply (frame_Pre a b a b l); [lia|lia|exact F13|exact HP]).
  destruct ((0 <? a) && negb (lessAt A less l3 (a - 1) pv2)) eqn:E5.
  - apply andb_prop in E5 as [E5a E5b]; apply Nat.ltb_lt in E5a; apply negb_true_iff in E5b.
    rewrite lessAt_nth in E5b by lia; apply nless_le in E5b.
    pose proof (partitionEqual_spec l3 a b pv2 ltac:(lia) ltac:(lia) R3) as PE.
    destruct (partitionEqual A less l3 a b pv2) as [l4 mid] eqn:E6.
    cbn [fst snd] in PE; destruct PE as [F4 [Hmid [PL PR]]].
    cbv beta iota.
    assert (Hl4 : length l4 = length l) by (rewrite (frame_length _ _ _ _ F4); exact Hl3).
    assert (P4 : Pre l4 a b) by (apply (frame_Pre a b a b l3); [lia|lia|exact F4|exact P3]).
    assert (Gv : forall q, a <= q < b -> le (nth pv2 l3 d) (nth q l4 d)).
    { intros q Hq; apply le_trans with (nth (a - 1) l3 d); [exact E5b|].
      rewrite <- (frame_out _ _ _ _ F4 (a - 1)) by lia; apply P4; lia. }
    destruct (IH l4 mid b lim1 wb wp) as [F5 S5]; [lia|lia|lia| |].
    + intros p q Hp Hq; destruct (Nat.lt_ge_cases p a); [apply P4; lia|].
      apply le_trans with (nth pv2 l3 d); [apply PL; lia | apply Gv; lia].
    + split.
      * apply frame_trans with l4; [apply frame_trans with l3; assumption|].
        apply (frame_widen mid b); [lia|lia|exact F5].
      * set (l5 := pdqsort A less fuel l4 mid b lim1 wb wp) in *.
        intros p q Hp Hpq Hq.
        destruct (Nat.le_gt_cases mid p); [apply S5; lia|].
        rewrite (frame_out _ _ _ _ F5 p) by lia.
        apply le_trans with (nth pv2 l3 d); [apply PL; lia|].
        destruct (Nat.lt_ge_cases q mid).
        -- rewrite (frame_out _ _ _ _ F5 q) by lia; apply Gv; lia.
        -- destruct (frame_in _ _ _ _ F5 q) as [q' [Hq' ->]]; [lia|]; apply PR; lia.
  - pose proof (partition_spec l3 a b pv2 ltac:(lia) ltac:(lia) R3) as PS.
    destruct (partition A less l3 a b pv2) as [[l4 mid] ap] eqn:E6.
    cbn [fst snd] in PS; destruct PS as [F4 [Hmid [Em [PL PR]]]].
    cbv beta iota.
    assert (Hl4 : length l4 = length l) by (rewrite (frame_length _ _ _ _ F4); exact Hl3).
    assert (P4 : Pre l4 a b) by (apply (frame_Pre a b a b l3); [lia|lia|exact F4|exact P3]).
    rewrite <- Em in PL, PR.
    assert (F14 : frame a b l l4) by (apply frame_trans with l3; assumption).
    assert (PR4 : Pre l4 (S mid) b) by (apply Pre_partition with a; auto; lia).
    assert (PL4 : Pre l4 a mid) by (apply Pre_restrict with b; [lia|exact P4]).
    destruct (mid - a <? b - mid).
    + destruct (IH l4 a mid lim1 true true) as [F5 S5]; [lia|lia|lia|exact PL4|].
      set (l5 := pdqsort A less fuel l4 a mid lim1 true true) in *.
      assert (PR5 : Pre l5 (S mid) b) by (apply (frame_Pre_left (S mid) b a mid l4); [lia|exact F5|exact PR4]).
      destruct (IH l5 (S mid) b lim1 ((b - a) / 8 <=? mid - a) ap) as [F6 S6];
        [lia|lia|rewrite (frame_length _ _ _ _ F5); lia|exact PR5|].
      set (l6 := pdqsort A less fuel l5 (S mid) b lim1 ((b - a) / 8 <=? mid - a) ap) in *.
      split.
      * apply frame_trans with l4; [exact F14|]; apply frame_trans with l5.
        -- apply (frame_widen a mid); [lia|lia|exact F5].
        -- apply (frame_widen (S mid) b); [lia|lia|exact F6].
      * apply (split_sorted l4 l6 a mid b); [lia|exact PL|exact PR| | | | |exact S6].
        -- intros k Hk; rewrite (frame_out _ _ _ _ F6 k) by lia.
           apply (frame_in _ _ _ _ F5); lia.
        -- intros k Hk; destruct (frame_in _ _ _ _ F6 k) as [k' [Hk' ->]]; [lia|].
           exists k'; split; [lia|]; apply (frame_out _ _ _ _ F5); lia.
        -- rewrite (frame_out _ _ _ _ F6 mid), (frame_out _ _ _ _ F5 mid) by lia; reflexivity.
        -- apply (sortedRange_frame_out a mid (S mid) b l5); [exact F6|lia|exact S5].
    + destruct (IH l4 (S mid) b lim1 true true) as [F5 S5]; [lia|lia|lia|exact PR4|].
      set (l5 := pdqsort A less fuel l4 (S mid) b lim1 true true) in *.
      assert (PL5 : Pre l5 a mid) by (apply (frame_Pre_right a mid (S mid) b l4); [lia|exact F5|exact PL4]).
      destruct (IH l5 a mid lim1 ((b - a) / 8 <=? b - mid) ap) as [F6 S6];
        [lia|lia|rewrite (frame_length _ _ _ _ F5); lia|exact PL5|].
      set (l6 := pdqsort A less fuel l5 a mid lim1 ((b - a) / 8 <=? b - mid) ap) in *.
      split.
      * apply frame_trans with l4; [exact F14|]; apply frame_trans with l5.
        -- apply (frame_widen (S mid) b); [lia|lia|exact F5].
        -- apply (frame_widen a mid); [lia|lia|exact F6].
      * apply (split_sorted l4 l6 a mid b); [lia|exact PL|exact PR| | | |exact S6|].
        -- intros k Hk; destruct (frame_in _ _ _ _ F6 k) as [k' [Hk' ->]]; [lia|].
           exists k'; split; [lia|]; apply (frame_out _ _ _ _ F5); lia.
        -- intros k Hk; rewrite (frame_out _ _ _ _ F6 k) by lia.
           apply (frame_in _ _ _ _ F5); lia.
        -- rewrite (frame_out _ _ _ _ F6 mid), (frame_out _ _ _ _ F5 mid) by lia; reflexivity.
        -- apply (sortedRange_frame_out (S mid) b a mid l5); [exact F6|lia|exact S5].
Qed.

Lemma sortedRange_StronglySorted (l : list A) :
  sortedRange l 0 (length l) -> StronglySorted le l.
Proof.
  induction l as [|x t IH]; intros H; constructor.
  - apply IH; intros p q Hp Hpq Hq; apply (H (S p) (S q)); simpl; lia.
  - apply Forall_forall; intros y Hy.
    destruct (In_nth t y d Hy) as [n [Hn <-]].
    apply (H 0 (S n)); simpl; lia.
Qed.

Lemma Sort_sorted (l : list A) : StronglySorted le (Sort A less l).
Proof.
  unfold Sort; cbv zeta.
  destruct (Nat.leb_spec (length l) 1) as [H|H].
  - apply sortedRange_StronglySorted; intros p q Hp Hpq Hq; lia.
  - destruct (pdq_spec (S (length l)) l 0 (length l) (bitsLen (length l)) true true)
      as [F S]; [lia|lia|lia|intros p q Hp; lia|].
    apply sortedRange_StronglySorted; rewrite (frame_length _ _ _ _ F); exact S.
Qed.
End Correct.

End GoSortFacts.

(** ** sort.Sort on events

    [Less] compares the events by a key: [None] for an unset Start, which
    sorts first, and the Start itself otherwise. *)
Definition startKey (e : Event) : option Time :=
  if IsZero (Start e) then None else Some (Start e).

Definition lessKey (x y : option Time) : bool :=
  match x, y with
  | None, _ => true
  | Some _, None => false
  | Some t, Some u => Before t u
  end.

Definition leKey (x y : option Time) : Prop :=
  match x, y with
  | None, _ => True
  | Some _, None => False
  | Some t, Some u => Before u t = false
  end.

Lemma Less_key (x y : Event) : lessKey (startKey x) (startKey y) = Less x y.
Proof.
  unfold Less, lessKey, startKey.
  destruct (IsZero (Start x)), (IsZero (Start y)); reflexivity.
Qed.

Lemma startOrder_key (x y : Event) :
  leKey (startKey x) (startKey y) -> startOrder x y.
Proof.
  unfold startOrder, leKey, startKey.
  destruct (IsZero (Start x)), (IsZero (Start y)); intros H;
    [left; reflexivity | left; reflexivity | contradiction | right; split; auto].
Qed.

Lemma lessKey_le (x y : option Time) : lessKey x y = true -> leKey x y.
Proof.
  destruct x as [t|], y as [u|]; simpl; auto; try discriminate.
  apply Before_asym.
Qed.

Lemma lessKey_nle (x y : option Time) : lessKey x y = false -> leKey y x.
Proof. destruct x as [t|], y as [u|]; simpl; auto; discriminate. Qed.

Lemma leKey_trans (x y z : option Time) : leKey x y -> leKey y z -> leKey x z.
Proof.
  destruct x as [t|], y as [u|], z as [v|]; simpl; auto; try contradiction.
  intros H1 H2; exact (Before_false_trans t u v H1 H2).
Qed.

Lemma leKey_antisym (x y : option Time) : leKey x y -> leKey y x -> x = y.
Proof.
  destruct x as [t|], y as [u|]; simpl; auto; try contradiction.
  intros H1 H2; apply not_true_iff_false in H1; apply not_true_iff_false in H2.
  rewrite Before_true in H1, H2.
  destruct t as [yt mt dt], u as [yu mu du]; simpl in *.
  f_equal; f_equal; lia.
Qed.

Lemma StronglySorted_map_inv {X Y} (R : Y -> Y -> Prop) (S : X -> X -> Prop)
  (f : X -> Y) (l : list X) :
  (forall x y, R (f x) (f y) -> S x y) ->
  StronglySorted R (map f l) -> StronglySorted S l.
Proof.
  intros HRS; induction l as [|x l IH]; simpl; intros Hs; [constructor|].
  apply StronglySorted_inv in Hs as [Hl Hx].
  constructor; [apply IH; exact Hl|].
  apply Forall_forall; intros y Hy; rewrite Forall_forall in Hx.
  apply HRS, Hx, in_map, Hy.
Qed.

Lemma sortSort_sorted (l : list Event) : StronglySorted startOrder (sortSort l).
Proof.
  assert (Hk : map startKey (sortSort l) = GoSort.Sort (option Time) lessKey (map startKey l)).
  { unfold sortSort; symmetry; apply GoSortFacts.Sort_map; exact Less_key. }
  pose proof (GoSortFacts.Sort_sorted (option Time) lessKey leKey None
                lessKey_le lessKey_nle leKey_trans leKey_antisym (map startKey l)) as Hs.
  rewrite <- Hk in Hs.
  exact (StronglySorted_map_inv leKey startOrder startKey _ startOrder_key Hs).
Qed.

Lemma sortSort_perm (l : list Event) : Permutation (sortSort l) l.
Proof. apply GoSortFacts.Sort_perm. Qed.

(** ** insertionSort leaves the events in [startOrder] *)

Lemma insertRev_in (x z : Event) (acc : list Event) :
  In z (insertRev x acc) -> z = x \/ In z acc.
Proof.
  induction acc as [|y ys IH]; simpl.
  - intros [->|[]]; left; reflexivity.
  - destruct (Less x y); simpl.
    + intros [->|Hz]; [right; left; reflexivity|].
      destruct (IH Hz) as [->|Hz']; [left; reflexivity | right; right; exact Hz'].
    + intros [->|Hz]; [left; reflexivity | right; exact Hz].
Qed.

(** The reversed prefix is sorted downwards. *)
Definition revOrder (a b : Event) : Prop := startOrder b a.

Lemma insertRev_sorted (x : Event) (acc : list Event) :
  StronglySorted revOrder acc -> StronglySorted revOrder (insertRev x acc).
Proof.
  induction acc as [|y ys IH]; intros Hs; simpl.
  - constructor; constructor.
  - apply StronglySorted_inv in Hs as [Hys Hall].
    destruct (Less x y) eqn:Hl.
    + constructor; [apply IH; exact Hys|].
      apply Forall_forall; intros z Hz.
      destruct (insertRev_in x z ys Hz) as [->|Hz'].
      * apply Less_true; exact Hl.
      * rewrite Forall_forall in Hall; exact (Hall z Hz').
    + constructor; [constructor; assumption|].
      pose proof (Less_false x y Hl) as Hyx.
      constructor; [exact Hyx|].
      apply Forall_forall; intros z Hz.
      rewrite Forall_forall in Hall.
      unfold revOrder; eapply startOrder_trans; [exact (Hall z Hz) | exact Hyx].
Qed.

Lemma StronglySorted_snoc {A} (R : A -> A -> Prop) (l : list A) (x : A) :
  StronglySorted R l -> Forall (fun y => R y x) l -> StronglySorted R (l ++ [x]).
Proof.
  induction l as [|a l IH]; simpl; intros Hs Hf.
  - constructor; constructor.
  - apply StronglySorted_inv in Hs as [Hl Ha].
    inversion Hf as [|? ? Hax Hf']; subst.
    constructor; [apply IH; assumption|].
    apply Forall_app; split; [exact Ha | constructor; [exact Hax | constructor]].
Qed.

Lemma StronglySorted_rev (l : list Event) :
  StronglySorted revOrder l -> StronglySorted startOrder (rev l).
Proof.
  induction l as [|a l IH]; simpl; intros Hs; [constructor|].
  apply StronglySorted_inv in Hs as [Hl Ha].
  apply StronglySorted_snoc; [apply IH; exact Hl|].
  apply Forall_forall; intros y Hy; apply in_rev in Hy.
  rewrite Forall_forall in Ha; exact (Ha y Hy).
Qed.

Lemma insertionSort_sorted (l : list Event) : StronglySorted startOrder (insertionSort l).
Proof.
  unfold insertionSort; apply StronglySorted_rev.
  assert (Hgen : forall acc, StronglySorted revOrder acc ->
            StronglySorted revOrder (fold_left (fun acc x => insertRev x acc) l acc)).
  { induction l as [|x l IH]; intros acc Hacc; simpl; [exact Hacc|].
    apply IH; apply insertRev_sorted; exact Hacc. }
  apply Hgen; constructor.
Qed.

(** A calendar returned by [decode] is a sorted event list. *)
Lemma decodeLoop_decoded (fuel : nat) (removeCRLF : bool) (c : option Calendar)
  (r : string) (out : Calendar) :
  decodeLoop fuel removeCRLF c r = Decoded out ->
  exists l, out = mkCalendar (sortSort l).
Proof.
  revert c r; induction fuel as [|fuel IH]; intros c r H; simpl in H; [discriminate|].
  destruct (decodeLine removeCRLF r) as [[[key value] err] r1].
  destruct err as [err|]; [discriminate|].
  destruct (String.eqb key "BEGIN").
  - destruct (beginStep removeCRLF c value r1) as [[c2 r2]|err]; [|discriminate].
    destruct (String.eqb key "END" && String.eqb value "VCALENDAR").
    + injection H as <-; exists (Events c2); reflexivity.
    + exact (IH _ _ H).
  - destruct (String.eqb key "END" && String.eqb value "VCALENDAR").
    + destruct c as [c|]; [|discriminate].
      injection H as <-; exists (Events c); reflexivity.
    + exact (IH _ _ H).
Qed.

(** ** Claims *)

(** C1: decoding the minimal calendar (LF or CRLF line ends) succeeds with a
    Calendar of exactly one Event: UID "1@test", Start 2023-01-01,
    End 2023-01-02, Summary "Test". *)
Theorem decode_minimal_calendar :
  Decode (linesLF minimalLines)
  = Decoded (mkCalendar [mkEvent "1@test" (mkTime 2023 1 1) (mkTime 2023 1 2) "Test" "" ""])
  /\ Decode (linesCRLF minimalLines)
  = Decoded (mkCalendar [mkEvent "1@test" (mkTime 2023 1 1) (mkTime 2023 1 2) "Test" "" ""]).
Proof. split; vm_compute; reflexivity. Qed.

(** C2: decodeLine never returns io.EOF (its error is nil or the bad-line
    error), so decodeEvent's io.EOF branch is never taken: a stream ending
    inside an event makes event decoding, and the whole decode, fail with
    the bad-line error instead of returning the partial Event. *)
Theorem eof_inside_event_fails :
  (forall removeCRLF r,
     match decodeLine removeCRLF r with
     | (_, _, err, _) => err = None \/ err = Some ErrBadLine
     end)
  /\ decodeEvent true (linesLF ["UID:1@test"]) = (Err ErrBadLine, "")
  /\ decodeEvent true "UID:1@test" = (Err ErrBadLine, "")
  /\ Decode (linesLF ["BEGIN:VCALENDAR"; "BEGIN:VEVENT"; "UID:1@test"]) = Failed ErrBadLine.
Proof.
  split; [exact decodeLine_err|].
  split; [vm_compute; reflexivity|].
  split; vm_compute; reflexivity.
Qed.

(** C3: a blank raw line is read by ReadBytes as the one byte "\n"; it is
    not skipped but becomes a logical line without colon, so decoding the
    minimal event with a blank line between two properties fails, while the
    same input without it succeeds. *)
Theorem blank_line_is_malformed :
  (forall removeCRLF rest,
     decodeLine removeCRLF (NL ++ "UID:" ++ rest)
     = ("", "", Some ErrBadLine, "UID:" ++ rest))
  /\ Decode (linesLF ["BEGIN:VCALENDAR"; "BEGIN:VEVENT"; "UID:1@test"; "";
                      "SUMMARY:Test"; "END:VEVENT"; "END:VCALENDAR"])
     = Failed ErrBadLine
  /\ Decode (linesLF ["BEGIN:VCALENDAR"; "BEGIN:VEVENT"; "UID:1@test";
                      "SUMMARY:Test"; "END:VEVENT"; "END:VCALENDAR"])
     = Decoded (mkCalendar [mkEvent "1@test" zeroTime zeroTime "Test" "" ""]).
Proof.
  split; [intros [|] rest; reflexivity|].
  split; vm_compute; reflexivity.
Qed.

(** C4: unfolding keeps the line terminator of the raw line before a
    continuation: "SUMMARY:Te" folded before "st" reads as the value
    "Te\nst" (with CRLF line ends "Te\r\nst"), not the "Test" of the
    unfolded line, and the decoded Summary is "Te st". *)
Theorem folded_line_keeps_terminator :
  decodeLine true (linesLF ["SUMMARY:Te"; " st"]) = ("SUMMARY", "Te" ++ NL ++ "st", None, "")
  /\ decodeLine true (linesCRLF ["SUMMARY:Te"; " st"])
     = ("SUMMARY", "Te" ++ String CR NL ++ "st", None, "")
  /\ decodeLine true (linesLF ["SUMMARY:Test"]) = ("SUMMARY", "Test", None, "")
  /\ Decode (linesLF ["BEGIN:VCALENDAR"; "BEGIN:VEVENT"; "SUMMARY:Te"; " st";
                      "END:VEVENT"; "END:VCALENDAR"])
     = Decoded (mkCalendar [mkEvent "" zeroTime zeroTime "Te st" "" ""])
  /\ Decode (linesLF ["BEGIN:VCALENDAR"; "BEGIN:VEVENT"; "SUMMARY:Test";
                      "END:VEVENT"; "END:VCALENDAR"])
     = Decoded (mkCalendar [mkEvent "" zeroTime zeroTime "Test" "" ""]).
Proof. repeat split; vm_compute; reflexivity. Qed.

(** C5: a DTSTART or DTEND value of fewer than 8 characters parses to the
    zero time with no error, and the event loop stores the zero time in
    Start (End) and goes on reading without error. *)
Theorem short_date_left_unset (v : string) :
  (String.length v < 8)%nat ->
  decodeDate v = (zeroTime, None)
  /\ (forall removeCRLF fuel e key r r1,
        decodeLine removeCRLF r = (key, v, None, r1) ->
        fixDateKey key = "DTSTART" ->
        decodeEventLoop (S fuel) removeCRLF e r
        = decodeEventLoop fuel removeCRLF (setStart e zeroTime) r1)
  /\ (forall removeCRLF fuel e key r r1,
        decodeLine removeCRLF r = (key, v, None, r1) ->
        fixDateKey key = "DTEND" ->
        decodeEventLoop (S fuel) removeCRLF e r
        = decodeEventLoop fuel removeCRLF (setEnd e zeroTime) r1).
Proof.
  intros Hv.
  assert (Hu : decodeDate (UnescapeText v) = (zeroTime, None)).
  { apply decodeDate_short; pose proof (UnescapeText_length v); lia. }
  split; [apply decodeDate_short; exact Hv|].
  split; intros removeCRLF fuel e key r r1 Hl Hk;
    cbn [decodeEventLoop]; rewrite Hl; unfold eventStep; rewrite Hk;
    cbn -[decodeDate UnescapeText decodeEventLoop]; rewrite Hu; reflexivity.
Qed.

Lemma short_date_left_unset_witness :
  decodeDate "2023" = (zeroTime, None)
  /\ decodeEventLoop 2 true newEvent (linesLF ["DTSTART:2023"; "END:VEVENT"])
     = decodeEventLoop 1 true (setStart newEvent zeroTime) (linesLF ["END:VEVENT"]).
Proof.
  destruct (short_date_left_unset "2023") as [H1 [H2 _]]; [simpl; lia|].
  split; [exact H1|].
  apply (H2 true 1 newEvent "DTSTART"); reflexivity.
Defined.

(** C6 (counterexample): decoding two events without DTSTART returns a
    calendar whose two events both have unset Start and each compares as
    less than the other under eventList.Less. *)
Lemma decode_unset_starts_both_less :
  exists c e1 e2,
    Decode (linesLF twoUnsetLines) = Decoded c
    /\ Events c = [e1; e2]
    /\ IsZero (Start e1) = true /\ IsZero (Start e2) = true
    /\ Less e1 e2 = true /\ Less e2 e1 = true.
Proof.
  do 3 eexists; split; [vm_compute; reflexivity|].
  split; [reflexivity|].
  repeat split; reflexivity.
Qed.

(** C6 (amended): a calendar returned by a successful decode is in Start
    order (unset Starts first, set Starts ascending); under eventList.Less
    an event with unset Start is less than every event, another unset one
    included, an event with a set Start is never less than one with an
    unset Start, and two set Starts compare by Before. *)
Theorem decode_events_start_order (removeCRLF : bool) (input : string) (c : Calendar) :
  decode removeCRLF input = Decoded c ->
  StronglySorted startOrder (Events c)
  /\ (forall a b, IsZero (Start a) = true -> Less a b = true)
  /\ (forall a b, IsZero (Start a) = false -> IsZero (Start b) = true -> Less a b = false)
  /\ (forall a b, IsZero (Start a) = false -> IsZero (Start b) = false ->
        Less a b = Before (Start a) (Start b)).
Proof.
  intros H.
  destruct (decodeLoop_decoded _ _ _ _ _ H) as [l ->].
  split; [apply sortSort_sorted|].
  unfold Less; split; [|split].
  - intros a b Ha; rewrite Ha; reflexivity.
  - intros a b Ha Hb; rewrite Ha, Hb; reflexivity.
  - intros a b Ha Hb; rewrite Ha, Hb; reflexivity.
Qed.

Lemma decode_events_start_order_witness :
  exists c, Decode (linesLF scrambledLines) = Decoded c
  /\ map Start (Events c)
     = [zeroTime; mkTime 2018 10 1; mkTime 2019 7 4; mkTime 2020 5 5;
        mkTime 2021 12 31; mkTime 2022 1 1; mkTime 2023 1 1; mkTime 2023 1 1;
        mkTime 2023 1 2; mkTime 2023 5 9; mkTime 2023 5 10; mkTime 2023 6 15;
        mkTime 2024 2 29; mkTime 2030 11 30]
  /\ StronglySorted startOrder (Events c).
Proof.
  destruct (Decode (linesLF scrambledLines)) as [c| |] eqn:H;
    [| vm_compute in H; discriminate | vm_compute in H; discriminate].
  exists c; split; [reflexivity|]; split.
  - vm_compute in H; injection H as <-; reflexivity.
  - exact (proj1 (decode_events_start_order true (linesLF scrambledLines) c H)).
Defined.

(** C7: UnescapeText on the three examples of the spec: backslash-semicolon
    and backslash-comma unescape, the escape backslash-n ends up as a space,
    and "&nbsp" becomes a space. *)
Theorem unescape_examples :
  UnescapeText "A\;B\,C" = "A;B,C"
  /\ UnescapeText "Line1\nLine2" = "Line1 Line2"
  /\ UnescapeText "a&nbspb" = "a b".
Proof. repeat split; reflexivity. Qed.

(** C8: inside decodeEvent a key that starts with DTSTART is handled exactly
    as the key DTSTART, and one that starts with DTEND exactly as DTEND;
    DTSTART;VALUE=DATE:20230505 decodes as DTSTART:20230505. *)
Theorem date_key_prefix_normalised :
  (forall rest e value err,
     eventStep e ("DTSTART" ++ rest) value err = eventStep e "DTSTART" value err)
  /\ (forall rest e value err,
     eventStep e ("DTEND" ++ rest) value err = eventStep e "DTEND" value err)
  /\ Decode (linesLF ["BEGIN:VCALENDAR"; "BEGIN:VEVENT"; "DTSTART;VALUE=DATE:20230505";
                      "END:VEVENT"; "END:VCALENDAR"])
     = Decode (linesLF ["BEGIN:VCALENDAR"; "BEGIN:VEVENT"; "DTSTART:20230505";
                        "END:VEVENT"; "END:VCALENDAR"]).
Proof.
  split; [|split].
  - intros rest e value err; unfold eventStep; rewrite fixDateKey_DTSTART; reflexivity.
  - intros rest e value err; unfold eventStep; rewrite fixDateKey_DTEND; reflexivity.
  - vm_compute; reflexivity.
Qed.

(** C9: a logical line without colon makes decodeLine fail with the
    bad-line error, and the failure is fatal: the top-level loop returns it
    in any state, the event loop returns it for any partial event, and an
    event that fails so makes the enclosing decode fail. *)
Theorem no_colon_line_fatal (removeCRLF : bool) (r buf r' : string) :
  lineLoop (S (String.length r)) EmptyString r = (buf, r') ->
  SplitN_colon buf = None ->
  decodeLine removeCRLF r = ("", "", Some ErrBadLine, r')
  /\ (forall fuel c, decodeLoop (S fuel) removeCRLF c r = Failed ErrBadLine)
  /\ (forall fuel e, fst (decodeEventLoop (S fuel) removeCRLF e r) = Err ErrBadLine)
  /\ (forall fuel c0 r0,
        decodeLine removeCRLF r0 = ("BEGIN", "VEVENT", None, r) ->
        decodeLoop (S fuel) removeCRLF (Some c0) r0 = Failed ErrBadLine).
Proof.
  intros Hl Hs.
  assert (Hd : decodeLine removeCRLF r = ("", "", Some ErrBadLine, r')).
  { unfold decodeLine; rewrite Hl, Hs; reflexivity. }
  assert (He : forall fuel e, fst (decodeEventLoop (S fuel) removeCRLF e r) = Err ErrBadLine).
  { intros fuel e; cbn [decodeEventLoop]; rewrite Hd; reflexivity. }
  split; [exact Hd|].
  split; [intros fuel c; cbn [decodeLoop]; rewrite Hd; reflexivity|].
  split; [exact He|].
  intros fuel c0 r0 H0; cbn [decodeLoop]; rewrite H0; cbn -[decodeEvent decodeLoop].
  unfold decodeEvent.
  destruct (decodeEventLoop (S (String.length r)) removeCRLF newEvent r) as [res r2] eqn:Hev.
  pose proof (He (String.length r) newEvent) as Hf; rewrite Hev in Hf; simpl in Hf; subst res.
  reflexivity.
Qed.

Lemma no_colon_line_fatal_witness :
  decodeLine true (linesLF ["NOCOLONHERE"]) = ("", "", Some ErrBadLine, "")
  /\ Decode (linesLF ["NOCOLONHERE"]) = Failed ErrBadLine.
Proof.
  destruct (no_colon_line_fatal true (linesLF ["NOCOLONHERE"]) (linesLF ["NOCOLONHERE"]) ""
              eq_refl eq_refl) as [H1 [H2 _]].
  split; [exact H1 | exact (H2 _ None)].
Defined.

(** C10: when the first pair read is END:VCALENDAR, the loop stops with no
    Calendar allocated and [c.Event] in the sort dereferences nil: decode
    panics. *)
Theorem decode_end_before_begin_panics (removeCRLF : bool) (r r1 : string) :
  decodeLine removeCRLF r = ("END", "VCALENDAR", None, r1) ->
  decode removeCRLF r = Panicked.
Proof.
  intros H; unfold decode; cbn [decodeLoop]; rewrite H; reflexivity.
Qed.

Lemma decode_end_before_begin_panics_witness :
  decodeLine true (linesLF ["END:VCALENDAR"]) = ("END", "VCALENDAR", None, "")
  /\ Decode (linesLF ["END:VCALENDAR"]) = Panicked.
Proof.
  split; [reflexivity|].
  apply (decode_end_before_begin_panics true _ ""); reflexivity.
Defined.

(** ** Additional properties of decode.go *)

Lemma hasChar_app (c : ascii) (s t : string) :
  hasChar c (s ++ t) = hasChar c s || hasChar c t.
Proof. induction s as [|d s IH]; simpl; [reflexivity | rewrite IH, orb_assoc; reflexivity]. Qed.

(** Replacing keeps out a byte that neither the text nor the replacement has. *)
Lemma replaceFrom_keeps_out (c : ascii) (old new : string) :
  hasChar c new = false ->
  forall s k, hasChar c s = false -> hasChar c (replaceFrom old new k s) = false.
Proof.
  intros Hn s; induction s as [|d s IH]; intros k Hs; [reflexivity|].
  simpl in Hs; apply orb_false_iff in Hs as [Hd Hs].
  destruct k as [|k]; cbn [replaceFrom]; [|apply IH; exact Hs].
  destruct (String.prefix old (String d s)).
  - rewrite hasChar_app, Hn, IH by exact Hs; reflexivity.
  - simpl; rewrite Hd, IH by exact Hs; reflexivity.
Qed.

(** Replacing every one-byte [old] by a text without it removes that byte. *)
Lemma replaceFrom_removes (c : ascii) (new : string) :
  hasChar c new = false ->
  forall s k, hasChar c (replaceFrom (String c EmptyString) new k s) = false.
Proof.
  intros Hn s; induction s as [|d s IH]; intros k; [reflexivity|].
  destruct k as [|k]; cbn [replaceFrom]; [|apply IH].
  destruct (String.prefix (String c EmptyString) (String d s)) eqn:Hp.
  - rewrite hasChar_app, Hn, IH; reflexivity.
  - cbn [hasChar]; rewrite IH, orb_false_r.
    apply Ascii.eqb_neq; intros Hcd; subst d.
    simpl in Hp; destruct (ascii_dec c c) as [_|Hc]; [destruct s; discriminate | exact (Hc eq_refl)].
Qed.

Lemma UnescapeText_no_LF (s : string) : hasChar LF (UnescapeText s) = false.
Proof.
  unfold UnescapeText, Replace.
  apply replaceFrom_keeps_out; [reflexivity|].
  apply replaceFrom_removes; reflexivity.
Qed.

(** X1: UnescapeText never returns a newline and never lengthens its
    input. *)
Theorem UnescapeText_single_line (s : string) :
  hasChar LF (UnescapeText s) = false
  /\ (String.length (UnescapeText s) <= String.length s)%nat.
Proof. split; [apply UnescapeText_no_LF | apply UnescapeText_length]. Qed.

(** *** What decodeLine consumes *)

Lemma ReadBytes_split (r : string) :
  match ReadBytes r with
  | (b, err, rest) =>
      r = b ++ rest /\ (err = None -> b <> EmptyString)
      /\ (b = EmptyString -> err = Some EOF /\ rest = EmptyString)
  end.
Proof.
  induction r as [|c r IH]; simpl.
  - split; [reflexivity|split; [discriminate|intros _; split; reflexivity]].
  - destruct (Ascii.eqb c LF).
    + split; [reflexivity | split; discriminate].
    + destruct (ReadBytes r) as [[b err] rest].
      destruct IH as [-> _].
      split; [reflexivity | split; discriminate].
Qed.

Lemma lineLoop_suffix (fuel : nat) (buf r : string) :
  match lineLoop fuel buf r with
  | (buf', r') =>
      (exists consumed, r = consumed ++ r')
      /\ (buf' = buf \/ String.length r' < String.length r)%nat
  end.
Proof.
  revert buf r; induction fuel as [|fuel IH]; intros buf r; cbn [lineLoop].
  - split; [exists EmptyString; reflexivity | left; reflexivity].
  - pose proof (ReadBytes_split r) as Hr.
    destruct (ReadBytes r) as [[b err] r1]; destruct Hr as [Hr [Hne Hemp]].
    destruct b as [|c b'].
    + destruct (Hemp eq_refl) as [-> ->]; simpl.
      split; [exists EmptyString; exact Hr | left; reflexivity].
    + assert (Hshort : (String.length r1 < String.length r)%nat)
        by (rewrite Hr, string_length_app; simpl; lia).
      set (buf' := buf ++ (if Ascii.eqb c SP then b' else String c b')).
      assert (Hstep : forall fuel', (fuel' = fuel) ->
        match lineLoop fuel' buf' r1 with
        | (buf'', r') => (exists consumed, r = consumed ++ r')
                         /\ (buf'' = buf \/ String.length r' < String.length r)%nat
        end).
      { intros fuel' ->; specialize (IH buf' r1).
        destruct (lineLoop fuel buf' r1) as [b2 r2].
        destruct IH as [[pre Hc] Hl]; split.
        - exists (String c b' ++ pre); rewrite Hr, Hc, string_append_assoc; reflexivity.
        - right; destruct Hl as [_|Hl]; [|lia].
          rewrite Hc, string_length_app in Hshort; lia. }
      destruct (Peek1 r1) as [c'|];
        [destruct (Ascii.eqb c' SP); [destruct (match err with Some _ => true | None => false end)|]|].
      all: try (apply Hstep; reflexivity).
      all: split; [exists (String c b'); exact Hr | right; exact Hshort].
Qed.
(** *** What decodeLine returns *)

Lemma SplitN_colon_parts (s p0 p1 : string) :
  SplitN_colon s = Some (p0, p1) ->
  s = p0 ++ String ":" p1 /\ hasChar ":" p0 = false.
Proof.
  revert p0; induction s as [|c s IH]; intros p0 H; [discriminate|].
  simpl in H; destruct (Ascii.eqb c ":") eqn:Ec.
  - injection H as <- <-; apply Ascii.eqb_eq in Ec; subst c; split; reflexivity.
  - destruct (SplitN_colon s) as [[k v]|]; [|discriminate].
    injection H as <- <-; destruct (IH k eq_refl) as [-> Hk].
    split; [reflexivity|]; cbn [hasChar]; rewrite Ascii.eqb_sym, Ec, Hk; reflexivity.
Qed.

Lemma TrimLeft_suffix (s cs : string) : exists p, s = p ++ TrimLeft s cs.
Proof.
  induction s as [|c s IH]; [exists EmptyString; reflexivity|]; simpl.
  destruct (inCutset cs c).
  - destruct IH as [p Hp]; exists (String c p); simpl; rewrite <- Hp; reflexivity.
  - exists EmptyString; reflexivity.
Qed.

Lemma TrimRight_prefix (s cs : string) : exists q, s = TrimRight s cs ++ q.
Proof.
  induction s as [|c s IH]; [exists EmptyString; reflexivity|]; simpl.
  destruct IH as [q Hq]; destruct (TrimRight s cs) as [|d t].
  - destruct (inCutset cs c); [exists (String c s) | exists s]; reflexivity.
  - exists q; rewrite Hq at 1; reflexivity.
Qed.

Lemma Trim_keeps_out (c : ascii) (s cs : string) :
  hasChar c s = false -> hasChar c (Trim s cs) = false.
Proof.
  intros H; unfold Trim.
  destruct (TrimLeft_suffix s cs) as [p Hp].
  destruct (TrimRight_prefix (TrimLeft s cs) cs) as [q Hq].
  rewrite Hp, hasChar_app in H; apply orb_false_iff in H as [_ H].
  rewrite Hq, hasChar_app in H; apply orb_false_iff in H as [H _]; exact H.
Qed.

Lemma TrimLeft_head (s cs : string) :
  TrimLeft s cs = EmptyString
  \/ exists c u, TrimLeft s cs = String c u /\ inCutset cs c = false.
Proof.
  induction s as [|c s IH]; [left; reflexivity|]; simpl.
  destruct (inCutset cs c) eqn:Ec; [exact IH|].
  right; exists c, s; split; [reflexivity | exact Ec].
Qed.

Lemma TrimRight_head (c : ascii) (u cs : string) :
  inCutset cs c = false -> exists u', TrimRight (String c u) cs = String c u'.
Proof.
  intros H; simpl; destruct (TrimRight u cs).
  - rewrite H; eexists; reflexivity.
  - eexists; reflexivity.
Qed.

Lemma lastChar_cons2 (c d : ascii) (t : string) :
  V0.lastChar (String c (String d t)) = V0.lastChar (String d t).
Proof. reflexivity. Qed.

Lemma TrimRight_last (s cs : string) :
  TrimRight s cs = EmptyString
  \/ exists d, V0.lastChar (TrimRight s cs) = Some d /\ inCutset cs d = false.
Proof.
  induction s as [|c s IH]; [left; reflexivity|]; simpl.
  destruct (TrimRight s cs) as [|d t].
  - destruct (inCutset cs c) eqn:Ec; [left; reflexivity|].
    right; exists c; split; [reflexivity | exact Ec].
  - right; destruct IH as [|[d' [Hl Hd]]]; [discriminate|].
    exists d'; rewrite lastChar_cons2; split; assumption.
Qed.

Lemma Trim_edge (s cs : string) : Trim s cs = EmptyString \/ edgeFree cs (Trim s cs).
Proof.
  unfold Trim.
  destruct (TrimLeft_head s cs) as [->|[c [u [-> Hc]]]]; [left; reflexivity|].
  destruct (TrimRight_head c u cs Hc) as [u' Hu]; rewrite Hu.
  right; destruct (TrimRight_last (String c u) cs) as [H|[d [Hl Hd]]];
    rewrite Hu in *; [discriminate|].
  unfold edgeFree; rewrite Hl; split; assumption.
Qed.

Lemma inCutset_app_l (a b : string) (c : ascii) :
  inCutset a c = true -> inCutset (a ++ b) c = true.
Proof.
  induction a as [|d a IH]; simpl; [discriminate|].
  intros H; apply orb_true_iff in H as [H|H];
    apply orb_true_iff; [left | right; apply IH]; exact H.
Qed.

Lemma TrimLeft_sub (a b s : string) :
  (forall c, inCutset a c = true -> inCutset b c = true) ->
  TrimLeft (TrimLeft s a) b = TrimLeft s b.
Proof.
  intros Hab; induction s as [|c s IH]; [reflexivity|]; simpl.
  destruct (inCutset a c) eqn:Ea.
  - rewrite (Hab c Ea); exact IH.
  - reflexivity.
Qed.

Lemma TrimRight_sub (a b s : string) :
  (forall c, inCutset a c = true -> inCutset b c = true) ->
  TrimRight (TrimRight s a) b = TrimRight s b.
Proof.
  intros Hab; induction s as [|c s IH]; [reflexivity|]; simpl.
  destruct (TrimRight s a) as [|d t] eqn:Ea; rewrite <- IH.
  - destruct (inCutset a c) eqn:Eac; simpl.
    + rewrite (Hab c Eac); reflexivity.
    + reflexivity.
  - reflexivity.
Qed.

Lemma TrimLeft_stop (x cs : string) :
  (match x with EmptyString => True | String c _ => inCutset cs c = false end) ->
  TrimLeft x cs = x.
Proof. destruct x as [|c x]; simpl; [reflexivity|]; intros H; rewrite H; reflexivity. Qed.

(** Trimming the two ends commutes. *)
Lemma TrimLeft_TrimRight (a b t : string) :
  TrimLeft (TrimRight t a) b = TrimRight (TrimLeft t b) a.
Proof.
  induction t as [|c t IH]; [reflexivity|].
  cbn [TrimLeft]; destruct (inCutset b c) eqn:Eb.
  - rewrite <- IH; cbn [TrimRight].
    destruct (TrimRight t a) as [|d u].
    + destruct (inCutset a c); simpl; [reflexivity | rewrite Eb; reflexivity].
    + simpl; rewrite Eb; reflexivity.
  - apply TrimLeft_stop; cbn [TrimRight].
    destruct (TrimRight t a); [destruct (inCutset a c)|]; exact I || exact Eb.
Qed.

Lemma Trim_sub (a b s : string) :
  (forall c, inCutset a c = true -> inCutset b c = true) ->
  Trim (Trim s a) b = Trim s b.
Proof.
  intros Hab; unfold Trim.
  rewrite TrimLeft_TrimRight, TrimLeft_sub, TrimRight_sub by exact Hab.
  reflexivity.
Qed.

Lemma decodeLine_consumes (removeCRLF : bool) (r : string) :
  match decodeLine removeCRLF r with
  | (_, _, err, r') =>
      (exists line, r = line ++ r')
      /\ (err = None -> String.length r' < String.length r)%nat
  end.
Proof.
  unfold decodeLine.
  pose proof (lineLoop_suffix (S (String.length r)) EmptyString r) as Hs.
  destruct (lineLoop _ _ _) as [buf r1]; destruct Hs as [Hc Hl].
  destruct (SplitN_colon buf) as [[p0 p1]|] eqn:Hsp; [|split; [exact Hc | discriminate]].
  destruct (SplitN_colon_parts _ _ _ Hsp) as [Hbuf _].
  assert (Hlt : (String.length r1 < String.length r)%nat)
    by (destruct Hl as [->|Hl]; [destruct p0; discriminate | exact Hl]).
  destruct removeCRLF; (split; [exact Hc | intros _; exact Hlt]).
Qed.

(** X2: when decodeLine succeeds, the key holds no colon and the reader has
    moved past what was read, by at least one byte. *)
Theorem decodeLine_ok (removeCRLF : bool) (r key value r' : string) :
  decodeLine removeCRLF r = (key, value, None, r') ->
  hasChar ":" key = false
  /\ (exists line, r = line ++ r')
  /\ (String.length r' < String.length r)%nat.
Proof.
  intros H; pose proof (decodeLine_consumes removeCRLF r) as Hc; rewrite H in Hc.
  destruct Hc as [Hs Hl]; split; [|split; [exact Hs | apply Hl; reflexivity]].
  revert H; unfold decodeLine; destruct (lineLoop _ _ _) as [buf r1].
  destruct (SplitN_colon buf) as [[p0 p1]|] eqn:Hsp; [|discriminate].
  destruct (SplitN_colon_parts _ _ _ Hsp) as [_ Hp0].
  destruct removeCRLF; simpl; intros H; injection H as <- _ _;
    apply Trim_keeps_out; exact Hp0.
Qed.

Lemma decodeLine_ok_witness :
  decodeLine true (linesLF ["DTSTART:20230101"; "END:VEVENT"])
    = ("DTSTART", "20230101", None, linesLF ["END:VEVENT"])
  /\ hasChar ":" "DTSTART" = false
  /\ (exists line, linesLF ["DTSTART:20230101"; "END:VEVENT"] = line ++ linesLF ["END:VEVENT"])
  /\ (String.length (linesLF ["END:VEVENT"])
      < String.length (linesLF ["DTSTART:20230101"; "END:VEVENT"]))%nat.
Proof.
  split; [reflexivity|].
  apply (decodeLine_ok true _ _ "20230101"); reflexivity.
Defined.

(** X3: a key or value that decodeLine returns is empty or neither starts
    nor ends with a byte of the cutset: " " when CRLF is preserved,
    " \r\n" otherwise. *)
Theorem decodeLine_trimmed (removeCRLF : bool) (r key value r' : string) :
  decodeLine removeCRLF r = (key, value, None, r') ->
  (key = EmptyString \/ edgeFree (if removeCRLF then cutSPCRLF else cutSP) key)
  /\ (value = EmptyString \/ edgeFree (if removeCRLF then cutSPCRLF else cutSP) value).
Proof.
  unfold decodeLine; intros H.
  destruct (lineLoop _ _ _) as [buf r1].
  destruct (SplitN_colon buf) as [[p0 p1]|]; [|discriminate].
  destruct removeCRLF; simpl in H; injection H as <- <- _; split; apply Trim_edge.
Qed.

Lemma decodeLine_trimmed_witness :
  decodeLine false (linesCRLF ["SUMMARY : Test "])
    = ("SUMMARY", "Test " ++ String CR NL, None, "")
  /\ ("SUMMARY" = EmptyString \/ edgeFree cutSP "SUMMARY")
  /\ ("Test " ++ String CR NL = EmptyString \/ edgeFree cutSP ("Test " ++ String CR NL)).
Proof.
  split; [reflexivity|].
  apply (decodeLine_trimmed false (linesCRLF ["SUMMARY : Test "]) _ _ ""); reflexivity.
Defined.

(** X4: decodeLine with CRLF removal returns what the CRLF-preserving call
    returns, with " \r\n" trimmed from both ends of key and value. *)
Theorem decodeLine_removeCRLF (r : string) :
  decodeLine true r =
  match decodeLine false r with
  | (k, v, err, r') => (Trim k cutSPCRLF, Trim v cutSPCRLF, err, r')
  end.
Proof.
  assert (Hsub : forall c, inCutset cutSP c = true -> inCutset cutSPCRLF c = true)
    by (intros c; change cutSPCRLF with (cutSP ++ String CR (String LF EmptyString));
        apply inCutset_app_l).
  unfold decodeLine; destruct (lineLoop _ _ _) as [buf r1].
  destruct (SplitN_colon buf) as [[p0 p1]|]; [|reflexivity].
  simpl; rewrite !(Trim_sub cutSP cutSPCRLF) by exact Hsub; reflexivity.
Qed.

(** *** What decode can fail with *)

Lemma ParseDate_err (v : string) :
  snd (ParseDate v) = None \/ snd (ParseDate v) = Some ErrDateParse.
Proof.
  unfold ParseDate.
  destruct (list_ascii_of_string v) as [|y1 [|y2 [|y3 [|y4 [|m1 [|m2 [|d1 [|d2 [|]]]]]]]]];
    try (right; reflexivity).
  repeat match goal with
         | |- context [match atoiDigits ?l ?a with _ => _ end] => destruct (atoiDigits l a)
         | |- context [if ?b then _ else _] => destruct b
         end; simpl; auto.
Qed.

Lemma decodeDate_err (v : string) :
  snd (decodeDate v) = None \/ snd (decodeDate v) = Some ErrDateParse.
Proof.
  unfold decodeDate; destruct (String.length v <? 8)%nat;
    [left; reflexivity | apply ParseDate_err].
Qed.

Lemma decodeLine_bad (removeCRLF : bool) (r : string) :
  match decodeLine removeCRLF r with
  | (key, value, Some _, _) => key = EmptyString /\ value = EmptyString
  | _ => True
  end.
Proof.
  unfold decodeLine; destruct (lineLoop _ _ _) as [buf r1].
  destruct (SplitN_colon buf) as [[p0 p1]|]; [destruct removeCRLF; exact I|].
  split; reflexivity.
Qed.

Lemma newEvent_noLF : noLFEvent newEvent.
Proof. repeat split. Qed.

Lemma eventStep_spec (e : Event) (key value : string) (err : option error) :
  match eventStep e key value err with
  | EvReturn e' => noLFEvent e -> noLFEvent e'
  | EvNext e' err' =>
      (noLFEvent e -> noLFEvent e')
      /\ (err' = err \/ err' = None \/ err' = Some ErrDateParse)
  end.
Proof.
  unfold eventStep; cbv zeta.
  pose proof (UnescapeText_no_LF value) as Hu.
  pose proof (decodeDate_err (UnescapeText value)) as Hd.
  destruct (decodeDate (UnescapeText value)) as [t err']; simpl in Hd.
  unfold noLFEvent, setUID, setStart, setEnd, setSummary, setLocation, setDescription.
  repeat match goal with |- context [if ?b then _ else _] => destruct b end;
    cbn [UID Start End Summary Location Description]; intuition.
Qed.

Lemma decodeEventLoop_spec (fuel : nat) (removeCRLF : bool) (e : Event) (r : string) :
  (String.length r < fuel)%nat ->
  match decodeEventLoop fuel removeCRLF e r with
  | (res, r2) =>
      (exists line, r = line ++ r2)
      /\ match res with
         | Ok e' => noLFEvent e -> noLFEvent e'
         | Err err => err = ErrBadLine \/ err = ErrDateParse
         end
  end.
Proof.
  revert e r; induction fuel as [|fuel IH]; intros e r Hlt; [lia|].
  cbn [decodeEventLoop].
  pose proof (decodeLine_err removeCRLF r) as Herr.
  pose proof (decodeLine_bad removeCRLF r) as Hbad.
  pose proof (decodeLine_consumes removeCRLF r) as Hcons.
  destruct (decodeLine removeCRLF r) as [[[key value] err] r1].
  destruct Hcons as [[l1 Hl1] Hlen].
  destruct err as [err|].
  - destruct Hbad as [-> ->].
    destruct Herr as [H|H]; [discriminate|injection H as ->].
    simpl; split; [exists l1; exact Hl1 | left; reflexivity].
  - specialize (Hlen eq_refl).
    pose proof (eventStep_spec e key value None) as Hst.
    destruct (eventStep e key value None) as [e'|e' [err'|]].
    + split; [exists l1; exact Hl1 | exact Hst].
    + destruct Hst as [_ [H|[H|H]]]; try discriminate.
      injection H as ->; simpl; split; [exists l1; exact Hl1 | right; reflexivity].
    + destruct Hst as [Hnl _].
      specialize (IH e' r1 ltac:(lia)).
      destruct (decodeEventLoop fuel removeCRLF e' r1) as [res r2].
      destruct IH as [[l2 Hl2] Hres]; split.
      * exists (l1 ++ l2); rewrite Hl1, Hl2, string_append_assoc; reflexivity.
      * destruct res; [intros He; apply Hres, Hnl, He | exact Hres].
Qed.

Lemma beginStep_spec (removeCRLF : bool) (c : option Calendar) (value r : string) :
  match beginStep removeCRLF c value r with
  | Ok (c2, r2) =>
      (exists line, r = line ++ r2)
      /\ (match c with Some c0 => Forall noLFEvent (Events c0) | None => True end ->
          Forall noLFEvent (Events c2))
  | Err err => err = ErrNoCalendar \/ err = ErrBadLine \/ err = ErrDateParse
  end.
Proof.
  pose proof (decodeEventLoop_spec (S (String.length r)) removeCRLF newEvent r
                (Nat.lt_succ_diag_r _)) as He.
  unfold beginStep, decodeEvent.
  destruct (decodeEventLoop (S (String.length r)) removeCRLF newEvent r) as [res r2].
  destruct He as [[l Hl] Hres].
  destruct c as [c0|]; [|destruct (negb (String.eqb value "VCALENDAR"))];
    cbv beta iota zeta; try (left; reflexivity);
    (destruct (String.eqb value "VEVENT");
     [destruct res as [e|err];
      [split; [exists l; exact Hl|]; intros Hc; apply Forall_app; split;
       [try exact Hc; constructor | constructor; [apply Hres, newEvent_noLF | constructor]]
      | right; exact Hres]
     | split; [exists EmptyString; reflexivity | intros Hc; try exact Hc; constructor]]).
Qed.

Lemma insertionSort_in (z : Event) (l : list Event) : In z (sortSort l) -> In z l.
Proof. exact (Permutation_in z (sortSort_perm l)). Qed.

Lemma decodeLoop_spec (fuel : nat) (removeCRLF : bool) (c : option Calendar) (r : string) :
  (String.length r < fuel)%nat ->
  match decodeLoop fuel removeCRLF c r with
  | Failed err => err = ErrBadLine \/ err = ErrNoCalendar \/ err = ErrDateParse
  | Decoded out =>
      match c with Some c0 => Forall noLFEvent (Events c0) | None => True end ->
      Forall noLFEvent (Events out)
  | Panicked => True
  end.
Proof.
  revert c r; induction fuel as [|fuel IH]; intros c r Hlt; [lia|].
  cbn [decodeLoop].
  pose proof (decodeLine_err removeCRLF r) as Herr.
  pose proof (decodeLine_consumes removeCRLF r) as Hcons.
  destruct (decodeLine removeCRLF r) as [[[key value] err] r1].
  destruct Hcons as [_ Hlen].
  destruct err as [err|].
  - destruct Herr as [H|H]; [discriminate | injection H as ->; left; reflexivity].
  - specialize (Hlen eq_refl).
    destruct (String.eqb key "BEGIN").
    + pose proof (beginStep_spec removeCRLF c value r1) as Hb.
      destruct (beginStep removeCRLF c value r1) as [[c2 r2]|err].
      * destruct Hb as [[l2 Hl2] Hinv].
        assert (Hlt2 : (String.length r2 < fuel)%nat)
          by (rewrite Hl2, string_length_app in Hlen; lia).
        destruct (String.eqb key "END" && String.eqb value "VCALENDAR").
        -- cbn [finish Events]; intros Hc.
           apply Forall_forall; intros z Hz; apply insertionSort_in in Hz.
           revert z Hz; apply Forall_forall, Hinv, Hc.
        -- specialize (IH (Some c2) r2 Hlt2).
           destruct (decodeLoop fuel removeCRLF (Some c2) r2);
             [intros Hc; apply IH, Hinv, Hc | exact IH | exact I].
      * cbv beta iota; intuition.
    + destruct (String.eqb key "END" && String.eqb value "VCALENDAR").
      * destruct c as [c0|]; [|exact I].
        cbn [finish Events]; intros Hc.
        apply Forall_forall; intros z Hz; apply insertionSort_in in Hz.
        revert z Hz; apply Forall_forall, Hc.
      * apply IH; lia.
Qed.

(** X6: when the first line that decode reads is a BEGIN whose value is not
    VCALENDAR (a VEVENT among them), decode fails with the
    missing-calendar error. *)
Theorem decode_begin_not_calendar (removeCRLF : bool) (r value r1 : string) :
  decodeLine removeCRLF r = ("BEGIN", value, None, r1) ->
  value <> "VCALENDAR" ->
  decode removeCRLF r = Failed ErrNoCalendar.
Proof.
  intros H Hv; apply String.eqb_neq in Hv.
  unfold decode; cbn [decodeLoop]; rewrite H.
  unfold beginStep; rewrite Hv; reflexivity.
Qed.

Lemma decode_begin_not_calendar_witness :
  decodeLine true (linesLF ["BEGIN:VEVENT"; "END:VEVENT"])
    = ("BEGIN", "VEVENT", None, linesLF ["END:VEVENT"])
  /\ "VEVENT" <> "VCALENDAR"
  /\ Decode (linesLF ["BEGIN:VEVENT"; "END:VEVENT"]) = Failed ErrNoCalendar.
Proof.
  split; [reflexivity|]; split; [discriminate|].
  apply (decode_begin_not_calendar true _ "VEVENT" (linesLF ["END:VEVENT"]));
    [reflexivity | discriminate].
Defined.

(** X12: no text field of an event that decode returns holds a newline. *)
Theorem decode_events_no_newline (removeCRLF : bool) (input : string) (c : Calendar) :
  decode removeCRLF input = Decoded c -> Forall noLFEvent (Events c).
Proof.
  intros H.
  pose proof (decodeLoop_spec (S (String.length input)) removeCRLF None input
                (Nat.lt_succ_diag_r _)) as Hs.
  unfold decode in H; rewrite H in Hs; exact (Hs I).
Qed.

Lemma decode_events_no_newline_witness :
  Decode (linesLF minimalLines)
    = Decoded (mkCalendar [mkEvent "1@test" (mkTime 2023 1 1) (mkTime 2023 1 2) "Test" "" ""])
  /\ Forall noLFEvent
       (Events (mkCalendar [mkEvent "1@test" (mkTime 2023 1 1) (mkTime 2023 1 2) "Test" "" ""])).
Proof.
  split; [vm_compute; reflexivity|].
  apply (decode_events_no_newline true (linesLF minimalLines)).
  vm_compute; reflexivity.
Defined.

(** *** The sort *)

Lemma insertRev_perm (x : Event) (acc : list Event) :
  Permutation (insertRev x acc) (x :: acc).
Proof.
  induction acc as [|y ys IH]; simpl; [reflexivity|].
  destruct (Less x y); [|reflexivity].
  etransitivity; [apply perm_skip, IH | apply perm_swap].
Qed.

(** X10: the sort of eventList rearranges the events: it neither drops nor
    duplicates one. *)
Theorem insertionSort_permutation (l : list Event) : Permutation (sortSort l) l.
Proof. exact (sortSort_perm l). Qed.

Lemma insertRev_unset (x : Event) (acc : list Event) :
  unsetStart x = true -> insertRev x acc = (acc ++ [x])%list.
Proof.
  intros Hx; induction acc as [|y ys IH]; simpl; [reflexivity|].
  unfold Less; unfold unsetStart in Hx; rewrite Hx, IH; reflexivity.
Qed.

Lemma insertRev_split (x : Event) (acc : list Event) :
  exists l1 l2, acc = (l1 ++ l2)%list /\ insertRev x acc = (l1 ++ x :: l2)%list.
Proof.
  induction acc as [|y ys IH]; simpl; [exists [], []; split; reflexivity|].
  destruct (Less x y).
  - destruct IH as [l1 [l2 [-> ->]]]; exists (y :: l1), l2; split; reflexivity.
  - exists [], (y :: ys); split; reflexivity.
Qed.

Lemma filter_rev_comm {A} (f : A -> bool) (l : list A) :
  filter f (rev l) = rev (filter f l).
Proof.
  induction l as [|a l IH]; simpl; [reflexivity|].
  rewrite filter_app, IH; simpl; destruct (f a); simpl; [reflexivity | apply app_nil_r].
Qed.

(** On at most 12 events [sort.Sort] runs [insertionSort(data, 0, n)],
    which is the fold [insertionSort]. *)
Lemma setNth_app (p q : list Event) (k : nat) (v : Event) :
  GoSort.setNth Event (p ++ q) (length p + k) v = (p ++ GoSort.setNth Event q k v)%list.
Proof. induction p as [|h p IH]; simpl; [reflexivity | rewrite IH; reflexivity]. Qed.

Lemma nth_error_mid (p r : list Event) (x : Event) :
  nth_error (p ++ x :: r) (length p) = Some x.
Proof. rewrite nth_error_app2, Nat.sub_diag by lia; reflexivity. Qed.

Lemma nth_error_mid2 (p r : list Event) (x y : Event) :
  nth_error (p ++ y :: x :: r) (S (length p)) = Some x.
Proof.
  rewrite nth_error_app2 by lia.
  replace (S (length p) - length p)%nat with 1%nat by lia; reflexivity.
Qed.

Lemma swapAt_adj (p r : list Event) (x y : Event) :
  GoSort.swapAt Event (p ++ y :: x :: r) (S (length p)) (length p)
  = (p ++ x :: y :: r)%list.
Proof.
  unfold GoSort.swapAt; rewrite nth_error_mid2, nth_error_mid.
  replace (S (length p)) with (length p + 1)%nat by lia.
  rewrite setNth_app; cbn [GoSort.setNth].
  rewrite <- (Nat.add_0_r (length p)), setNth_app; reflexivity.
Qed.

Lemma insertRev_length (x : Event) (acc : list Event) :
  length (insertRev x acc) = S (length acc).
Proof.
  induction acc as [|y ys IH]; simpl; [reflexivity|].
  destruct (Less x y); simpl; [rewrite IH|]; reflexivity.
Qed.

Lemma insertionSortInner_insertRev (acc rest : list Event) (x : Event) :
  GoSort.insertionSortInner Event Less (length acc) 0 (rev acc ++ x :: rest)
  = (rev (insertRev x acc) ++ rest)%list.
Proof.
  revert rest; induction acc as [|y ys IH]; intros rest; [reflexivity|].
  cbn [length rev]; rewrite <- app_assoc; cbn [app].
  cbn [GoSort.insertionSortInner]; unfold GoSort.lessAt.
  rewrite <- (length_rev ys), nth_error_mid2, nth_error_mid.
  cbn [andb Nat.ltb Nat.leb insertRev].
  destruct (Less x y).
  - rewrite swapAt_adj, length_rev, IH; cbn [rev]; rewrite <- app_assoc; reflexivity.
  - cbn [rev]; rewrite <- !app_assoc; reflexivity.
Qed.

Lemma insertionSortOuter_fold (rest acc : list Event) :
  GoSort.insertionSortOuter Event Less (length rest) (length acc) 0 (rev acc ++ rest)
  = rev (fold_left (fun acc x => insertRev x acc) rest acc).
Proof.
  revert acc; induction rest as [|x r IH]; intros acc.
  - cbn [length GoSort.insertionSortOuter fold_left]; apply app_nil_r.
  - cbn [length GoSort.insertionSortOuter fold_left].
    rewrite insertionSortInner_insertRev, <- (insertRev_length x acc); apply IH.
Qed.

Lemma sortSort_small (l : list Event) :
  (length l <= 12)%nat -> sortSort l = insertionSort l.
Proof.
  intros H; unfold sortSort, GoSort.Sort; cbv zeta.
  destruct l as [|x r]; [reflexivity|].
  destruct (length (x :: r) <=? 1)%nat eqn:E.
  - apply Nat.leb_le in E; destruct r; [reflexivity | simpl in E; lia].
  - cbn [GoSort.pdqsort]; rewrite Nat.sub_0_r.
    apply Nat.leb_le in H; rewrite H.
    unfold GoSort.insertionSort, insertionSort.
    replace (length (x :: r) - 1)%nat with (length r) by (simpl; lia).
    change (x :: r) with (rev [x] ++ r)%list at 1.
    change 1%nat with (length [x]).
    rewrite insertionSortOuter_fold; reflexivity.
Qed.

(** X11: on at most 12 events, the events whose Start is unset come out of
    the sort in the reverse of their input order. *)
Theorem insertionSort_unset_reversed (l : list Event) :
  (length l <= 12)%nat ->
  filter unsetStart (sortSort l) = rev (filter unsetStart l).
Proof.
  intros Hn; rewrite sortSort_small by exact Hn.
  unfold insertionSort; rewrite filter_rev_comm; f_equal.
  assert (Hg : forall acc,
             filter unsetStart (fold_left (fun acc x => insertRev x acc) l acc)
             = (filter unsetStart acc ++ filter unsetStart l)%list).
  { clear Hn; induction l as [|x l IH]; intros acc; simpl; [symmetry; apply app_nil_r|].
    rewrite IH; destruct (unsetStart x) eqn:Hx.
    - rewrite insertRev_unset by exact Hx; rewrite filter_app, <- app_assoc; simpl.
      rewrite Hx; reflexivity.
    - destruct (insertRev_split x acc) as [l1 [l2 [-> ->]]].
      rewrite !filter_app; simpl; rewrite Hx; reflexivity. }
  apply Hg.
Qed.

Lemma insertionSort_unset_reversed_witness :
  let ev u d := mkEvent u d zeroTime "" "" "" in
  filter unsetStart
    (sortSort [ev "a" zeroTime; ev "b" (mkTime 2023 1 1); ev "c" zeroTime; ev "d" zeroTime])
  = [ev "d" zeroTime; ev "c" zeroTime; ev "a" zeroTime].
Proof.
  intros ev.
  apply (insertionSort_unset_reversed
           [ev "a" zeroTime; ev "b" (mkTime 2023 1 1); ev "c" zeroTime; ev "d" zeroTime]).
  simpl; lia.
Defined.

(** *** decodeDate *)

Lemma substring_full (s : string) : substring 0 (String.length s) s = s.
Proof. induction s as [|c s IH]; simpl; [reflexivity | rewrite IH; reflexivity]. Qed.

Lemma substring_app (s t : string) : substring 0 (String.length s) (s ++ t) = s.
Proof. induction s as [|c s IH]; simpl; [destruct t; reflexivity | rewrite IH; reflexivity]. Qed.

Lemma decodeDate_len8 (s : string) :
  String.length s = 8%nat -> decodeDate s = ParseDate s.
Proof.
  intros H; unfold decodeDate; rewrite H; cbn [Nat.ltb Nat.leb].
  rewrite <- H, substring_full; reflexivity.
Qed.

(** X7: decodeDate reads the first eight bytes of its value only: a value
    of eight bytes followed by anything decodes as the eight bytes alone. *)
Theorem decodeDate_prefix8 (d rest : string) :
  String.length d = 8%nat -> decodeDate (d ++ rest) = decodeDate d.
Proof.
  intros H; rewrite (decodeDate_len8 d H); unfold decodeDate.
  rewrite string_length_app, H; cbn [Nat.ltb Nat.leb Nat.add].
  rewrite <- H, substring_app; reflexivity.
Qed.

Lemma decodeDate_prefix8_witness :
  String.length "20230101" = 8%nat
  /\ decodeDate ("20230101" ++ "T150405Z") = decodeDate "20230101".
Proof. split; [reflexivity | apply decodeDate_prefix8; reflexivity]. Defined.

Lemma digitVal_range (c : ascii) (d : Z) : digitVal c = Some d -> (0 <= d <= 9)%Z.
Proof.
  unfold digitVal; destruct ((48 <=? nat_of_ascii c)%nat && (nat_of_ascii c <=? 57)%nat) eqn:E;
    [|discriminate].
  intros H; injection H as <-; apply andb_true_iff in E as [E1 E2].
  apply Nat.leb_le in E1; apply Nat.leb_le in E2; lia.
Qed.

Lemma atoiDigits_bound (cs : list ascii) (acc n : Z) :
  atoiDigits cs acc = Some n -> (0 <= acc)%Z ->
  (0 <= n < (acc + 1) * 10 ^ Z.of_nat (length cs))%Z.
Proof.
  revert acc; induction cs as [|c cs IH]; intros acc H Hacc; simpl in H.
  - injection H as <-; simpl; lia.
  - destruct (digitVal c) as [d|] eqn:Ed; [|discriminate].
    apply digitVal_range in Ed.
    specialize (IH _ H ltac:(lia)).
    assert (Hp : (0 < 10 ^ Z.of_nat (length cs))%Z) by (apply Z.pow_pos_nonneg; lia).
    cbn [length]; rewrite Nat2Z.inj_succ, Z.pow_succ_r by lia; nia.
Qed.

Lemma daysIn_range (m y : Z) : (28 <= daysIn m y <= 31)%Z.
Proof.
  unfold daysIn.
  repeat match goal with |- context [if ?b then _ else _] => destruct b end; lia.
Qed.

(** X8: what decodeDate returns: with no error, either the unset time for a
    value shorter than eight bytes or a valid date (year 0 to 9999, month 1
    to 12, day within the month); with an error, the unset time and a date
    parse error. *)
Theorem decodeDate_result (v : string) :
  match decodeDate v with
  | (t, None) =>
      ((String.length v < 8)%nat /\ t = zeroTime)
      \/ ((0 <= year t <= 9999)%Z /\ (1 <= month t <= 12)%Z
          /\ (1 <= day t <= daysIn (month t) (year t))%Z)
  | (t, Some err) => t = zeroTime /\ err = ErrDateParse
  end.
Proof.
  unfold decodeDate; destruct (String.length v <? 8)%nat eqn:E.
  - left; split; [apply Nat.ltb_lt; exact E | reflexivity].
  - unfold ParseDate.
    destruct (list_ascii_of_string (substring 0 8 v))
      as [|y1 [|y2 [|y3 [|y4 [|m1 [|m2 [|d1 [|d2 [|]]]]]]]]];
      try (split; reflexivity).
    destruct (atoiDigits [y1; y2; y3; y4] 0) as [y|] eqn:Hy; [|split; reflexivity].
    destruct (atoiDigits [m1; m2] 0) as [m|] eqn:Hm; [|split; reflexivity].
    destruct (atoiDigits [d1; d2] 0) as [d|] eqn:Hd; [|split; reflexivity].
    apply atoiDigits_bound in Hy; [|lia]; simpl in Hy.
    destruct (Z.ltb m 1 || Z.ltb 12 m) eqn:Em; [split; reflexivity|].
    destruct (Z.ltb d 1 || Z.ltb (daysIn m y) d) eqn:Ed; [split; reflexivity|].
    apply orb_false_iff in Em as [Em1 Em2]; apply orb_false_iff in Ed as [Ed1 Ed2].
    apply Z.ltb_ge in Em1, Em2, Ed1, Ed2.
    right; cbn [year month day]; lia.
Qed.

Lemma digitVal_digitChar (k : Z) : (0 <= k <= 9)%Z -> digitVal (digitChar k) = Some k.
Proof.
  intros Hk; unfold digitVal, digitChar.
  rewrite Ascii.nat_ascii_embedding by lia.
  replace ((48 <=? 48 + Z.to_nat k)%nat && (48 + Z.to_nat k <=? 57)%nat) with true
    by (symmetry; apply andb_true_iff; split; apply Nat.leb_le; lia).
  f_equal; lia.
Qed.

Lemma zeros_snoc (n : nat) :
  zeros n ++ String "0" EmptyString = String "0" (zeros n).
Proof. induction n as [|n IH]; simpl; [reflexivity | rewrite IH; reflexivity]. Qed.

Lemma padDigits_zero (k : nat) : padDigits k 0 = zeros k.
Proof.
  induction k as [|k IH]; [reflexivity|].
  destruct k as [|k]; [reflexivity|].
  change (padDigits (S (S k)) 0) with (padDigits (S k) (0 / 10) ++ String (digitChar (0 mod 10)) EmptyString).
  rewrite Z.div_0_l, Z.mod_0_l by lia; rewrite IH; apply zeros_snoc.
Qed.

Lemma decimalDigits_pad (k : nat) (u : Z) (f : nat) :
  (0 <= u < 10 ^ Z.of_nat (S k))%Z -> (Z.to_nat u < f)%nat ->
  (String.length (decimalDigits f u) <= S k)%nat
  /\ zeros (S k - String.length (decimalDigits f u)) ++ decimalDigits f u
     = padDigits (S k) u.
Proof.
  revert u f; induction k as [|k IH]; intros u f Hu Hf;
    (destruct f as [|f]; [lia|]).
  - simpl in Hu; cbn [decimalDigits].
    replace (u <? 10)%Z with true by (symmetry; apply Z.ltb_lt; lia).
    split; reflexivity.
  - cbn [decimalDigits]; destruct (u <? 10)%Z eqn:E.
    + apply Z.ltb_lt in E; cbn [String.length]; split; [lia|].
      replace (S (S k) - 1)%nat with (S k) by lia.
      change (padDigits (S (S k)) u)
        with (padDigits (S k) (u / 10) ++ String (digitChar (u mod 10)) EmptyString).
      rewrite Z.div_small, Z.mod_small, padDigits_zero by lia.
      reflexivity.
    + apply Z.ltb_ge in E.
      assert (Hq : (0 <= u / 10 < 10 ^ Z.of_nat (S k))%Z).
      { split; [apply Z.div_pos; lia|].
        apply Z.div_lt_upper_bound; [lia|].
        rewrite <- Z.pow_succ_r by lia; rewrite <- Nat2Z.inj_succ; lia. }
      assert (Hfq : (Z.to_nat (u / 10) < f)%nat).
      { assert (u / 10 < u)%Z by (apply Z.div_lt; lia). lia. }
      destruct (IH (u / 10)%Z f Hq Hfq) as [Hl He].
      rewrite string_length_app; cbn [String.length]; split; [lia|].
      replace (S (S k) - (String.length (decimalDigits f (u / 10)) + 1))%nat
        with (S k - String.length (decimalDigits f (u / 10)))%nat by lia.
      rewrite <- string_append_assoc, He; reflexivity.
Qed.

Lemma appendInt_pad (x : Z) (w : nat) :
  (1 <= w)%nat -> (0 <= x < 10 ^ Z.of_nat w)%Z -> appendInt x w = padDigits w x.
Proof.
  intros Hw Hx; destruct w as [|k]; [lia|].
  unfold appendInt; cbv zeta.
  replace (x <? 0)%Z with false by (symmetry; apply Z.ltb_ge; lia).
  rewrite Z.abs_eq by lia.
  apply (decimalDigits_pad k x (S (Z.to_nat x)) Hx); lia.
Qed.

Lemma atoi4 (y : Z) :
  (0 <= y <= 9999)%Z ->
  atoiDigits [digitChar (y / 10 / 10 / 10); digitChar (y / 10 / 10 mod 10);
              digitChar (y / 10 mod 10); digitChar (y mod 10)] 0 = Some y.
Proof.
  intros Hy; cbn [atoiDigits].
  assert (H1 : (0 <= y / 10 / 10 / 10 <= 9)%Z) by (Z.div_mod_to_equations; lia).
  rewrite (digitVal_digitChar _ H1).
  rewrite !digitVal_digitChar by (Z.div_mod_to_equations; lia).
  f_equal; Z.div_mod_to_equations; lia.
Qed.

Lemma atoi2 (m : Z) :
  (0 <= m <= 99)%Z ->
  atoiDigits [digitChar (m / 10); digitChar (m mod 10)] 0 = Some m.
Proof.
  intros Hm; cbn [atoiDigits].
  rewrite !digitVal_digitChar by (Z.div_mod_to_equations; lia).
  f_equal; Z.div_mod_to_equations; lia.
Qed.

(** X9: decodeDate inverts the eight-byte YYYYMMDD form of a valid date
    (year 0 to 9999, month 1 to 12, day within the month). *)
Theorem decodeDate_fmtDate (y m d : Z) :
  (0 <= y <= 9999)%Z -> (1 <= m <= 12)%Z -> (1 <= d <= daysIn m y)%Z ->
  decodeDate (fmtDate y m d) = (mkTime y m d, None).
Proof.
  intros Hy Hm Hd; pose proof (daysIn_range m y) as Hdays.
  unfold fmtDate.
  rewrite (appendInt_pad y 4), (appendInt_pad m 2), (appendInt_pad d 2) by (cbn; lia).
  rewrite decodeDate_len8 by reflexivity.
  unfold ParseDate; cbn [padDigits append list_ascii_of_string].
  rewrite atoi4, !atoi2 by lia.
  replace ((m <? 1) || (12 <? m))%Z with false
    by (symmetry; apply orb_false_iff; split; apply Z.ltb_ge; lia).
  replace ((d <? 1) || (daysIn m y <? d))%Z with false
    by (symmetry; apply orb_false_iff; split; apply Z.ltb_ge; lia).
  reflexivity.
Qed.

Lemma decodeDate_fmtDate_witness :
  ((0 <= 2024 <= 9999)%Z /\ (1 <= 2 <= 12)%Z /\ (1 <= 29 <= daysIn 2 2024)%Z)
  /\ decodeDate (fmtDate 2024 2 29) = (mkTime 2024 2 29, None).
Proof.
  split; [vm_compute; repeat split; discriminate|].
  apply decodeDate_fmtDate; vm_compute; split; discriminate.
Defined.

(** *** Event.String *)

Lemma SplitLF_noLF (s : string) : hasChar LF s = false -> SplitLF s = [s].
Proof.
  induction s as [|c s IH]; intros H; [reflexivity|].
  cbn [hasChar] in H; apply orb_false_iff in H as [Hc H].
  cbn [SplitLF]; rewrite Ascii.eqb_sym, Hc, IH by exact H; reflexivity.
Qed.

Lemma SplitLF_app (s t : string) :
  hasChar LF s = false -> SplitLF (s ++ NL ++ t) = s :: SplitLF t.
Proof.
  induction s as [|c s IH]; intros H; [reflexivity|].
  cbn [hasChar] in H; apply orb_false_iff in H as [Hc H].
  cbn [SplitLF append]; rewrite Ascii.eqb_sym, Hc, IH by exact H; reflexivity.
Qed.

Lemma digitChar_noLF (k : Z) : (0 <= k <= 9)%Z -> Ascii.eqb LF (digitChar k) = false.
Proof.
  intros Hk; apply Ascii.eqb_neq; intros H.
  apply (f_equal nat_of_ascii) in H; unfold digitChar in H.
  rewrite Ascii.nat_ascii_embedding in H by lia.
  change (nat_of_ascii LF) with 10%nat in H; lia.
Qed.

Lemma decimalDigits_noLF (f : nat) (u : Z) :
  (0 <= u)%Z -> hasChar LF (decimalDigits f u) = false.
Proof.
  revert u; induction f as [|f IH]; intros u Hu; [reflexivity|].
  cbn [decimalDigits]; destruct (u <? 10)%Z eqn:E.
  - apply Z.ltb_lt in E; cbn [hasChar]; rewrite digitChar_noLF by lia; reflexivity.
  - rewrite hasChar_app, IH by (apply Z.div_pos; lia); cbn [hasChar].
    rewrite digitChar_noLF by (pose proof (Z.mod_pos_bound u 10); lia); reflexivity.
Qed.

Lemma zeros_noLF (n : nat) : hasChar LF (zeros n) = false.
Proof. induction n as [|n IH]; [reflexivity | exact IH]. Qed.

Lemma appendInt_noLF (x : Z) (w : nat) : hasChar LF (appendInt x w) = false.
Proof.
  unfold appendInt; cbv zeta.
  rewrite !hasChar_app, zeros_noLF, decimalDigits_noLF by lia.
  destruct (x <? 0)%Z; reflexivity.
Qed.

Lemma TimeString_noLF (t : Time) : hasChar LF (TimeString t) = false.
Proof. unfold TimeString; rewrite !hasChar_app, !appendInt_noLF; reflexivity. Qed.

(** X19: in decodeEvent, a DTSTART or DTEND line whose unescaped value
    does not parse as a date ends the call with the date parse error, and
    the reader is left after that line. *)
Theorem decodeEvent_bad_date (fuel : nat) (removeCRLF : bool) (e : Event)
  (r key value r1 : string) :
  decodeLine removeCRLF r = (key, value, None, r1) ->
  fixDateKey key = "DTSTART" \/ fixDateKey key = "DTEND" ->
  snd (decodeDate (UnescapeText value)) = Some ErrDateParse ->
  decodeEventLoop (S fuel) removeCRLF e r = (Err ErrDateParse, r1).
Proof.
  intros H Hkey Hd; cbn [decodeEventLoop]; rewrite H.
  unfold eventStep; cbv zeta.
  destruct (decodeDate (UnescapeText value)) as [t err']; simpl in Hd; subst err'.
  destruct Hkey as [-> | ->]; reflexivity.
Qed.

Lemma decodeEvent_bad_date_witness :
  decodeLine true (linesLF ["DTSTART:20230230"; "END:VEVENT"])
    = ("DTSTART", "20230230", None, linesLF ["END:VEVENT"])
  /\ decodeEvent true (linesLF ["DTSTART:20230230"; "END:VEVENT"])
     = (Err ErrDateParse, linesLF ["END:VEVENT"]).
Proof.
  split; [reflexivity|].
  apply (decodeEvent_bad_date _ true newEvent _ "DTSTART" "20230230");
    [reflexivity | left; reflexivity | vm_compute; reflexivity].
Defined.

(** *** The earlier variant (part_000) *)

Lemma V0_ReadLine_progress (r b r1 : string) :
  V0.ReadLine r = (b, false, None, r1) -> (String.length r1 < String.length r)%nat.
Proof.
  intros H; unfold V0.ReadLine in H.
  pose proof (ReadBytes_split r) as Hs.
  destruct (ReadBytes r) as [[b0 err] rest]; destruct Hs as [Hr [Hne Hemp]].
  destruct (V0.bufSize <=? _)%nat.
  - destruct (V0.lastChar _) as [c|]; [destruct (Ascii.eqb c CR)|]; discriminate.
  - destruct err as [e|].
    + destruct b0 as [|c0 b0']; [discriminate|].
      inversion H; subst; try rewrite Hr; rewrite string_length_app; simpl; lia.
    + specialize (Hne eq_refl).
      assert (Hlt : (String.length rest < String.length r)%nat)
        by (rewrite Hr, string_length_app; destruct b0; [congruence | simpl; lia]).
      destruct (V0.lastChar _) as [c|]; [destruct (Ascii.eqb c CR)|];
        inversion H; subst; exact Hlt.
Qed.

Lemma V0_lineLoop_fuel (f1 f2 : nat) (buf r : string) :
  (String.length r < f1)%nat -> (String.length r < f2)%nat ->
  V0.lineLoop f1 buf r = V0.lineLoop f2 buf r.
Proof.
  revert f2 buf r; induction f1 as [|f1 IH]; intros f2 buf r H1 H2; [lia|].
  destruct f2 as [|f2]; [lia|].
  cbn [V0.lineLoop].
  destruct (V0.ReadLine r) as [[[b isPrefix] err] r1] eqn:Hrl.
  destruct err; [reflexivity|]; destruct isPrefix; [reflexivity|].
  pose proof (V0_ReadLine_progress r b r1 Hrl) as Hp.
  destruct b as [|c b']; [apply IH; lia|].
  destruct (Peek1 r1) as [c'|]; [destruct (Ascii.eqb c' SP); [apply IH; lia|]|]; reflexivity.
Qed.

Lemma V0_lineLoop_blankLF (f : nat) (r : string) :
  V0.lineLoop (S f) EmptyString (String LF r) = V0.lineLoop f EmptyString r.
Proof. reflexivity. Qed.

Lemma V0_lineLoop_blankCRLF (f : nat) (r : string) :
  V0.lineLoop (S f) EmptyString (String CR (String LF r)) = V0.lineLoop f EmptyString r.
Proof. reflexivity. Qed.

Lemma V0_decodeLine_blankLF (r : string) : V0.decodeLine (NL ++ r) = V0.decodeLine r.
Proof. reflexivity. Qed.

Lemma V0_decodeLine_blankCRLF (r : string) :
  V0.decodeLine (String CR NL ++ r) = V0.decodeLine r.
Proof.
  unfold V0.decodeLine.
  change (String CR NL ++ r) with (String CR (String LF r)).
  change (String.length (String CR (String LF r))) with (S (S (String.length r))).
  rewrite V0_lineLoop_blankCRLF.
  rewrite (V0_lineLoop_fuel (S (S (String.length r))) (S (String.length r))) by lia.
  reflexivity.
Qed.

(** X14: the earlier decodeLine skips a blank line, whether it ends in
    "\n" or in "\r\n": the call returns what it returns on the rest. *)
Theorem V0_blank_line_skipped (r : string) :
  V0.decodeLine (NL ++ r) = V0.decodeLine r
  /\ V0.decodeLine (String CR NL ++ r) = V0.decodeLine r.
Proof. split; [apply V0_decodeLine_blankLF | apply V0_decodeLine_blankCRLF]. Qed.

(** X17: an input made of blank lines only, each ended by "\n" or by
    "\r\n" in any mix, the empty input included, makes the earlier Decode
    fail with io.ErrUnexpectedEOF. *)
Theorem V0_blank_input_unexpected_eof (ends : list bool) :
  V0.Decode (blankLines ends) = V0.Failed V0.ErrUnexpectedEOF.
Proof.
  assert (Hl : V0.decodeLine (blankLines ends)
               = (EmptyString, EmptyString, Some V0.ErrUnexpectedEOF, EmptyString)).
  { induction ends as [|crlf ends IH]; [reflexivity|].
    cbn [blankLines fold_right]; fold (blankLines ends).
    destruct crlf; cbn [eol];
      [rewrite V0_decodeLine_blankCRLF | rewrite V0_decodeLine_blankLF]; exact IH. }
  unfold V0.Decode; cbn [V0.decodeLoop]; rewrite Hl; reflexivity.
Qed.

Lemma ReadBytes_line (s t : string) :
  hasChar LF s = false -> ReadBytes (s ++ NL ++ t) = (s ++ NL, None, t).
Proof.
  induction s as [|c s IH]; intros H; [reflexivity|].
  cbn [hasChar] in H; apply orb_false_iff in H as [Hc H].
  cbn [append ReadBytes]; rewrite Ascii.eqb_sym, Hc, IH by exact H; reflexivity.
Qed.

Lemma chopLast_snoc (s : string) (c : ascii) :
  V0.chopLast (s ++ String c EmptyString) = s.
Proof.
  induction s as [|d s IH]; [reflexivity|].
  destruct s as [|e s]; [reflexivity|].
  cbn [append] in *.
  change (V0.chopLast (String d (String e (s ++ String c EmptyString))))
    with (String d (V0.chopLast (String e (s ++ String c EmptyString)))).
  rewrite IH; reflexivity.
Qed.

Lemma chopLast_length (s : string) :
  String.length (V0.chopLast s) = pred (String.length s).
Proof.
  induction s as [|d s IH]; [reflexivity|].
  destruct s as [|e s]; [reflexivity|].
  change (V0.chopLast (String d (String e s))) with (String d (V0.chopLast (String e s))).
  cbn [String.length] in *; rewrite IH; reflexivity.
Qed.

Lemma V0_ReadLine_line (s t : string) :
  hasChar LF s = false -> (String.length s < V0.bufSize)%nat ->
  V0.lastChar s <> Some CR ->
  V0.ReadLine (s ++ NL ++ t) = (s, false, None, t).
Proof.
  intros Hs Hlen Hcr; unfold V0.ReadLine; rewrite ReadBytes_line by exact Hs.
  cbv beta iota zeta; unfold NL; rewrite chopLast_snoc.
  replace (V0.bufSize <=? String.length s)%nat with false
    by (symmetry; apply Nat.leb_gt; exact Hlen).
  destruct (V0.lastChar s) as [c|]; [|reflexivity].
  destruct (Ascii.eqb c CR) eqn:E; [|reflexivity].
  apply Ascii.eqb_eq in E; subst c; contradiction.
Qed.

Lemma V0_lineLoop_head (f : nat) (buf r b r1 : string) :
  V0.ReadLine r = (b, false, None, r1) -> b <> EmptyString -> Peek1 b <> Some SP ->
  Peek1 r1 = Some SP ->
  V0.lineLoop (S f) buf r = V0.lineLoop f (buf ++ b) r1.
Proof.
  intros H Hb Hsp Hp; cbn [V0.lineLoop]; rewrite H.
  destruct b as [|c b']; [contradiction|].
  assert (Hc : Ascii.eqb c SP = false)
    by (apply Ascii.eqb_neq; intros ->; apply Hsp; reflexivity).
  cbv beta iota zeta; rewrite Hc, Hp; reflexivity.
Qed.

Lemma V0_lineLoop_last (f : nat) (buf r b' r1 : string) :
  V0.ReadLine r = (String SP b', false, None, r1) -> Peek1 r1 <> Some SP ->
  V0.lineLoop (S f) buf r = (None, buf ++ b', r1).
Proof.
  intros H Hp; cbn [V0.lineLoop]; rewrite H; cbv beta iota zeta.
  destruct (Peek1 r1) as [c'|]; [|reflexivity].
  destruct (Ascii.eqb c' SP) eqn:E; [|reflexivity].
  apply Ascii.eqb_eq in E; subst c'; contradiction.
Qed.

Lemma SplitN_colon_app (k t : string) :
  hasChar ":" k = false -> SplitN_colon (k ++ String ":" t) = Some (k, t).
Proof.
  induction k as [|c k IH]; intros H; [reflexivity|].
  cbn [hasChar] in H; apply orb_false_iff in H as [Hc H].
  cbn [append SplitN_colon]; rewrite Ascii.eqb_sym, Hc, IH by exact H; reflexivity.
Qed.

Lemma lastChar_app (s t : string) :
  t <> EmptyString -> V0.lastChar (s ++ t) = V0.lastChar t.
Proof.
  intros Ht; induction s as [|c s IH]; [reflexivity|].
  cbn [append]; rewrite <- IH.
  destruct (s ++ t) eqn:E; [destruct s; [contradiction | discriminate] | reflexivity].
Qed.

Lemma V0_ReadLine_eol (crlf : bool) (s t : string) :
  hasChar LF s = false -> (String.length (s ++ eol crlf) <= V0.bufSize)%nat ->
  (crlf = false -> V0.lastChar s <> Some CR) ->
  V0.ReadLine (s ++ eol crlf ++ t) = (s, false, None, t).
Proof.
  intros Hs Hlen Hcr; rewrite string_length_app in Hlen; destruct crlf.
  - replace (s ++ eol true ++ t) with ((s ++ String CR EmptyString) ++ NL ++ t)
      by (rewrite string_append_assoc; reflexivity).
    cbn [eol String.length NL] in Hlen.
    unfold V0.ReadLine; rewrite ReadBytes_line by (rewrite hasChar_app, Hs; reflexivity).
    cbv beta iota zeta; unfold NL; rewrite chopLast_snoc.
    replace (V0.bufSize <=? String.length (s ++ String CR EmptyString))%nat with false
      by (symmetry; apply Nat.leb_gt; rewrite string_length_app; cbn [String.length]; lia).
    rewrite lastChar_app by discriminate; cbn [V0.lastChar Ascii.eqb].
    rewrite chopLast_snoc; reflexivity.
  - cbn [eol String.length NL] in Hlen.
    apply V0_ReadLine_line; [exact Hs | lia | apply Hcr; reflexivity].
Qed.

(** X15: the earlier decodeLine joins a line folded once: a line
    "key:v1" followed by the continuation line " v2", each ended by "\n" or
    by "\r\n", gives the key and the value v1 ++ v2, with both line ends
    removed, and leaves the reader at the next line. *)
Theorem V0_folded_line_joined (crlf1 crlf2 : bool) (k v1 v2 rest : string) :
  hasChar ":" k = false ->
  hasChar LF (k ++ v1 ++ v2) = false ->
  Peek1 k <> Some SP ->
  (crlf1 = false -> V0.lastChar (":" ++ v1) <> Some CR) ->
  (crlf2 = false -> V0.lastChar (" " ++ v2) <> Some CR) ->
  (String.length (k ++ ":" ++ v1 ++ eol crlf1) <= V0.bufSize)%nat ->
  (String.length (" " ++ v2 ++ eol crlf2) <= V0.bufSize)%nat ->
  Peek1 rest <> Some SP ->
  V0.decodeLine (k ++ ":" ++ v1 ++ eol crlf1 ++ " " ++ v2 ++ eol crlf2 ++ rest)
  = (k, v1 ++ v2, None, rest).
Proof.
  intros Hk Hnl Hsp Hcr1 Hcr2 Hlen1 Hlen2 Hr.
  rewrite !hasChar_app in Hnl; apply orb_false_iff in Hnl as [Hnk Hnl];
    apply orb_false_iff in Hnl as [Hnv1 Hnv2].
  set (line1 := k ++ String ":" v1).
  set (rest2 := String SP v2 ++ eol crlf2 ++ rest).
  assert (HX : k ++ ":" ++ v1 ++ eol crlf1 ++ " " ++ v2 ++ eol crlf2 ++ rest
               = line1 ++ eol crlf1 ++ rest2)
    by (unfold line1, rest2; rewrite string_append_assoc; reflexivity).
  assert (H1 : V0.ReadLine (line1 ++ eol crlf1 ++ rest2) = (line1, false, None, rest2)).
  { apply V0_ReadLine_eol.
    - unfold line1; rewrite hasChar_app, Hnk; exact Hnv1.
    - unfold line1; rewrite string_append_assoc; exact Hlen1.
    - intros Hc; unfold line1; rewrite lastChar_app by discriminate; exact (Hcr1 Hc). }
  assert (H2 : V0.ReadLine rest2 = (String SP v2, false, None, rest))
    by (apply V0_ReadLine_eol; [exact Hnv2 | exact Hlen2 | exact Hcr2]).
  assert (Hb1 : line1 <> EmptyString) by (unfold line1; destruct k; discriminate).
  assert (Hs1 : Peek1 line1 <> Some SP)
    by (unfold line1; destruct k; [discriminate | exact Hsp]).
  unfold V0.decodeLine; rewrite HX.
  rewrite (V0_lineLoop_fuel (S (String.length (line1 ++ eol crlf1 ++ rest2)))
             (S (S (String.length (line1 ++ eol crlf1 ++ rest2))))) by lia.
  rewrite (V0_lineLoop_head _ _ _ _ _ H1 Hb1 Hs1 eq_refl).
  rewrite (V0_lineLoop_last _ _ _ _ _ H2 Hr).
  cbv beta iota; unfold line1; cbn [append]; rewrite string_append_assoc.
  cbn [append]; rewrite SplitN_colon_app by exact Hk; reflexivity.
Qed.

Lemma V0_folded_line_joined_witness :
  V0.decodeLine ("SUMMARY" ++ ":" ++ "Long" ++ eol true ++ " " ++ "Text" ++ eol false
                 ++ linesCRLF ["END:VEVENT"])
  = ("SUMMARY", "LongText", None, linesCRLF ["END:VEVENT"]).
Proof.
  apply V0_folded_line_joined;
    first [reflexivity | discriminate | (apply Nat.leb_le; reflexivity)
          | (intros H; discriminate H) | (intros _; discriminate)].
Defined.

(** X16: in the earlier decodeEvent, a DTSTART or DTEND line whose
    unescaped value is shorter than eight bytes makes the call panic (the
    slice [value[0:8]] is out of range). *)
Theorem V0_short_date_panics (fuel : nat) (e : Event) (r key value r1 : string) :
  V0.decodeLine r = (key, value, None, r1) ->
  fixDateKey key = "DTSTART" \/ fixDateKey key = "DTEND" ->
  (String.length (UnescapeText value) < 8)%nat ->
  V0.decodeEventLoop (S fuel) e r = (V0.Panic, r1).
Proof.
  intros H Hkey Hs; cbn [V0.decodeEventLoop]; rewrite H.
  unfold V0.eventStep, V0.dateStep, V0.decodeDate; cbv zeta.
  replace (String.length (UnescapeText value) <? 8)%nat with true
    by (symmetry; apply Nat.ltb_lt; exact Hs).
  destruct Hkey as [-> | ->]; reflexivity.
Qed.

Lemma V0_short_date_panics_witness :
  V0.decodeLine (linesLF ["DTSTART:2023"; "END:VEVENT"])
    = ("DTSTART", "2023", None, linesLF ["END:VEVENT"])
  /\ V0.decodeEvent (linesLF ["DTSTART:2023"; "END:VEVENT"])
     = (V0.Panic, linesLF ["END:VEVENT"]).
Proof.
  split; [reflexivity|].
  apply (V0_short_date_panics _ newEvent _ "DTSTART" "2023");
    [reflexivity | left; reflexivity | apply Nat.ltb_lt; reflexivity].
Defined.

Lemma ReadBytes_app_noLF (s t b : string) (err : option error) (rest : string) :
  hasChar LF s = false -> ReadBytes t = (b, err, rest) ->
  ReadBytes (s ++ t) = (s ++ b, err, rest).
Proof.
  intros Hs Ht; induction s as [|c s IH]; [exact Ht|].
  cbn [hasChar] in Hs; apply orb_false_iff in Hs as [Hc Hs].
  cbn [append ReadBytes]; rewrite Ascii.eqb_sym, Hc, IH by exact Hs; reflexivity.
Qed.

Lemma V0_ReadLine_long (s t : string) :
  hasChar LF s = false -> (V0.bufSize <= String.length s)%nat ->
  exists b r1, V0.ReadLine (s ++ t) = (b, true, None, r1).
Proof.
  intros Hs Hlen; unfold V0.ReadLine.
  pose proof (ReadBytes_split t) as Hsp.
  destruct (ReadBytes t) as [[b err] rest] eqn:E; destruct Hsp as [_ [Hne _]].
  rewrite (ReadBytes_app_noLF s t b err rest Hs E); cbv beta iota zeta.
  destruct err as [e|].
  - replace (V0.bufSize <=? String.length (s ++ b))%nat with true
      by (symmetry; apply Nat.leb_le; rewrite string_length_app; lia).
    destruct (V0.lastChar _) as [c|]; [destruct (Ascii.eqb c CR)|]; eexists; eexists; reflexivity.
  - specialize (Hne eq_refl).
    replace (V0.bufSize <=? String.length (V0.chopLast (s ++ b)))%nat with true
      by (symmetry; apply Nat.leb_le; rewrite chopLast_length, string_length_app;
          destruct b; [congruence | simpl; lia]).
    destruct (V0.lastChar _) as [c|]; [destruct (Ascii.eqb c CR)|]; eexists; eexists; reflexivity.
Qed.

(** X18: in the earlier decodeLine, a physical line of 4096 bytes or more
    (the size of the bufio buffer) is an error: "unexpected long line". *)
Theorem V0_long_line_error (s rest : string) :
  hasChar LF s = false -> (V0.bufSize <= String.length s)%nat ->
  exists r', V0.decodeLine (s ++ rest) = (EmptyString, EmptyString, Some V0.ErrLongLine, r').
Proof.
  intros Hs Hlen; destruct (V0_ReadLine_long s rest Hs Hlen) as [b [r1 HR]].
  exists r1; unfold V0.decodeLine; cbn [V0.lineLoop]; rewrite HR; reflexivity.
Qed.

Lemma V0_long_line_error_witness :
  hasChar LF (zeros 4096) = false
  /\ (V0.bufSize <= String.length (zeros 4096))%nat
  /\ exists r', V0.decodeLine (zeros 4096 ++ linesLF ["SUMMARY:x"])
                = (EmptyString, EmptyString, Some V0.ErrLongLine, r').
Proof.
  assert (H1 : hasChar LF (zeros 4096) = false) by (vm_compute; reflexivity).
  assert (H2 : (V0.bufSize <= String.length (zeros 4096))%nat)
    by (apply Nat.leb_le; vm_compute; reflexivity).
  split; [exact H1|]; split; [exact H2|].
  apply (V0_long_line_error (zeros 4096) (linesLF ["SUMMARY:x"]) H1 H2).
Defined.

End ICS.
